(** * HackingBuddyService: a shallow embedding of the orchestration engine

    The service (both revisions of [HackingBuddyService.ts] found in the
    repository) is embedded as Rocq functions:

    - JavaScript strings are [string]s, one [ascii] per code unit, so the
      development speaks about strings whose code units are below 256;
    - regular expressions are written with backtracking combinators in
      continuation-passing style, one combinator per regex construct;
    - a service method is a computation in a state-and-exception monad over
      a [World] that holds the fields of the class, the interval timers of
      the runtime, the clock and a trace of what was emitted and delivered;
    - a registered callback is a function that returns or throws; the
      service cannot see what else it does, and the model leaves it out;
    - the [await] points of a timer tick (the HTTP request, the simulated
      command latency) are the boundaries between the steps of an event
      loop whose inputs are chosen by the environment: which timer fires,
      which request settles and how, which simulated execution ends;
    - [sendMessage] and [testConnection] are run from call to return with
      the outcome of their one request given: nothing that could happen
      while they wait changes what the statements about them read;
    - HTTP requests are not built: an outcome is an input, not a function
      of the URL, the headers and the body.

    Around the service, the parts of the application that call it are
    embedded too: the state and the handlers of [App], the checks and
    the field editor of the configuration panel, the send guard of the
    chat and the label of the status bar.  The callbacks [App] registers
    only update its state, which is read back from the calls the trace
    records; a component is rendered again before the next event, the
    application is mounted once, and the clock moves on while a handler
    awaits the service. *)

From Stdlib Require Import String Ascii List Bool Arith ZArith Lia.
From Stdlib Require Import DecimalString.
From Stdlib Require DecimalNat DecimalFacts.
Import ListNotations.
Open Scope list_scope.
Open Scope string_scope.
Open Scope nat_scope.

(** ** Strings *)

Module Str.

Definition code (c : ascii) : nat := nat_of_ascii c.

(** [WhiteSpace] and [LineTerminator] code units below 256: what [\s]
    matches and what [String.prototype.trim] removes. *)
Definition isWhiteSpace (c : ascii) : bool :=
  let n := code c in
  ((9 <=? n) && (n <=? 13)) || (n =? 32) || (n =? 160).

(** [.] without the [s] flag matches everything but line terminators. *)
Definition isLineTerminator (c : ascii) : bool :=
  let n := code c in (n =? 10) || (n =? 13).

Definition dot (c : ascii) : bool := negb (isLineTerminator c).
Definition dotAll (c : ascii) : bool := true.

Definition backtick : ascii := "`"%char.

Fixpoint trimStart (s : string) : string :=
  match s with
  | String a s' => if isWhiteSpace a then trimStart s' else s
  | EmptyString => EmptyString
  end.

Fixpoint trimEnd (s : string) : string :=
  match s with
  | EmptyString => EmptyString
  | String a s' =>
      match trimEnd s' with
      | EmptyString => if isWhiteSpace a then EmptyString else String a EmptyString
      | t => String a t
      end
  end.

Definition trim (s : string) : string := trimEnd (trimStart s).

(** [s.startsWith(p)] *)
Fixpoint startsWith (p s : string) : bool :=
  match p with
  | EmptyString => true
  | String a p' =>
      match s with
      | String b s' => Ascii.eqb a b && startsWith p' s'
      | EmptyString => false
      end
  end.

(** [s.includes(k)] *)
Fixpoint includes (s k : string) : bool :=
  startsWith k s ||
  match s with
  | String _ s' => includes s' k
  | EmptyString => false
  end.

(** [toLowerCase] on code units below 256: A-Z and the Latin-1 capitals
    (0xC0-0xDE but the multiplication sign 0xD7) move up by 32. *)
Definition lowerChar (c : ascii) : ascii :=
  let n := code c in
  if ((65 <=? n) && (n <=? 90)) || ((192 <=? n) && (n <=? 222) && negb (n =? 215))
  then ascii_of_nat (n + 32) else c.

Fixpoint toLowerCase (s : string) : string :=
  match s with
  | EmptyString => EmptyString
  | String a s' => String (lowerChar a) (toLowerCase s')
  end.

(** The [Canonicalize] step of a case-insensitive regex, for the ASCII
    letters: a code unit that is not ASCII never canonicalizes to an
    ASCII one, so against the ASCII literals of the catalog only the
    two cases of a letter compare equal. *)
Definition canonicalize (c : ascii) : ascii :=
  let n := code c in
  if (97 <=? n) && (n <=? 122) then ascii_of_nat (n - 32) else c.

Definition ofNat (n : nat) : string := NilZero.string_of_uint (Nat.to_uint n).
Definition ofZ (z : Z) : string := NilZero.string_of_int (Z.to_int z).

(** Offset of the first code fence in [s], if there is one. *)
Definition fence : string := "```".

Fixpoint findFence (s : string) : option nat :=
  if startsWith fence s then Some 0
  else match s with
       | String _ s' => option_map S (findFence s')
       | EmptyString => None
       end.

End Str.

(** ** Regular expressions

    A matcher takes the continuation first and the subject second, so that
    a sequence of regex constructs is a nest of applications read from left
    to right.  [None] is a failed branch: the caller backtracks. *)

Module Regex.
Import Str.

Section Combinators.
Context {R : Type}.

Definition Cont := string -> option R.

(** A literal, compared code unit by code unit through [canon]. *)
Fixpoint litWith (canon : ascii -> ascii) (p : string) (k : Cont) (s : string)
  : option R :=
  match p with
  | EmptyString => k s
  | String a p' =>
      match s with
      | String b s' =>
          if Ascii.eqb (canon a) (canon b) then litWith canon p' k s' else None
      | EmptyString => None
      end
  end.

Definition lit := litWith (fun c => c).
Definition litI := litWith canonicalize.

(** [a|b]: the left branch first. *)
Definition alt (m1 m2 : Cont -> Cont) (k : Cont) (s : string) : option R :=
  match m1 k s with
  | Some r => Some r
  | None => m2 k s
  end.

(** [(?:m)?], greedy: with [m] first, then without. *)
Definition opt (m : Cont -> Cont) : Cont -> Cont := alt m (fun k => k).

(** [c*], greedy, over a character class. *)
Fixpoint star (c : ascii -> bool) (k : Cont) (s : string) : option R :=
  match s with
  | String a s' =>
      if c a then
        match star c k s' with
        | Some r => Some r
        | None => k s
        end
      else k s
  | EmptyString => k s
  end.

(** [(c*?)], lazy and capturing: the continuation gets the capture. *)
Fixpoint lazyGroup (c : ascii -> bool) (k : string -> Cont) (s : string)
  : option R :=
  match k EmptyString s with
  | Some r => Some r
  | None =>
      match s with
      | String a s' =>
          if c a then lazyGroup c (fun cap => k (String a cap)) s' else None
      | EmptyString => None
      end
  end.

(** The search of [RegExp.prototype.exec]: the leftmost start wins. *)
Fixpoint search (m : Cont) (s : string) : option R :=
  match m s with
  | Some r => Some r
  | None =>
      match s with
      | String _ s' => search m s'
      | EmptyString => None
      end
  end.

End Combinators.

(** [re.test(s)] for a regex without the [g] flag. *)
Definition test (m : @Cont unit -> @Cont unit) (s : string) : bool :=
  match search (m (fun _ => Some tt)) s with
  | Some _ => true
  | None => false
  end.

End Regex.

(** ** Command extraction (analyzeAIResponse, first half) *)

Import Str Regex.

(** [/```(?:bash|shell)?\s*(.*?)\s*```/gs] tried at one position: the
    capture and what follows the match. *)
Definition commandRegex : @Cont (string * string) :=
  lit "```"
    (opt (alt (lit "bash") (lit "shell"))
       (star isWhiteSpace
          (lazyGroup dotAll (fun cap =>
             star isWhiteSpace
               (lit "```" (fun rest => Some (cap, rest))))))).

(** [commandRegex.exec(response)] from [lastIndex]: [s] is the subject from
    [lastIndex] on, the second component of the result the subject from the
    new [lastIndex] on. *)
Definition commandRegex_exec (s : string) : option (string * string) :=
  search commandRegex s.

(** The [while ((match = commandRegex.exec(response)) !== null)] loop. *)
Fixpoint extractLoop (fuel : nat) (s : string) : list string :=
  match fuel with
  | O => []
  | S fuel' =>
      match commandRegex_exec s with
      | Some (cap, rest) => trim cap :: extractLoop fuel' rest
      | None => []
      end
  end.

Definition extractCommands (response : string) : list string :=
  extractLoop (S (String.length response)) response.

(** ** JavaScript values

    What a parsed JSON body, a status field or a message content can hold
    at run time.  A number carries its [Number::toString] rendering. *)

#[warnings="-register-all"]
Inductive JSValue :=
| JUndefined
| JNull
| JBool (b : bool)
| JNumber (repr : string)
| JString (s : string)
| JArray (items : list JSValue)
| JObject (fields : list (string * JSValue)).

(** What is thrown: an [Error] (or an axios error, which adds [code] and
    [response]). *)
Record JSError := {
  err_message : string;
  err_code : option string;
  err_response : option (Z * string)   (* status, statusText *)
}.

Definition Error (message : string) : JSError :=
  {| err_message := message; err_code := None; err_response := None |}.

Definition TypeError : JSError := Error "TypeError".

Inductive Result (A : Type) :=
| Ok (a : A)
| Throw (e : JSError).
Arguments Ok {A} a.
Arguments Throw {A} e.

Module JS.

(** The string [ToString] gives, where it returns (see [ToString]
    below). *)
Fixpoint toString (v : JSValue) : string :=
  match v with
  | JUndefined => "undefined"
  | JNull => "null"
  | JBool true => "true"
  | JBool false => "false"
  | JNumber repr => repr
  | JString s => s
  | JArray items =>
      (fix join (l : list JSValue) : string :=
         match l with
         | [] => EmptyString
         | x :: l' =>
             let sx := match x with
                       | JUndefined | JNull => EmptyString
                       | _ => toString x
                       end in
             match l' with
             | [] => sx
             | _ => sx ++ "," ++ join l'
             end
         end) items
  | JObject _ => "[object Object]"
  end.

(** Whether [ToString] returns.  An object parsed from a reply converts
    with [Object.prototype.toString] unless it has an own property
    [toString]: that property is no function, and [valueOf] (own and no
    function, or inherited and returning the object) gives no primitive
    value, so the conversion throws.  The elements of an array are
    converted by [join], but for [undefined] and [null]. *)
Fixpoint convertible (v : JSValue) : bool :=
  match v with
  | JArray items =>
      (fix all (l : list JSValue) : bool :=
         match l with
         | [] => true
         | x :: l' => convertible x && all l'
         end) items
  | JObject fields => negb (existsb (fun kv => String.eqb (fst kv) "toString") fields)
  | _ => true
  end.

(** [ToString], as a template literal and [RegExp.prototype.exec] apply
    it to their argument. *)
Definition ToString (v : JSValue) : Result string :=
  if convertible v then Ok (toString v) else Throw TypeError.

(** [ToBoolean] *)
Definition truthy (v : JSValue) : bool :=
  match v with
  | JUndefined | JNull => false
  | JBool b => b
  | JNumber repr => negb (String.eqb repr "0" || String.eqb repr "NaN" || String.eqb repr "-0")
  | JString s => negb (String.eqb s EmptyString)
  | JArray _ | JObject _ => true
  end.

Fixpoint lookup (key : string) (fields : list (string * JSValue)) : JSValue :=
  match fields with
  | [] => JUndefined
  | (k, v) :: rest => if String.eqb k key then v else lookup key rest
  end.

(** [v.name]: reading a property of [undefined] or [null] throws, a
    property that is not there reads as [undefined]. *)
Definition getProp (v : JSValue) (name : string) : Result JSValue :=
  match v with
  | JUndefined | JNull => Throw TypeError
  | JObject fields => Ok (lookup name fields)
  | JArray items =>
      Ok (if String.eqb name "length" then JNumber (ofNat (List.length items))
          else JUndefined)
  | JString s =>
      Ok (if String.eqb name "length" then JNumber (ofNat (String.length s))
          else JUndefined)
  | JBool _ | JNumber _ => Ok JUndefined
  end.

(** [v[i]] *)
Definition getIndex (v : JSValue) (i : nat) : Result JSValue :=
  match v with
  | JUndefined | JNull => Throw TypeError
  | JObject fields => Ok (lookup (ofNat i) fields)
  | JArray items => Ok (nth i items JUndefined)
  | JString s =>
      Ok (match String.get i s with
          | Some c => JString (String c EmptyString)
          | None => JUndefined
          end)
  | JBool _ | JNumber _ => Ok JUndefined
  end.

End JS.

(** ** Data model (types/index.ts) *)

Record LLMConfiguration := {
  model : string;
  api_url : string;
  api_key : string;
  context_size : Z;
  api_path : string;
  api_timeout : Z;
  api_backoff : Z;
  api_retries : Z
}.

Record ConnectionConfiguration := {
  host : string;
  hostname : string;
  port : Z;
  username : string;
  password : string;
  keyfilename : string
}.

Record Configuration := {
  llm : LLMConfiguration;
  connection : ConnectionConfiguration
}.

Inductive Sender := user | assistant | system.

Inductive MessageType := text | command | result | error | vulnerability.

Inductive Severity := low | medium | high | critical.

Record Metadata := {
  meta_command : option string;
  meta_exitCode : JSValue
}.

(** [Omit<ChatMessage, 'id' | 'timestamp'>]: what the callers of
    [emitMessage] write.  The content is whatever value the caller holds. *)
Record MessageInit := {
  content : JSValue;
  sender : Sender;
  type : MessageType;
  metadata : option Metadata
}.

Record ChatMessage := {
  msg_id : string;
  msg_timestamp : Z;
  msg_init : MessageInit
}.

(** [Omit<Vulnerability, 'id' | 'discoveredAt'>] *)
Record VulnerabilityInit := {
  title : string;
  description : string;
  severity : Severity;
  category : string;
  affectedComponent : string;
  recommendation : string;
  evidence : list JSValue
}.

Record Vulnerability := {
  vuln_id : string;
  vuln_discoveredAt : Z;
  vuln_init : VulnerabilityInit
}.

(** [Partial<SystemStatus>]: the fields an emission sets. *)
Record StatusDelta := {
  connected : option JSValue;
  scanning : option bool;
  lastScan : option Z
}.

Definition Connected (v : JSValue) : StatusDelta :=
  {| connected := Some v; scanning := None; lastScan := None |}.
Definition Scanning (b : bool) (last : option Z) : StatusDelta :=
  {| connected := None; scanning := Some b; lastScan := last |}.

(** ** The world the service runs in *)

(** A registered callback: [sub_call] says whether the call returns
    ([None]) or throws; [sub_name] tells the callbacks apart in the trace. *)
Record Subscriber (T : Type) := {
  sub_name : nat;
  sub_call : T -> option JSError
}.
Arguments sub_name {T} _.
Arguments sub_call {T} _ _.

Inductive Payload :=
| PMessage (m : ChatMessage)
| PVulnerability (v : Vulnerability)
| PStatus (s : StatusDelta).

(** The trace is not a field of the class: it records, for the theorems,
    each record an emitter builds, each call of a subscriber and each
    [console.error]. *)
Inductive Event :=
| Emitted (p : Payload)
| Delivered (subscriber : nat) (p : Payload)
| ConsoleError (label : string) (e : JSError).

(** The closure of one [setInterval] call of [startAutomaticScan]:
    [commandIndex] is the variable its ticks share. *)
Record Timer := {
  timer_active : bool;
  commandIndex : nat
}.

(** A tick suspended at an [await]. *)
Inductive Task :=
| AwaitPost (tid : nat) (cmd : string)
| AwaitLatency (tid : nat) (cmd : string).

Record World := {
  (* fields of HackingBuddyService *)
  config : option Configuration;
  onMessage_listeners : list (Subscriber ChatMessage);
  onVulnerabilityFound_listeners : list (Subscriber Vulnerability);
  onStatusChange_listeners : list (Subscriber StatusDelta);
  scanInterval : option nat;
  messageId : nat;
  (* the runtime *)
  timers : list Timer;
  tasks : list (option Task);
  now : Z;
  trace : list Event
}.

Definition initial (t : Z) : World :=
  {| config := None;
     onMessage_listeners := [];
     onVulnerabilityFound_listeners := [];
     onStatusChange_listeners := [];
     scanInterval := None;
     messageId := 0;
     timers := [];
     tasks := [];
     now := t;
     trace := [] |}.

Definition set_config (c : option Configuration) (w : World) : World :=
  {| config := c;
     onMessage_listeners := onMessage_listeners w;
     onVulnerabilityFound_listeners := onVulnerabilityFound_listeners w;
     onStatusChange_listeners := onStatusChange_listeners w;
     scanInterval := scanInterval w;
     messageId := messageId w;
     timers := timers w;
     tasks := tasks w;
     now := now w;
     trace := trace w |}.

Definition set_onMessage (l : list (Subscriber ChatMessage)) (w : World) : World :=
  {| config := config w;
     onMessage_listeners := l;
     onVulnerabilityFound_listeners := onVulnerabilityFound_listeners w;
     onStatusChange_listeners := onStatusChange_listeners w;
     scanInterval := scanInterval w;
     messageId := messageId w;
     timers := timers w;
     tasks := tasks w;
     now := now w;
     trace := trace w |}.

Definition set_onVulnerabilityFound (l : list (Subscriber Vulnerability)) (w : World)
  : World :=
  {| config := config w;
     onMessage_listeners := onMessage_listeners w;
     onVulnerabilityFound_listeners := l;
     onStatusChange_listeners := onStatusChange_listeners w;
     scanInterval := scanInterval w;
     messageId := messageId w;
     timers := timers w;
     tasks := tasks w;
     now := now w;
     trace := trace w |}.

Definition set_onStatusChange (l : list (Subscriber StatusDelta)) (w : World) : World :=
  {| config := config w;
     onMessage_listeners := onMessage_listeners w;
     onVulnerabilityFound_listeners := onVulnerabilityFound_listeners w;
     onStatusChange_listeners := l;
     scanInterval := scanInterval w;
     messageId := messageId w;
     timers := timers w;
     tasks := tasks w;
     now := now w;
     trace := trace w |}.

Definition set_scanInterval (h : option nat) (w : World) : World :=
  {| config := config w;
     onMessage_listeners := onMessage_listeners w;
     onVulnerabilityFound_listeners := onVulnerabilityFound_listeners w;
     onStatusChange_listeners := onStatusChange_listeners w;
     scanInterval := h;
     messageId := messageId w;
     timers := timers w;
     tasks := tasks w;
     now := now w;
     trace := trace w |}.

Definition set_messageId (n : nat) (w : World) : World :=
  {| config := config w;
     onMessage_listeners := onMessage_listeners w;
     onVulnerabilityFound_listeners := onVulnerabilityFound_listeners w;
     onStatusChange_listeners := onStatusChange_listeners w;
     scanInterval := scanInterval w;
     messageId := n;
     timers := timers w;
     tasks := tasks w;
     now := now w;
     trace := trace w |}.

Definition set_timers (l : list Timer) (w : World) : World :=
  {| config := config w;
     onMessage_listeners := onMessage_listeners w;
     onVulnerabilityFound_listeners := onVulnerabilityFound_listeners w;
     onStatusChange_listeners := onStatusChange_listeners w;
     scanInterval := scanInterval w;
     messageId := messageId w;
     timers := l;
     tasks := tasks w;
     now := now w;
     trace := trace w |}.

Definition set_tasks (l : list (option Task)) (w : World) : World :=
  {| config := config w;
     onMessage_listeners := onMessage_listeners w;
     onVulnerabilityFound_listeners := onVulnerabilityFound_listeners w;
     onStatusChange_listeners := onStatusChange_listeners w;
     scanInterval := scanInterval w;
     messageId := messageId w;
     timers := timers w;
     tasks := l;
     now := now w;
     trace := trace w |}.

Definition set_now (t : Z) (w : World) : World :=
  {| config := config w;
     onMessage_listeners := onMessage_listeners w;
     onVulnerabilityFound_listeners := onVulnerabilityFound_listeners w;
     onStatusChange_listeners := onStatusChange_listeners w;
     scanInterval := scanInterval w;
     messageId := messageId w;
     timers := timers w;
     tasks := tasks w;
     now := t;
     trace := trace w |}.

Definition log (e : Event) (w : World) : World :=
  {| config := config w;
     onMessage_listeners := onMessage_listeners w;
     onVulnerabilityFound_listeners := onVulnerabilityFound_listeners w;
     onStatusChange_listeners := onStatusChange_listeners w;
     scanInterval := scanInterval w;
     messageId := messageId w;
     timers := timers w;
     tasks := tasks w;
     now := now w;
     trace := (trace w ++ [e])%list |}.

(** ** The monad of the methods: state and exceptions *)

Definition M (A : Type) : Type := World -> Result A * World.

Definition ret {A} (a : A) : M A := fun w => (Ok a, w).

Definition throw {A} (e : JSError) : M A := fun w => (Throw e, w).

Definition bind {A B} (m : M A) (f : A -> M B) : M B :=
  fun w =>
    match m w with
    | (Ok a, w') => f a w'
    | (Throw e, w') => (Throw e, w')
    end.

(** [try { body } catch (error) { handler }] *)
Definition tryCatch {A} (body : M A) (handler : JSError -> M A) : M A :=
  fun w =>
    match body w with
    | (Ok a, w') => (Ok a, w')
    | (Throw e, w') => handler e w'
    end.

Definition lift {A} (r : Result A) : M A := fun w => (r, w).

Definition get : M World := fun w => (Ok w, w).

Definition modify (f : World -> World) : M unit := fun w => (Ok tt, f w).

Declare Scope js_scope.
Delimit Scope js_scope with js.
Notation "x <- m ;; k" := (bind m (fun x => k))
  (at level 61, m at next level, right associativity) : js_scope.
Notation "m ;; k" := (bind m (fun _ => k))
  (at level 61, right associativity) : js_scope.
Open Scope js_scope.

(** [for (const x of xs) { await body(x) }] *)
Fixpoint forOf {A} (xs : list A) (body : A -> M unit) : M unit :=
  match xs with
  | [] => ret tt
  | x :: xs' => body x ;; forOf xs' body
  end.

Definition consoleError (label : string) (e : JSError) : M unit :=
  modify (log (ConsoleError label e)).

(** ** HackingBuddyService *)

(** The repository holds two revisions of the class.  [Rev1] posts through
    an axios instance configured by [onConfigurationUpdate]; [Rev2] calls
    axios with the full URL.  They differ in the [catch] of
    [testConnection], in [simulateSSHConnection] and in the [catch] of a
    scan tick; a definition takes the revision where they do. *)
Inductive Revision := Rev1 | Rev2.

(** How an [await axios.post(...)] settles.  The request itself is not
    modelled; the environment picks the outcome. *)
Inductive PostOutcome :=
| Resolved (status : Z) (data : JSValue)
| Rejected (e : JSError).

Definition awaitPost (reply : PostOutcome) : M (Z * JSValue) :=
  match reply with
  | Resolved status data => ret (status, data)
  | Rejected e => throw e
  end.

Definition nl : string := String (ascii_of_nat 10) EmptyString.
Definition quote : string := String (ascii_of_nat 34) EmptyString.

Definition bytes (l : list nat) : string :=
  string_of_list_ascii (map ascii_of_nat l).

(** The pictographs that open three of the messages, as the bytes the
    source file holds. *)
Definition siren : string := bytes [239; 163; 191; 195; 188; 195; 182; 194; 174].
Definition magnifier : string := bytes [239; 163; 191; 195; 188; 195; 174; 195; 167].
Definition warningSign : string :=
  bytes [226; 128; 154; 195; 182; 226; 128; 160; 195; 148; 226; 136; 143; 195; 168].

Definition onConfigurationUpdate (cfg : Configuration) : M unit :=
  modify (set_config (Some cfg)).

Definition onMessage (callback : Subscriber ChatMessage) : M unit :=
  fun w => (Ok tt, set_onMessage (onMessage_listeners w ++ [callback])%list w).

Definition onVulnerabilityFound (callback : Subscriber Vulnerability) : M unit :=
  fun w =>
    (Ok tt,
     set_onVulnerabilityFound (onVulnerabilityFound_listeners w ++ [callback])%list w).

Definition onStatusChange (callback : Subscriber StatusDelta) : M unit :=
  fun w => (Ok tt, set_onStatusChange (onStatusChange_listeners w ++ [callback])%list w).

(** [listeners.forEach(callback => callback(x))]: a callback that throws
    ends the iteration, and the exception leaves [forEach]. *)
Fixpoint forEach {T} (wrap : T -> Payload) (listeners : list (Subscriber T)) (x : T)
  : M unit :=
  match listeners with
  | [] => ret tt
  | callback :: rest =>
      fun w =>
        let w1 := log (Delivered (sub_name callback) (wrap x)) w in
        match sub_call callback x with
        | Some e => (Throw e, w1)
        | None => forEach wrap rest x w1
        end
  end.

Definition emitMessage (message : MessageInit) : M unit :=
  fun w =>
    let n := S (messageId w) in
    let fullMessage :=
      {| msg_id := ofNat n; msg_timestamp := now w; msg_init := message |} in
    forEach PMessage (onMessage_listeners w) fullMessage
      (log (Emitted (PMessage fullMessage)) (set_messageId n w)).

Definition emitVulnerability (v : VulnerabilityInit) : M unit :=
  fun w =>
    let fullVulnerability :=
      {| vuln_id := ofZ (now w); vuln_discoveredAt := now w; vuln_init := v |} in
    forEach PVulnerability (onVulnerabilityFound_listeners w) fullVulnerability
      (log (Emitted (PVulnerability fullVulnerability)) w).

Definition emitStatusChange (status : StatusDelta) : M unit :=
  fun w =>
    forEach PStatus (onStatusChange_listeners w) status (log (Emitted (PStatus status)) w).

(** [a || b] on strings *)
Definition orElse (a b : string) : string :=
  if String.eqb a EmptyString then b else a.

(** [simulateSSHConnection], once its timer has elapsed.  In the first
    revision the promise resolves with the value of
    [!!host && !!username && hasCredentials], whose last operand is a
    string; the second resolves with [true] or [false]. *)
Definition simulateSSHConnection (rev : Revision) : M JSValue :=
  fun w =>
    match config w with
    | None => (Ok (JBool false), w)
    | Some cfg =>
        let c := connection cfg in
        let hasCredentials := orElse (password c) (keyfilename c) in
        match rev with
        | Rev1 =>
            (Ok (if String.eqb (host c) EmptyString then JBool false
                 else if String.eqb (username c) EmptyString then JBool false
                 else JString hasCredentials), w)
        | Rev2 =>
            let hasRequiredFields :=
              negb (String.eqb (host c) EmptyString)
              && negb (String.eqb (username c) EmptyString)
              && negb (String.eqb (hostname c) EmptyString)
              && negb (String.eqb hasCredentials EmptyString) in
            (Ok (JBool hasRequiredFields), w)
        end
    end.

(** The message the second revision's [catch] builds from what it caught. *)
Definition connectionErrorMessage (e : JSError) : string :=
  match err_response e with
  | Some (status, statusText) =>
      "LLM API Error: " ++ ofZ status ++ " - " ++ statusText
  | None =>
      if match err_code e with
         | Some c => String.eqb c "ECONNREFUSED"
         | None => false
         end
      then "Cannot connect to LLM API - check URL and ensure Ollama is running"
      else if negb (String.eqb (err_message e) EmptyString) then err_message e
      else "Connection test failed"
  end.

Definition testConnection (rev : Revision) (reply : PostOutcome) : M JSValue :=
  fun w =>
    match config w with
    | None => (Throw (Error "Configuration not set"), w)
    | Some _ =>
        tryCatch
          (llmResponse <- awaitPost reply ;;
           (if negb (Z.eqb (fst llmResponse) 200)
            then throw (Error "LLM connection failed") else ret tt) ;;
           sshTest <- simulateSSHConnection rev ;;
           emitStatusChange (Connected sshTest) ;;
           ret sshTest)
          (fun err =>
             consoleError "Connection test failed:" err ;;
             match rev with
             | Rev1 =>
                 emitStatusChange (Connected (JBool false)) ;;
                 ret (JBool false)
             | Rev2 =>
                 throw (A := unit) (Error (connectionErrorMessage err)) ;;
                 emitStatusChange (Connected (JBool false)) ;;
                 ret (JBool false)
             end) w
    end.

(** The canned outputs of [simulateCommandExecution]. *)
Definition simulations : list (string * (string * Z)) :=
  [ ("id", ("uid=1001(user) gid=1001(user) groups=1001(user)", 0%Z));
    ("whoami", ("user", 0%Z));
    ("sudo -l",
      ("User user may run the following commands on target:" ++ nl
         ++ "    (ALL) NOPASSWD: /usr/bin/find", 0%Z));
    ("find / -perm -4000 2>/dev/null",
      ("/usr/bin/passwd" ++ nl ++ "/usr/bin/sudo" ++ nl ++ "/usr/bin/find" ++ nl
         ++ "/usr/bin/python3", 0%Z));
    ("ls -la /etc/passwd",
      ("-rw-r--r-- 1 root root 2847 Oct 15 10:30 /etc/passwd", 0%Z));
    ("cat /etc/os-release",
      ("NAME=" ++ quote ++ "Ubuntu" ++ quote ++ nl
         ++ "VERSION=" ++ quote ++ "20.04.3 LTS (Focal Fossa)" ++ quote ++ nl
         ++ "ID=ubuntu" ++ nl ++ "ID_LIKE=debian", 0%Z));
    ("ps aux",
      ("USER       PID %CPU %MEM    VSZ   RSS TTY      STAT START   TIME COMMAND" ++ nl
         ++ "root         1  0.0  0.1 169404 11084 ?        Ss   Oct15   0:02 /sbin/init"
         ++ nl
         ++ "root         2  0.0  0.0      0     0 ?        S    Oct15   0:00 [kthreadd]",
       0%Z)) ].

(** [simulations] is an object literal: a key it does not define is still
    found when [Object.prototype] has it, and what is found there is
    truthy and has neither [output] nor [exitCode]. *)
Definition objectPrototypeKeys : list string :=
  [ "constructor"; "hasOwnProperty"; "isPrototypeOf"; "propertyIsEnumerable";
    "toLocaleString"; "toString"; "valueOf"; "__proto__";
    "__defineGetter__"; "__defineSetter__"; "__lookupGetter__"; "__lookupSetter__" ].

Fixpoint assoc {V} (key : string) (table : list (string * V)) : option V :=
  match table with
  | [] => None
  | (k, v) :: rest => if String.eqb k key then Some v else assoc key rest
  end.

(** [simulateCommandExecution], once its random delay has elapsed: the
    [output] and the [exitCode] of what the promise resolves with. *)
Definition simulateCommandExecution (cmd : string) : JSValue * JSValue :=
  match assoc cmd simulations with
  | Some (output, exitCode) => (JString output, JNumber (ofZ exitCode))
  | None =>
      if existsb (String.eqb cmd) objectPrototypeKeys
      then (JUndefined, JUndefined)
      else (JString ("Command '" ++ cmd ++ "' executed successfully"), JNumber "0")
  end.

(** One entry of [vulnerabilityPatterns]. *)
Record Rule := {
  pattern : string -> bool;
  rule_title : string;
  rule_description : string;
  rule_severity : Severity;
  rule_category : string;
  rule_recommendation : string;
  rule_evidence : list JSValue
}.

(** [/NOPASSWD.*find/i] *)
Definition re_nopasswd_find : string -> bool :=
  test (fun k => litI "NOPASSWD" (star dot (litI "find" k))).

(** [/\/usr\/bin\/python3.*4000/] *)
Definition re_suid_python : string -> bool :=
  test (fun k => lit "/usr/bin/python3" (star dot (lit "4000" k))).

(** [/uid=0\(root\)/] *)
Definition re_uid_root : string -> bool :=
  test (fun k => lit "uid=0(root)" k).

Definition vulnerabilityPatterns (cmd : string) (output : JSValue) : list Rule :=
  [ {| pattern := re_nopasswd_find;
       rule_title := "Sudo Privilege Escalation via find";
       rule_description :=
         "The user can run find with sudo without password, which can be exploited for privilege escalation";
       rule_severity := high;
       rule_category := "Privilege Escalation";
       rule_recommendation := "Remove NOPASSWD permission for find or restrict its usage";
       rule_evidence := [JString cmd; output] |};
    {| pattern := re_suid_python;
       rule_title := "SUID Python Binary";
       rule_description := "Python binary has SUID bit set, allowing privilege escalation";
       rule_severity := critical;
       rule_category := "Privilege Escalation";
       rule_recommendation :=
         "Remove SUID bit from Python binary: chmod u-s /usr/bin/python3";
       rule_evidence := [JString cmd; output] |};
    {| pattern := re_uid_root;
       rule_title := "Root Access Achieved";
       rule_description := "Successfully escalated privileges to root user";
       rule_severity := critical;
       rule_category := "Privilege Escalation";
       rule_recommendation :=
         "Investigate how root access was obtained and patch the vulnerability";
       rule_evidence := [JString cmd; output] |} ].

(** [this.config?.connection.host || 'Target System'] *)
Definition targetOf (w : World) : string :=
  match config w with
  | Some cfg => orElse (host (connection cfg)) "Target System"
  | None => "Target System"
  end.

Definition findingOf (target : string) (r : Rule) : VulnerabilityInit :=
  {| title := rule_title r;
     description := rule_description r;
     severity := rule_severity r;
     category := rule_category r;
     affectedComponent := target;
     recommendation := rule_recommendation r;
     evidence := rule_evidence r |}.

Definition alertOf (r : Rule) : MessageInit :=
  {| content :=
       JString (siren ++ " VULNERABILITY DETECTED: " ++ rule_title r ++ nl ++ nl
                  ++ rule_description r);
     sender := system;
     type := vulnerability;
     metadata := None |}.

(** [pattern.test(output)] converts [output] to a string.  The method is
    private and its one caller passes what [simulateCommandExecution]
    resolved with, a string or [undefined], on which the conversion
    returns. *)
Definition analyzeCommandResult (cmd : string) (output : JSValue) : M unit :=
  forOf (vulnerabilityPatterns cmd output) (fun r =>
    if pattern r (JS.toString output) then
      w <- get ;;
      emitVulnerability (findingOf (targetOf w) r) ;;
      emitMessage (alertOf r)
    else ret tt).

Definition vulnKeywords : list string :=
  [ "vulnerability"; "exploit"; "privilege escalation"; "buffer overflow";
    "sql injection"; "xss"; "csrf"; "directory traversal"; "weak password";
    "misconfiguration"; "exposed service"; "unpatched system" ].

(** [vulnKeywords.filter(keyword => response.toLowerCase().includes(keyword))] *)
Definition foundKeywords (response : string) : list string :=
  filter (fun keyword => includes (toLowerCase response) keyword) vulnKeywords.

(** A [response] that is not a string has no [toLowerCase]: the first
    call of the filter's callback throws. *)
Definition detectVulnerabilitiesFromResponse (response : JSValue) : M unit :=
  match response with
  | JString s =>
      let found := foundKeywords s in
      if 0 <? List.length found then
        w <- get ;;
        emitVulnerability
          {| title := "Potential Security Issue Identified";
             description :=
               "AI analysis suggests potential security concerns: "
                 ++ String.concat ", " found;
             severity := medium;
             category := "Analysis";
             affectedComponent := targetOf w;
             recommendation := "Further investigation required based on AI analysis";
             evidence := [response] |}
      else ret tt
  | _ => throw TypeError
  end.

(** [executeCommand] up to its first [await]: [true] when the simulated
    execution has been started, [false] when the method returned at once. *)
Definition executeCommand_begin (cmd : string) : M bool :=
  w <- get ;;
  match config w with
  | None => ret false
  | Some _ =>
      emitMessage
        {| content := JString ("Executing command: " ++ cmd);
           sender := system;
           type := command;
           metadata := Some {| meta_command := Some cmd; meta_exitCode := JUndefined |} |} ;;
      ret true
  end.

(** [executeCommand] from the point where the simulated execution has
    resolved. *)
Definition executeCommand_resume (cmd : string) : M unit :=
  let r := simulateCommandExecution cmd in
  emitMessage
    {| content := fst r;
       sender := system;
       type := result;
       metadata := Some {| meta_command := Some cmd; meta_exitCode := snd r |} |} ;;
  analyzeCommandResult cmd (fst r).

Definition executeCommand (cmd : string) : M unit :=
  started <- executeCommand_begin cmd ;;
  if started then executeCommand_resume cmd else ret tt.

(** [commandRegex.exec(response)] converts its argument to a string, at
    its first call. *)
Definition analyzeAIResponse (response : JSValue) : M unit :=
  subject <- lift (JS.ToString response) ;;
  let commands := extractCommands subject in
  forOf commands executeCommand ;;
  detectVulnerabilitiesFromResponse response.

(** [response.data.choices[0].message.content] *)
Definition replyContent (data : JSValue) : Result JSValue :=
  match JS.getProp data "choices" with
  | Throw e => Throw e
  | Ok choices =>
      match JS.getIndex choices 0 with
      | Throw e => Throw e
      | Ok first =>
          match JS.getProp first "message" with
          | Throw e => Throw e
          | Ok message => JS.getProp message "content"
          end
      end
  end.

Definition sendMessage (_content : string) (reply : PostOutcome) : M unit :=
  fun w =>
    match config w with
    | None => (Throw (Error "Configuration not set"), w)
    | Some _ =>
        tryCatch
          (response <- awaitPost reply ;;
           aiResponse <- lift (replyContent (snd response)) ;;
           emitMessage
             {| content := aiResponse; sender := assistant; type := text;
                metadata := None |} ;;
           analyzeAIResponse aiResponse)
          (fun err =>
             consoleError "Failed to send message:" err ;;
             throw (Error "Failed to communicate with AI model")) w
    end.

(** *** The scripted scan *)

Definition scanCommands : list string :=
  [ "whoami";
    "id";
    "sudo -l";
    "find / -perm -4000 2>/dev/null | head -20";
    "cat /etc/os-release";
    "ps aux | head -10";
    "netstat -tulpn 2>/dev/null | head -10";
    "ls -la /etc/cron* 2>/dev/null";
    "find /var/www -type f -name " ++ quote ++ "*.php" ++ quote ++ " 2>/dev/null | head -5";
    "cat /etc/passwd | head -10" ].

Fixpoint updateAt {A} (i : nat) (f : A -> A) (l : list A) : list A :=
  match l, i with
  | [], _ => []
  | x :: l', O => f x :: l'
  | x :: l', S i' => x :: updateAt i' f l'
  end.

(** [setInterval(tick, 3000)]: a new timer whose closure starts with
    [commandIndex = 0]; the handle is its position in [timers]. *)
Definition setInterval : M nat :=
  fun w =>
    (Ok (List.length (timers w)),
     set_timers (timers w ++ [{| timer_active := true; commandIndex := 0 |}])%list w).

Definition clearInterval (handle : nat) : M unit :=
  modify (fun w =>
    set_timers
      (updateAt handle
         (fun t => {| timer_active := false; commandIndex := commandIndex t |})
         (timers w)) w).

(** [commandIndex++] in the closure of timer [tid] *)
Definition incrementCommandIndex (tid : nat) : M unit :=
  modify (fun w =>
    set_timers
      (updateAt tid
         (fun t => {| timer_active := timer_active t; commandIndex := S (commandIndex t) |})
         (timers w)) w).

Definition stopScan : M unit :=
  w <- get ;;
  match scanInterval w with
  | Some handle => clearInterval handle ;; modify (set_scanInterval None)
  | None => ret tt
  end ;;
  emitStatusChange (Scanning false None) ;;
  emitMessage
    {| content := JString "Automatic scan completed.";
       sender := system; type := text; metadata := None |}.

Definition startAutomaticScan : M unit :=
  fun w =>
    match config w with
    | None => (Throw (Error "Configuration not set"), w)
    | Some _ =>
        (emitStatusChange (Scanning true (Some (now w))) ;;
         emitMessage
           {| content := JString "Starting automatic security scan...";
              sender := system; type := text; metadata := None |} ;;
         handle <- setInterval ;;
         modify (set_scanInterval (Some handle))) w
    end.

(** Where a tick stands when control returns to the event loop. *)
Inductive Suspension :=
| Finished
| Pending (t : Task).

(** The [catch] of a tick's request for an explanation. *)
Definition adviceFailed (rev : Revision) (cmd : string) (err : JSError) : M unit :=
  consoleError "Failed to get AI analysis:" err ;;
  match rev with
  | Rev1 => ret tt
  | Rev2 =>
      emitMessage
        {| content :=
             JString (warningSign ++ " Failed to get AI analysis for command: " ++ cmd);
           sender := system; type := error; metadata := None |}
  end.

(** [await this.executeCommand(command); commandIndex++;] up to the
    [await] inside [executeCommand]. *)
Definition tick_execute (tid : nat) (cmd : string) : M Suspension :=
  started <- executeCommand_begin cmd ;;
  if started then ret (Pending (AwaitLatency tid cmd))
  else incrementCommandIndex tid ;; ret Finished.

(** The interval callback, from its start to its first [await]. *)
Definition tick_fire (rev : Revision) (tid : nat) : M Suspension :=
  w <- get ;;
  let index := match nth_error (timers w) tid with
               | Some t => commandIndex t
               | None => 0
               end in
  if List.length scanCommands <=? index then
    stopScan ;; ret Finished
  else
    let cmd := nth index scanCommands EmptyString in
    match config w with
    | None =>
        (* [this.config!.llm.api_path] throws inside the [try] *)
        adviceFailed rev cmd TypeError ;; tick_execute tid cmd
    | Some _ => ret (Pending (AwaitPost tid cmd))
    end.

(** The callback from the settlement of its request to its next [await]. *)
Definition tick_posted (rev : Revision) (tid : nat) (cmd : string) (reply : PostOutcome)
  : M Suspension :=
  tryCatch
    (aiResponse <- awaitPost reply ;;
     explanation <- lift (replyContent (snd aiResponse)) ;;
     shown <- lift (JS.ToString explanation) ;;     (* the template literal *)
     emitMessage
       {| content := JString (magnifier ++ " " ++ shown);
          sender := assistant; type := text; metadata := None |})
    (adviceFailed rev cmd) ;;
  tick_execute tid cmd.

(** The callback from the end of the simulated execution to its end. *)
Definition tick_simulated (tid : nat) (cmd : string) : M Suspension :=
  executeCommand_resume cmd ;;
  incrementCommandIndex tid ;;
  ret Finished.

(** *** The event loop *)

Inductive Input :=
| Configure (cfg : Configuration)      (* onConfigurationUpdate(cfg) is called *)
| StartScan                            (* startAutomaticScan() is called *)
| StopScan                             (* stopScan() is called *)
| TimerFires (tid : nat)               (* the interval of timer [tid] elapses *)
| PostSettles (task : nat) (reply : PostOutcome)   (* the request of a task settles *)
| LatencyElapses (task : nat)           (* the simulated execution of a task ends *)
| ClockAdvances (t : Z).               (* the clock now reads [t] *)

(** A tick that threw is an unhandled rejection: it just ends. *)
Definition suspensionOf (r : Result Suspension) : option Task :=
  match r with
  | Ok (Pending t) => Some t
  | _ => None
  end.

Definition step (rev : Revision) (i : Input) (w : World) : World :=
  match i with
  | Configure cfg => snd (onConfigurationUpdate cfg w)
  | StartScan => snd (startAutomaticScan w)
  | StopScan => snd (stopScan w)
  | TimerFires tid =>
      match nth_error (timers w) tid with
      | Some t =>
          if timer_active t then
            let (r, w') := tick_fire rev tid w in
            match suspensionOf r with
            | Some task => set_tasks (tasks w' ++ [Some task])%list w'
            | None => w'
            end
          else w
      | None => w
      end
  | PostSettles k reply =>
      match nth_error (tasks w) k with
      | Some (Some (AwaitPost tid cmd)) =>
          let (r, w') := tick_posted rev tid cmd reply w in
          set_tasks (updateAt k (fun _ => suspensionOf r) (tasks w')) w'
      | _ => w
      end
  | LatencyElapses k =>
      match nth_error (tasks w) k with
      | Some (Some (AwaitLatency tid cmd)) =>
          let (r, w') := tick_simulated tid cmd w in
          set_tasks (updateAt k (fun _ => suspensionOf r) (tasks w')) w'
      | _ => w
      end
  | ClockAdvances t => set_now t w
  end.

Fixpoint run (rev : Revision) (inputs : list Input) (w : World) : World :=
  match inputs with
  | [] => w
  | i :: rest => run rev rest (step rev i w)
  end.

(** *** Reading the trace *)

Definition emittedMessages (tr : list Event) : list ChatMessage :=
  flat_map (fun e => match e with Emitted (PMessage m) => [m] | _ => [] end) tr.

Definition emittedVulnerabilities (tr : list Event) : list Vulnerability :=
  flat_map (fun e => match e with Emitted (PVulnerability v) => [v] | _ => [] end) tr.

Definition emittedStatuses (tr : list Event) : list StatusDelta :=
  flat_map (fun e => match e with Emitted (PStatus s) => [s] | _ => [] end) tr.

(** The subscribers called, with what they were called with, in call order. *)
Definition deliveries (tr : list Event) : list (nat * Payload) :=
  flat_map (fun e => match e with Delivered n p => [(n, p)] | _ => [] end) tr.

(** The commands [executeCommand] announced. *)
Definition executedCommands (tr : list Event) : list string :=
  flat_map (fun m =>
    match type (msg_init m), metadata (msg_init m) with
    | command, Some md =>
        match meta_command md with Some c => [c] | None => [] end
    | _, _ => []
    end) (emittedMessages tr).

Definition isAssistant (m : ChatMessage) : bool :=
  match sender (msg_init m) with assistant => true | _ => false end.

Definition isCompletion (m : ChatMessage) : bool :=
  match content (msg_init m) with
  | JString s => String.eqb s "Automatic scan completed."
  | _ => false
  end.

Definition isScanningFalse (s : StatusDelta) : bool :=
  match scanning s with Some false => true | _ => false end.

Definition scheduledTimers (w : World) : nat :=
  List.length (filter timer_active (timers w)).

(** No registered callback ever throws. *)
Definition quiet (w : World) : Prop :=
  (forall s m, In s (onMessage_listeners w) -> sub_call s m = None) /\
  (forall s v, In s (onVulnerabilityFound_listeners w) -> sub_call s v = None) /\
  (forall s d, In s (onStatusChange_listeners w) -> sub_call s d = None).

(** No registered status callback ever throws; the others may. *)
Definition statusQuiet (w : World) : Prop :=
  forall s d, In s (onStatusChange_listeners w) -> sub_call s d = None.

(** ** Replies with fenced code blocks

    What a reply with N fenced blocks is, to state what extraction does on
    one: text, then a block, then text, and so on.  A block is an opening
    fence, an optional tag, a body and a closing fence; the body is all
    that stands between the tag and the closing fence, line breaks
    included. *)

Inductive Tag :=
| Untagged
| Bash
| Shell
| Lang (word : string).

Record Block := {
  tag : Tag;
  body : string
}.

Definition tagText (t : Tag) : string :=
  match t with
  | Untagged => EmptyString
  | Bash => "bash"
  | Shell => "shell"
  | Lang word => word
  end.

Definition renderBlock (b : Block) : string :=
  fence ++ tagText (tag b) ++ body b ++ fence.

Fixpoint render (segments : list (string * Block)) (tail : string) : string :=
  match segments with
  | [] => tail
  | (before, b) :: rest => before ++ renderBlock b ++ render rest tail
  end.

(** The first fence of [s ++ fence] is the appended one: [s] holds no
    fence and does not end in a backtick. *)
Definition fenceFree (s : string) : Prop :=
  findFence (s ++ fence) = Some (String.length s).

Definition startsBlank (s : string) : bool :=
  match s with
  | EmptyString => true
  | String c _ => isWhiteSpace c
  end.

Fixpoint isWord (s : string) : bool :=
  match s with
  | EmptyString => true
  | String c s' => negb (isWhiteSpace c) && negb (Ascii.eqb c backtick) && isWord s'
  end.

(** A block that reads in one way only: its closing fence is the first
    fence after the opening one; without a tag, the body does not begin
    with a word that would read as a tag. *)
Definition shellBlock (b : Block) : Prop :=
  fenceFree (body b) /\
  match tag b with
  | Untagged =>
      startsWith "bash" (body b) = false /\ startsWith "shell" (body b) = false
  | Bash | Shell => True
  | Lang _ => False
  end.

(** A block tagged with another language word: the word is not empty,
    holds neither blanks nor backticks, and a blank (or nothing) follows. *)
Definition langBlock (word : string) (b : Block) : Prop :=
  tag b = Lang word /\
  word <> EmptyString /\ isWord word = true /\
  startsBlank (body b) = true /\
  fenceFree (body b).

(** What the text after the opening fence is, for a block of either kind,
    once the tag the regex knows has been set apart. *)
Definition candidate (b : Block) : string :=
  match tag b with
  | Lang word => word ++ body b
  | _ => body b
  end.

(** The blocks the theorems on extraction speak about. *)
Definition readable (b : Block) : Prop :=
  shellBlock b \/
  exists word,
    langBlock word b /\
    startsWith "bash" word = false /\ startsWith "shell" word = false.

Definition wellFenced (segments : list (string * Block)) (tail : string) : Prop :=
  Forall (fun sb => fenceFree (fst sb) /\ readable (snd sb)) segments /\
  findFence tail = None.

(** What a case-insensitive mention of [keyword] in [response] is. *)
Definition mentions (response keyword : string) : Prop :=
  exists before middle rest,
    response = before ++ middle ++ rest /\ toLowerCase middle = keyword.

(** [l] picks entries of [vocabulary], in the order of [vocabulary]. *)
Inductive InOrder {A} : list A -> list A -> Prop :=
| InOrder_nil : InOrder [] []
| InOrder_skip x l v : InOrder l v -> InOrder l (x :: v)
| InOrder_take x l v : InOrder l v -> InOrder (x :: l) (x :: v).

(** ** Vocabulary of the statements on emission *)

(** The calls of the callbacks [listeners], in list order, with [x]. *)
Definition deliveredTo {T} (wrap : T -> Payload) (listeners : list (Subscriber T)) (x : T)
  : list Event :=
  map (fun s => Delivered (sub_name s) (wrap x)) listeners.

Definition logAll (es : list Event) (w : World) : World :=
  {| config := config w;
     onMessage_listeners := onMessage_listeners w;
     onVulnerabilityFound_listeners := onVulnerabilityFound_listeners w;
     onStatusChange_listeners := onStatusChange_listeners w;
     scanInterval := scanInterval w;
     messageId := messageId w;
     timers := timers w;
     tasks := tasks w;
     now := now w;
     trace := (trace w ++ es)%list |}.

(** The records the three emitters build in world [w]. *)
Definition fullMessage (w : World) (message : MessageInit) : ChatMessage :=
  {| msg_id := ofNat (S (messageId w)); msg_timestamp := now w; msg_init := message |}.

Definition fullVulnerability (w : World) (v : VulnerabilityInit) : Vulnerability :=
  {| vuln_id := ofZ (now w); vuln_discoveredAt := now w; vuln_init := v |}.

(** What an emission of [x] to [listeners] does, seen from outside: the
    callbacks are called in registration order, and the first that throws
    is the last that is called. *)
Definition deliversInOrder {T} (wrap : T -> Payload) (listeners : list (Subscriber T))
  (x : T) (before : World) (outcome : Result unit * World) : Prop :=
  ((forall s, In s listeners -> sub_call s x = None) ->
   fst outcome = Ok tt /\
   trace (snd outcome)
   = (trace before ++ Emitted (wrap x) :: deliveredTo wrap listeners x)%list) /\
  (forall called s later e,
     listeners = (called ++ s :: later)%list ->
     (forall s', In s' called -> sub_call s' x = None) ->
     sub_call s x = Some e ->
     fst outcome = Throw e /\
     trace (snd outcome)
     = (trace before ++ Emitted (wrap x) :: deliveredTo wrap (called ++ [s]) x)%list).

(** [w'] is [w] but for the message counter and a longer trace. *)
Definition sameService (w w' : World) : Prop :=
  config w' = config w /\
  onMessage_listeners w' = onMessage_listeners w /\
  onVulnerabilityFound_listeners w' = onVulnerabilityFound_listeners w /\
  onStatusChange_listeners w' = onStatusChange_listeners w /\
  scanInterval w' = scanInterval w /\
  timers w' = timers w /\
  tasks w' = tasks w /\
  now w' = now w.

(** [m] returns [a] from [w], having appended [es] to the trace and
    touched nothing else but the message counter. *)
Definition yields {A} (m : M A) (w : World) (a : A) (es : list Event) (w' : World)
  : Prop :=
  m w = (Ok a, w') /\ sameService w w' /\ trace w' = (trace w ++ es)%list.

(** Events that are no command announcement, no status and no completion
    message. *)
Definition silent (es : list Event) : Prop :=
  executedCommands es = [] /\
  emittedStatuses es = [] /\
  filter isCompletion (emittedMessages es) = [].

(** Events among which no message comes from the assistant. *)
Definition fromSystem (es : list Event) : Prop :=
  filter isAssistant (emittedMessages es) = [].

(** What the analysis of a command result adds to the trace. *)
Definition background (es : list Event) : Prop := silent es /\ fromSystem es.

(** Every result of [k] leaves at least [n] code units behind it. *)
Definition consumes (n : nat) (k : @Cont (string * string)) : Prop :=
  forall s cap rest, k s = Some (cap, rest) -> String.length rest + n <= String.length s.

(** A request the endpoint did not answer with status 200. *)
Definition failed (reply : PostOutcome) : Prop :=
  match reply with
  | Resolved status _ => status <> 200%Z
  | Rejected _ => True
  end.

(** What the [catch] of [testConnection] receives for a failed request. *)
Definition caughtOf (reply : PostOutcome) : JSError :=
  match reply with
  | Resolved _ _ => Error "LLM connection failed"
  | Rejected e => e
  end.

(** ** Vocabulary of the statements on the scan *)

(** The inputs of ticks that do not overlap: timer [tid] fires, the
    request of the tick settles, its simulated execution ends, and only
    then does the timer fire again.  Ticks take the task slots from [k]
    on, one reply each. *)
Fixpoint sequentialTicks (tid k : nat) (replies : list PostOutcome) : list Input :=
  match replies with
  | [] => []
  | reply :: rest =>
      TimerFires tid :: PostSettles k reply :: LatencyElapses k
        :: sequentialTicks tid (S k) rest
  end.

(** World [w] is [w0] some ticks into the scan of timer [tid]: same
    configuration, callbacks and clock, the handle of [tid] stored, its
    closure at command [j], and [k] task slots taken. *)
Definition midScan (w0 : World) (tid j k : nat) (w : World) : Prop :=
  config w = config w0 /\
  onMessage_listeners w = onMessage_listeners w0 /\
  onVulnerabilityFound_listeners w = onVulnerabilityFound_listeners w0 /\
  onStatusChange_listeners w = onStatusChange_listeners w0 /\
  now w = now w0 /\
  scanInterval w = Some tid /\
  nth_error (timers w) tid = Some {| timer_active := true; commandIndex := j |} /\
  List.length (tasks w) = k.

(** Every scheduled timer is the one whose handle the service holds. *)
Definition noStrayTimer (w : World) : Prop :=
  forall i t,
    nth_error (timers w) i = Some t -> timer_active t = true -> scanInterval w = Some i.

(** [w'] has the timers of [w], each scheduled or not as in [w], and the
    same stored handle. *)
Definition sameTimers (w w' : World) : Prop :=
  map timer_active (timers w') = map timer_active (timers w) /\
  scanInterval w' = scanInterval w.

(** A computation that neither schedules nor clears a timer, and leaves
    the stored handle alone, whether it returns or throws. *)
Definition keepsTimers {A} (m : M A) : Prop :=
  forall w, sameTimers w (snd (m w)).

(** In the run of [inputs] from [w], [startAutomaticScan] is only called
    when the service holds no timer handle. *)
Fixpoint neverRestarted (rev : Revision) (inputs : list Input) (w : World) : Prop :=
  match inputs with
  | [] => True
  | i :: rest =>
      (i = StartScan -> scanInterval w = None) /\ neverRestarted rev rest (step rev i w)
  end.

Definition refused : JSError :=
  {| err_message := "connect ECONNREFUSED 127.0.0.1:11434";
     err_code := Some "ECONNREFUSED";
     err_response := None |}.

(** A body whose message has no [content]. *)
Definition contentMissing : JSValue :=
  JObject [("choices", JArray [JObject [("message", JObject [("role", JString "assistant")])]])].

(** A well-formed body. *)
Definition wellFormed : JSValue :=
  JObject [("choices",
            JArray [JObject [("message",
                              JObject [("role", JString "assistant");
                                       ("content", JString "Nothing to report.")])]])].

(** ** Worlds to evaluate on *)

Definition demoConfiguration : Configuration :=
  {| llm := {| model := "gemma2:2b";
               api_url := "http://localhost:11434";
               api_key := "sk-no-key-needed";
               context_size := 16385;
               api_path := "/v1/chat/completions";
               api_timeout := 240;
               api_backoff := 60;
               api_retries := 3 |};
     connection := {| host := "10.0.0.5";
                      hostname := "target";
                      port := 22;
                      username := "user";
                      password := "hunter2";
                      keyfilename := EmptyString |} |}.

(** A callback that returns, and one that throws [e]. *)
Definition recorder {T} (name : nat) : Subscriber T :=
  {| sub_name := name; sub_call := fun _ => None |}.

Definition thrower {T} (name : nat) (e : JSError) : Subscriber T :=
  {| sub_name := name; sub_call := fun _ => Some e |}.

(** Configured, with no callback registered. *)
Definition bareWorld : World :=
  snd (onConfigurationUpdate demoConfiguration (initial 1700000000000)).

(** Configured, with one callback per channel, as the application sets
    the service up. *)
Definition demoWorld : World :=
  snd ((onMessage (recorder 1) ;;
        onVulnerabilityFound (recorder 2) ;;
        onStatusChange (recorder 3)) bareWorld).

(** Configured, with a message callback that throws registered before one
    that returns. *)
Definition faultyWorld : World :=
  snd ((onMessage (thrower 1 (Error "render failed")) ;;
        onMessage (recorder 2)) bareWorld).

(** Configured, with a message callback that throws and a status
    callback that returns. *)
Definition statusOnlyWorld : World :=
  snd (onStatusChange (recorder 3) faultyWorld).

(** Configured as [demoWorld], with a second vulnerability callback that
    throws. *)
Definition brokenDashboardWorld : World :=
  snd (onVulnerabilityFound (thrower 9 (Error "dashboard failed")) demoWorld).

(** A body whose content is an array that holds a fenced command and an
    object with an own property [toString]: converting it to a string
    throws. *)
Definition unconvertible : JSValue :=
  JObject [("choices",
            JArray [JObject [("message",
                              JObject [("content",
                                        JArray [JString "```id```";
                                                JObject [("toString", JNumber "1")]])])]])].

(** A reply that arrives after the next tick has fired. *)
Definition lateReply : PostOutcome := Resolved 200 wellFormed.

(** Timer 0 fires a second time while the first tick still waits for its
    reply; from then on no two ticks overlap, and the scan runs to its
    end without any call of [stopScan]. *)
Definition overlappingScan : list Input :=
  ([ StartScan;
     TimerFires 0; TimerFires 0;
     PostSettles 0 lateReply; PostSettles 1 lateReply;
     LatencyElapses 0; LatencyElapses 1 ]
     ++ sequentialTicks 0 2 (repeat lateReply 8)
     ++ [TimerFires 0])%list.

(** * The application around the service *)

(** ** The status bar (StatusBar.tsx) *)

(** A time value: what [getTime()] gives for a date that [new Date()]
    gave, an integer at most 8.64e15 milliseconds from the epoch. *)
Definition timeValue (t : Z) : Prop := (Z.abs t <= 8640000000000000)%Z.

(** The double nearest to an integer of magnitude below 2^54, ties to
    even: up to 2^53 every integer is a double, above it every second
    one, and of two even neighbours the multiple of 4 has the even
    significand.  The difference of two time values is such an integer
    (at most 1.728e16), and need not be a double. *)
Definition toDouble (x : Z) : Z :=
  if (Z.abs x <=? 9007199254740992)%Z then x
  else match (x mod 4)%Z with
       | 1%Z => (x - 1)%Z
       | 3%Z => (x + 1)%Z
       | _ => x
       end.

(** [formatLastScan(date)], with [clock] what [new Date().getTime()] reads
    when it runs.  [date] is the [lastScan] of the status: [null], or a
    date that [new Date()] gave.

    The numbers are doubles.  The subtraction rounds ([toDouble]).  The
    quotients are rounded too, but not past an integer: [diff] is an
    integer below 2^53, or an even one below 2^54, so a quotient by 60000
    that is no integer lies at least 1/60000 (2/60000) from the next one,
    more than the half unit in the last place of a double below 2^38
    (2^39), which is 2^-16 (2^-15); the quotients by 60 and by 24 are
    smaller still.  So [Math.floor] of each quotient is the floor of the
    exact one, which [/] on [Z] is. *)
Definition formatLastScan (clock : Z) (date : option Z) : string :=
  match date with
  | None => "Never"
  | Some t =>
      let diff := toDouble (clock - t) in
      let minutes := (diff / 60000)%Z in
      if (minutes <? 1)%Z then "Just now"
      else if (minutes <? 60)%Z then ofZ minutes ++ "m ago"
      else
        let hours := (minutes / 60)%Z in
        if (hours <? 24)%Z then ofZ hours ++ "h ago"
        else
          let days := (hours / 24)%Z in
          ofZ days ++ "d ago"
  end.

(** ** The report (exportReport)

    The object [exportReport] serializes.  Its serialization and the
    download through the document are left out. *)

Record Summary := {
  total : nat;
  count_critical : nat;
  count_high : nat;
  count_medium : nat;
  count_low : nat
}.

Record Report := {
  generatedAt : string;
  target : option string;           (* [undefined] without a configuration *)
  report_vulnerabilities : list Vulnerability;
  summary : Summary
}.

Definition Severity_eqb (a b : Severity) : bool :=
  match a, b with
  | low, low | medium, medium | high, high | critical, critical => true
  | _, _ => false
  end.

(** [vulnerabilities.filter(v => v.severity === s).length] *)
Definition countSeverity (s : Severity) (vulnerabilities : list Vulnerability) : nat :=
  List.length
    (filter (fun v => Severity_eqb (severity (vuln_init v)) s) vulnerabilities).

(** [report], with [iso] what [new Date().toISOString()] gave. *)
Definition exportReport_report (iso : string) (vulnerabilities : list Vulnerability)
  (w : World) : Report :=
  {| generatedAt := iso;
     target := option_map (fun cfg => host (connection cfg)) (config w);
     report_vulnerabilities := vulnerabilities;
     summary :=
       {| total := List.length vulnerabilities;
          count_critical := countSeverity critical vulnerabilities;
          count_high := countSeverity high vulnerabilities;
          count_medium := countSeverity medium vulnerabilities;
          count_low := countSeverity low vulnerabilities |} |}.

(** ** The configuration panel (ConfigurationPanel.tsx) *)

Module ConfigurationPanel.

(** [!s.trim()] *)
Definition blank (s : string) : bool := String.eqb (trim s) EmptyString.

(** [errors[key] = message] on an object whose keys are kept in insertion
    order. *)
Fixpoint assign (key message : string) (errors : list (string * string))
  : list (string * string) :=
  match errors with
  | [] => [(key, message)]
  | (k, m) :: rest =>
      if String.eqb k key then (k, message) :: rest
      else (k, m) :: assign key message rest
  end.

Section Validation.
(** Whether [new URL(url)] returns: URL parsing is the platform's, and is
    left open. *)
Variable isValidUrl : string -> bool.

(** [validateConfiguration()]: the errors it stores with [setErrors], and
    what it returns. *)
Definition validateConfiguration (config : Configuration)
  : list (string * string) * bool :=
  let newErrors := [] in
  let newErrors :=
    if blank (model (llm config))
    then assign "llm.model" "Model is required" newErrors else newErrors in
  let newErrors :=
    if blank (api_url (llm config))
    then assign "llm.api_url" "API URL is required" newErrors
    else if negb (isValidUrl (api_url (llm config)))
    then assign "llm.api_url" "Please enter a valid URL" newErrors
    else newErrors in
  let newErrors :=
    if (context_size (llm config) <? 1000)%Z
    then assign "llm.context_size" "Context size must be at least 1000" newErrors
    else newErrors in
  let newErrors :=
    if (api_timeout (llm config) <? 10)%Z
    then assign "llm.api_timeout" "Timeout must be at least 10 seconds" newErrors
    else newErrors in
  let newErrors :=
    if blank (host (connection config))
    then assign "connection.host" "Host is required" newErrors else newErrors in
  let newErrors :=
    if blank (hostname (connection config))
    then assign "connection.hostname" "Hostname is required" newErrors else newErrors in
  let newErrors :=
    if blank (username (connection config))
    then assign "connection.username" "Username is required" newErrors else newErrors in
  let newErrors :=
    if (port (connection config) <? 1)%Z || (65535 <? port (connection config))%Z
    then assign "connection.port" "Port must be between 1 and 65535" newErrors
    else newErrors in
  let newErrors :=
    if blank (password (connection config)) && blank (keyfilename (connection config))
    then assign "connection.auth" "Either password or key file is required" newErrors
    else newErrors in
  (newErrors, List.length newErrors =? 0).

End Validation.
End ConfigurationPanel.

(** [isConfigured], as App.tsx passes it to the chat. *)
Definition isConfigured (configuration : Configuration) : bool :=
  negb (String.eqb (api_url (llm configuration)) EmptyString)
  && negb (String.eqb (host (connection configuration)) EmptyString).

(** ** The chat input (ChatInterface.tsx) *)

Module ChatInterface.

(** [handleSendMessage], given the text of the input field and whether a
    scan runs: what is passed to [onSendMessage], if it is called, and the
    text the field holds afterwards. *)
Definition handleSendMessage (inputMessage : string) (scanning : bool)
  : option string * string :=
  if negb (String.eqb (trim inputMessage) EmptyString) && negb scanning
  then (Some (trim inputMessage), EmptyString)
  else (None, inputMessage).

(** The prompts of the three buttons shown while the chat is empty. *)
Definition quickPrompts : list string :=
  [ "Scan the target system for vulnerabilities";
    "Check for privilege escalation opportunities";
    "Enumerate system information" ].

End ChatInterface.

(** ** The application (App.tsx)

    The state of [App] and its handlers.  The three callbacks the effect
    registers only update that state, so the service sees callbacks that
    return; the state they lead to is read back from the calls the trace
    records, in call order. *)

Module App.

Record SystemStatus := {
  status_connected : JSValue;
  status_scanning : bool;
  status_lastScan : option Z;
  vulnerabilitiesFound : nat
}.

Record State := {
  configuration : Configuration;
  messages : list ChatMessage;
  vulnerabilities : list Vulnerability;
  systemStatus : SystemStatus
}.

Definition initialConfiguration : Configuration :=
  {| llm := {| model := "gemma2:2b";
               api_url := EmptyString;
               api_key := "sk-no-key-needed";
               context_size := 16385;
               api_path := "/v1/chat/completions";
               api_timeout := 240;
               api_backoff := 60;
               api_retries := 3 |};
     connection := {| host := EmptyString;
                      hostname := EmptyString;
                      port := 22;
                      username := EmptyString;
                      password := EmptyString;
                      keyfilename := EmptyString |} |}.

Definition initialState : State :=
  {| configuration := initialConfiguration;
     messages := [];
     vulnerabilities := [];
     systemStatus := {| status_connected := JBool false;
                        status_scanning := false;
                        status_lastScan := None;
                        vulnerabilitiesFound := 0 |} |}.

Definition setConfiguration (c : Configuration) (st : State) : State :=
  {| configuration := c;
     messages := messages st;
     vulnerabilities := vulnerabilities st;
     systemStatus := systemStatus st |}.

Definition setMessages (f : list ChatMessage -> list ChatMessage) (st : State) : State :=
  {| configuration := configuration st;
     messages := f (messages st);
     vulnerabilities := vulnerabilities st;
     systemStatus := systemStatus st |}.

Definition setVulnerabilities (f : list Vulnerability -> list Vulnerability) (st : State)
  : State :=
  {| configuration := configuration st;
     messages := messages st;
     vulnerabilities := f (vulnerabilities st);
     systemStatus := systemStatus st |}.

Definition setSystemStatus (f : SystemStatus -> SystemStatus) (st : State) : State :=
  {| configuration := configuration st;
     messages := messages st;
     vulnerabilities := vulnerabilities st;
     systemStatus := f (systemStatus st) |}.

(** [{ ...prev, connected: v }], [{ ...prev, scanning: b }] *)
Definition withConnected (v : JSValue) (prev : SystemStatus) : SystemStatus :=
  {| status_connected := v;
     status_scanning := status_scanning prev;
     status_lastScan := status_lastScan prev;
     vulnerabilitiesFound := vulnerabilitiesFound prev |}.

Definition withScanning (b : bool) (prev : SystemStatus) : SystemStatus :=
  {| status_connected := status_connected prev;
     status_scanning := b;
     status_lastScan := status_lastScan prev;
     vulnerabilitiesFound := vulnerabilitiesFound prev |}.

(** [{ ...prev, ...status }] *)
Definition merge (status : StatusDelta) (prev : SystemStatus) : SystemStatus :=
  {| status_connected :=
       match connected status with Some v => v | None => status_connected prev end;
     status_scanning :=
       match scanning status with Some b => b | None => status_scanning prev end;
     status_lastScan :=
       match lastScan status with Some t => Some t | None => status_lastScan prev end;
     vulnerabilitiesFound := vulnerabilitiesFound prev |}.

(** [{ ...prev, vulnerabilitiesFound: prev.vulnerabilitiesFound + 1 }] *)
Definition countVulnerability (prev : SystemStatus) : SystemStatus :=
  {| status_connected := status_connected prev;
     status_scanning := status_scanning prev;
     status_lastScan := status_lastScan prev;
     vulnerabilitiesFound := vulnerabilitiesFound prev + 1 |}.

(** What one call of a registered callback does to the state. *)
Definition receive (st : State) (call : nat * Payload) : State :=
  match snd call with
  | PMessage message => setMessages (fun prev => prev ++ [message])%list st
  | PVulnerability v =>
      setSystemStatus countVulnerability
        (setVulnerabilities (fun prev => prev ++ [v])%list st)
  | PStatus status => setSystemStatus (merge status) st
  end.

Definition replay (es : list Event) (st : State) : State :=
  fold_left receive (deliveries es) st.

(** What the service appended to the trace between [w] and [w']. *)
Definition since (w w' : World) : list Event :=
  skipn (List.length (trace w)) (trace w').

(** The body of the effect: it has no cleanup, and the service has no
    way to remove a callback. *)
Definition effect (c : Configuration) : M unit :=
  onConfigurationUpdate c ;;
  onMessage (recorder 1) ;;
  onVulnerabilityFound (recorder 2) ;;
  onStatusChange (recorder 3).

Definition handleConfigurationSave (newConfig : Configuration) (a : World * State)
  : World * State :=
  let (w, st) := a in
  (snd (onConfigurationUpdate newConfig w), setConfiguration newConfig st).

(** An edit in the configuration panel.  [updateConfig] copies the
    configuration one level deep and writes into the [llm] or the
    [connection] object of the copy, which are those of the object [App]
    and the service hold (see [Edit.updateConfig]): both read the edited
    values from then on, and no method of the service is called. *)
Definition edited (newConfig : Configuration) (a : World * State) : World * State :=
  let (w, st) := a in
  (set_config (Some newConfig) w, setConfiguration newConfig st).

Definition userMessage (w : World) (prompt : string) : ChatMessage :=
  {| msg_id := ofZ (now w);
     msg_timestamp := now w;
     msg_init := {| content := JString prompt; sender := user; type := text;
                    metadata := None |} |}.

Definition errorMessage (w : World) (e : JSError) : ChatMessage :=
  {| msg_id := ofZ (now w + 1);
     msg_timestamp := now w;
     msg_init := {| content := JString ("Error: " ++ err_message e);
                    sender := system; type := error; metadata := None |} |}.

(** [handleSendMessage].  The user message is stamped with what the clock
    reads when the handler starts.  The call of the service is awaited:
    once it has returned or thrown the clock reads [later], whatever that
    is, and the error message is stamped with it.  The readings of one
    synchronous stretch ([Date.now()] for the id, [new Date()] for the
    timestamp) are taken to agree, as in the service. *)
Definition handleSendMessage (prompt : string) (reply : PostOutcome) (later : Z)
  (a : World * State) : World * State :=
  let (w, st) := a in
  let st := setMessages (fun prev => prev ++ [userMessage w prompt])%list st in
  let (r, w') := sendMessage prompt reply w in
  let st := replay (since w w') st in
  let w'' := set_now later w' in
  match r with
  | Ok _ => (w'', st)
  | Throw e => (w'', setMessages (fun prev => prev ++ [errorMessage w'' e])%list st)
  end.

Definition handleStartScan (a : World * State) : World * State :=
  let (w, st) := a in
  let st := setSystemStatus (withScanning true) st in
  let (r, w') := startAutomaticScan w in
  let st := replay (since w w') st in
  match r with
  | Ok _ => (w', st)
  | Throw e =>
      (log (ConsoleError "Failed to start scan:" e) w',
       setSystemStatus (withScanning false) st)
  end.

Definition handleStopScan (a : World * State) : World * State :=
  let (w, st) := a in
  let (r, w') := stopScan w in
  let st := replay (since w w') st in
  match r with
  | Ok _ => (w', setSystemStatus (withScanning false) st)
  | Throw e => (log (ConsoleError "Failed to stop scan:" e) w', st)
  end.

(** The [onTestConnection] given to the configuration panel. *)
Definition onTestConnection (rev : Revision) (reply : PostOutcome) (a : World * State)
  : Result JSValue * (World * State) :=
  let (w, st) := a in
  let (r, w') := testConnection rev reply w in
  let st := replay (since w w') st in
  match r with
  | Ok v => (Ok v, (w', setSystemStatus (withConnected v) st))
  | Throw e => (Throw e, (w', setSystemStatus (withConnected (JBool false)) st))
  end.

(** What the user and the runtime do.  A button acts when it is rendered
    and enabled; the tab that is shown and the checks of the panel only
    restrict this further.  [Save] passes an object [App] does not hold
    yet, so the effect runs again; [SaveAgain] passes the one it holds,
    and the effect does not run.  The runtime fires timers, settles
    requests, ends simulated executions and advances the clock; the
    methods of the service are only called by the handlers. *)
Inductive Action :=
| Save (newConfig : Configuration)
| SaveAgain
| EditField (newConfig : Configuration)
| TestConnection (reply : PostOutcome)
| PressSend (inputMessage : string) (reply : PostOutcome) (later : Z)
| QuickPrompt (i : nat) (reply : PostOutcome) (later : Z)
| ClickAutoScan
| ClickStop
| ClearVulnerabilities
| Runtime (i : Input).

(** A step of the service's event loop, seen from the application. *)
Definition runtime (rev : Revision) (i : Input) (a : World * State) : World * State :=
  let (w, st) := a in
  match i with
  | Configure _ | StartScan | StopScan => a
  | _ => let w' := step rev i w in (w', replay (since w w') st)
  end.

Definition act (rev : Revision) (action : Action) (a : World * State) : World * State :=
  let (w, st) := a in
  let chat := isConfigured (configuration st) in
  let scanning := status_scanning (systemStatus st) in
  match action with
  | Save newConfig =>
      let (w', st') := handleConfigurationSave newConfig a in
      (snd (effect newConfig w'), st')
  | SaveAgain => handleConfigurationSave (configuration st) a
  | EditField newConfig => edited newConfig a
  | TestConnection reply => snd (onTestConnection rev reply a)
  | PressSend inputMessage reply later =>
      match chat, ChatInterface.handleSendMessage inputMessage scanning with
      | true, (Some prompt, _) => handleSendMessage prompt reply later a
      | _, _ => a
      end
  | QuickPrompt i reply later =>
      match chat, messages st, nth_error ChatInterface.quickPrompts i with
      | true, [], Some prompt => handleSendMessage prompt reply later a
      | _, _, _ => a
      end
  | ClickAutoScan =>
      if chat && negb scanning && JS.truthy (status_connected (systemStatus st))
      then handleStartScan a else a
  | ClickStop => if chat && scanning then handleStopScan a else a
  | ClearVulnerabilities => (w, setVulnerabilities (fun _ => []) st)
  | Runtime i => runtime rev i a
  end.

Fixpoint session (rev : Revision) (actions : list Action) (a : World * State)
  : World * State :=
  match actions with
  | [] => a
  | action :: rest => session rev rest (act rev action a)
  end.

(** The application once mounted: the effect has run once, on the initial
    configuration. *)
Definition mounted (t : Z) : World * State :=
  (snd (effect initialConfiguration (initial t)), initialState).

End App.

(** ** Vocabulary of the statements on every run

    What the methods do to the world, whatever the callbacks do: a method
    is a sequence of the moves below. *)

(** The callbacks [forEach] calls: those before the first that throws,
    and that one. *)
Fixpoint calledOf {T} (listeners : list (Subscriber T)) (x : T) : list (Subscriber T) :=
  match listeners with
  | [] => []
  | s :: rest =>
      s :: match sub_call s x with
           | Some _ => []
           | None => calledOf rest x
           end
  end.

(** A message of type [command] announces a command among [allowed], and
    no message is sent in the name of the user. *)
Definition serviceMessage (allowed : string -> Prop) (message : MessageInit) : Prop :=
  sender message <> user /\
  (type message = command ->
   exists cmd, allowed cmd /\ metadata message
                              = Some {| meta_command := Some cmd;
                                        meta_exitCode := JUndefined |}).

(** The two kinds of finding: from the keyword scan of a reply, and from
    a rule of the catalog. *)
Definition serviceFinding (v : VulnerabilityInit) : Prop :=
  affectedComponent v <> EmptyString /\
  ((category v = "Analysis" /\ severity v = medium /\ List.length (evidence v) = 1) \/
   (category v = "Privilege Escalation" /\
    (severity v = high \/ severity v = critical) /\
    List.length (evidence v) = 2)).

(** What a payload may be, by its kind. *)
Definition servicePayload (allowed : string -> Prop) (p : Payload) : Prop :=
  match p with
  | PMessage m => serviceMessage allowed (msg_init m)
  | PVulnerability v => serviceFinding (vuln_init v)
  | PStatus _ => True
  end.

Section Advance.
Variable allowed : string -> Prop.
(** The statuses that may be emitted, given the world they are emitted
    in, and whether a timer handle may be stored. *)
Variable statusAllowed : World -> StatusDelta -> Prop.
Variable mayHold : Prop.
(** Whether the list of suspended ticks may change: the event loop
    changes it, a method does not. *)
Variable mayResume : Prop.

Inductive advance : World -> World -> Prop :=
| advance_refl w : advance w w
| advance_trans w1 w2 w3 : advance w1 w2 -> advance w2 w3 -> advance w1 w3
| advance_message w message :
    serviceMessage allowed message -> advance w (snd (emitMessage message w))
| advance_vulnerability w v :
    serviceFinding v -> advance w (snd (emitVulnerability v w))
| advance_status w status :
    statusAllowed w status -> advance w (snd (emitStatusChange status w))
| advance_console w label e : advance w (log (ConsoleError label e) w)
| advance_clear w handle : advance w (snd (clearInterval handle w))
| advance_forget w : advance w (set_scanInterval None w)
| advance_schedule w : advance w (snd (setInterval w))
| advance_hold w handle : mayHold -> advance w (set_scanInterval (Some handle) w)
| advance_increment w tid : advance w (snd (incrementCommandIndex tid w))
| advance_configure w cfg : advance w (set_config (Some cfg) w)
| advance_clock w t : advance w (set_now t w)
| advance_tasks w l : mayResume -> advance w (set_tasks l w).

(** A computation that advances the world, whether it returns or throws. *)
Definition advances {A} (m : M A) : Prop := forall w, advance w (snd (m w)).

End Advance.

Definition commandOf (t : Task) : string :=
  match t with AwaitPost _ cmd | AwaitLatency _ cmd => cmd end.

(** Every suspended tick holds a command of the scan. *)
Definition tasksOfTheScan (w : World) : Prop :=
  forall k t, nth_error (tasks w) k = Some (Some t) -> In (commandOf t) scanCommands.

(** The messages of [es] are numbered from [n] on. *)
Definition numberedFrom (n : nat) (es : list Event) : Prop :=
  map msg_id (emittedMessages es)
  = map ofNat (seq n (List.length (emittedMessages es))).

(** From [w] to [w'] the trace has grown by messages numbered from the
    counter of [w] on, no two with the same id. *)
Definition countsUp (w w' : World) : Prop :=
  exists es,
    trace w' = (trace w ++ es)%list /\
    numberedFrom (S (messageId w)) es /\
    NoDup (map msg_id (emittedMessages es)).

(** From [w] to [w'] the trace has grown by findings of the two kinds; a
    report exported from them counts none of low severity. *)
Definition findingsSince (w w' : World) : Prop :=
  exists es,
    trace w' = (trace w ++ es)%list /\
    Forall (fun v => serviceFinding (vuln_init v)) (emittedVulnerabilities es) /\
    forall iso w0,
      count_low (summary (exportReport_report iso (emittedVulnerabilities es) w0)) = 0.

(** The messages of a session come from the user, trimmed and not blank,
    or from the service. *)
Definition fromUserOrService (m : ChatMessage) : Prop :=
  sender (msg_init m) = user ->
  type (msg_init m) = text /\
  exists prompt,
    content (msg_init m) = JString prompt /\ prompt <> EmptyString /\ trim prompt = prompt.


(** What holds of the service and the application between two actions:
    the callbacks return, a configuration is set, no timer is scheduled
    but the one the service holds, and while it holds one the application
    shows a scan. *)
Definition servedByTheButtons (a : World * App.State) : Prop :=
  quiet (fst a) /\
  config (fst a) <> None /\
  noStrayTimer (fst a) /\
  (scanInterval (fst a) <> None ->
   App.status_scanning (App.systemStatus (snd a)) = true).

(** [piece] stands in [s] as it is. *)
Definition occursIn (piece s : string) : Prop :=
  exists before after, s = before ++ piece ++ after.

(** Every result of [k] is a capture that stands in the subject, before
    what is left of it. *)
Definition capturesWithin (k : @Cont (string * string)) : Prop :=
  forall s cap rest, k s = Some (cap, rest) ->
    exists before after, s = before ++ cap ++ after ++ rest.

(** Every result of [k] is the capture [cap0], with what is left of the
    subject. *)
Definition handsOver (cap0 : string) (k : @Cont (string * string)) : Prop :=
  forall s cap rest, k s = Some (cap, rest) -> cap = cap0 /\ exists after, s = after ++ rest.

(** A matcher that, having matched, also matches when text is added at
    the end; and one that, matching before [tail], matches without it. *)
Definition extends (k : @Cont unit) : Prop :=
  forall s t, k s = Some tt -> k (s ++ t) = Some tt.

Definition within (tail : string) (k : @Cont unit) : Prop :=
  forall s, k (s ++ tail) = Some tt -> k s = Some tt.

(** No code unit of [p] compares equal to [q] under [canon]. *)
Definition foreign (canon : ascii -> ascii) (q : ascii) (p : string) : bool :=
  forallb (fun a => negb (Ascii.eqb (canon a) (canon q))) (list_ascii_of_string p).

(** ** Editing a field of the panel (ConfigurationPanel.tsx, updateConfig)

    [updateConfig] copies the configuration object one level deep and
    then writes into an object the copy shares with the original.  To say
    so, objects live at addresses of a heap, and a property holds a
    primitive value or an address. *)

Module Edit.

Inductive Value :=
| VUndefined
| VNumber (n : Z)
| VString (s : string)
| VObject (address : nat).

(** The own properties of an object; only lookups read them, their order
    is not kept. *)
Definition Obj := list (string * Value).
Definition Heap := list Obj.

(** [path.split('.')] *)
Fixpoint split (path : string) : list string :=
  match path with
  | EmptyString => [EmptyString]
  | String c rest =>
      if Ascii.eqb c "."%char then EmptyString :: split rest
      else match split rest with
           | key :: keys => String c key :: keys
           | [] => [String c EmptyString]
           end
  end.

(** Where evaluation stands after a property access or a write.  The
    model follows the own properties of plain objects: an access that
    finds its property on a prototype, or on a primitive value, leaves it
    ([Beyond]). *)
Inductive Outcome (A : Type) :=
| Done (a : A)
| Threw (e : JSError)
| Beyond.
Arguments Done {A} a.
Arguments Threw {A} e.
Arguments Beyond {A}.

(** [current[key]] *)
Definition get (h : Heap) (current : Value) (key : string) : Outcome Value :=
  match current with
  | VUndefined => Threw TypeError
  | VNumber _ | VString _ => Beyond
  | VObject address =>
      match nth_error h address with
      | None => Beyond
      | Some o =>
          match assoc key o with
          | Some v => Done v
          | None =>
              if existsb (String.eqb key) objectPrototypeKeys then Beyond
              else Done VUndefined
          end
      end
  end.

(** An own property set in place, or added after the others. *)
Fixpoint setOwn (key : string) (v : Value) (o : Obj) : Obj :=
  match o with
  | [] => [(key, v)]
  | (k, x) :: rest =>
      if String.eqb k key then (k, v) :: rest else (k, x) :: setOwn key v rest
  end.

(** [current[key] = value], in strict code: a write to a property of a
    primitive value throws. *)
Definition set (h : Heap) (current : Value) (key : string) (v : Value) : Outcome Heap :=
  match current with
  | VUndefined | VNumber _ | VString _ => Threw TypeError
  | VObject address =>
      match nth_error h address with
      | None => Beyond
      | Some o =>
          if String.eqb key "__proto__" then Beyond
          else Done (updateAt address (setOwn key v) h)
      end
  end.

(** The loop [for (i = 0; i < keys.length - 1; i++) current = current[keys[i]]]
    and the write that follows it. *)
Fixpoint descend (h : Heap) (current : Value) (keys : list string) (v : Value)
  : Outcome Heap :=
  match keys with
  | [] => set h current "undefined" v
  | [key] => set h current key v
  | key :: rest =>
      match get h current key with
      | Done next => descend h next rest v
      | Threw e => Threw e
      | Beyond => Beyond
      end
  end.

(** [if (errors[path]) setErrors(...)]: the error shown for the field is
    removed. *)
Definition clearError (path : string) (errors : list (string * string))
  : list (string * string) :=
  match assoc path errors with
  | Some message =>
      if String.eqb message EmptyString then errors
      else filter (fun e => negb (String.eqb (fst e) path)) errors
  | None => errors
  end.

(** [updateConfig(path, value)] with the state [config] at address
    [config]: the heap afterwards, the address given to [setConfig] and
    the errors. *)
Definition updateConfig (h : Heap) (config : nat) (errors : list (string * string))
  (path : string) (v : Value) : Outcome (Heap * nat * list (string * string)) :=
  match nth_error h config with
  | None => Beyond
  | Some o =>
      let newConfig := List.length h in          (* { ...config } *)
      match descend (h ++ [o])%list (VObject newConfig) (split path) v with
      | Done h' => Done (h', newConfig, clearError path errors)
      | Threw e => Threw e
      | Beyond => Beyond
      end
  end.

(** The loop of [InputField] that reads the value it shows:
    [for (const key of keys) value = value[key]]. *)
Fixpoint read (h : Heap) (current : Value) (keys : list string) : Outcome Value :=
  match keys with
  | [] => Done current
  | key :: rest =>
      match get h current key with
      | Done next => read h next rest
      | Threw e => Threw e
      | Beyond => Beyond
      end
  end.

(** No dot in [s]. *)
Fixpoint plain (s : string) : bool :=
  match s with
  | EmptyString => true
  | String c rest => negb (Ascii.eqb c "."%char) && plain rest
  end.

End Edit.

(** ** More worlds to evaluate on *)

(** A well-formed body whose reply holds one command. *)
Definition commandReply : JSValue :=
  JObject [("choices",
            JArray [JObject [("message",
                              JObject [("role", JString "assistant");
                                       ("content", JString "try ```id``` now")])]])].

(** The scan of [demoWorld] once its first tick has sent its request. *)
Definition firstTickWaiting : World := run Rev2 [StartScan; TimerFires 0] demoWorld.

(** * Properties *)

#[local] Arguments Ascii.eqb : simpl never.


(** ** Strings *)

Lemma append_assoc (a b c : string) : (a ++ b) ++ c = a ++ (b ++ c).
Proof. induction a as [|x a IH]; simpl; [reflexivity | now rewrite IH]. Qed.

Lemma length_append (a b : string) :
  String.length (a ++ b) = String.length a + String.length b.
Proof. induction a as [|x a IH]; simpl; [reflexivity | now rewrite IH]. Qed.

Lemma backtick_not_blank : isWhiteSpace backtick = false.
Proof. reflexivity. Qed.

Lemma trimEnd_unfold a s :
  trimEnd (String a s) =
  match trimEnd s with
  | EmptyString => if isWhiteSpace a then EmptyString else String a EmptyString
  | t => String a t
  end.
Proof. reflexivity. Qed.

Lemma trimEnd_cons a s :
  trimEnd (String a s) <> EmptyString -> trimEnd (String a s) = String a (trimEnd s).
Proof.
  simpl. destruct (trimEnd s) as [|b t]; [|reflexivity].
  destruct (isWhiteSpace a); [intros H; now elim H | reflexivity].
Qed.

Lemma trimEnd_blank a s :
  trimEnd (String a s) = EmptyString -> isWhiteSpace a = true /\ trimEnd s = EmptyString.
Proof.
  simpl. destruct (trimEnd s) as [|b t]; [|discriminate].
  destruct (isWhiteSpace a); [auto | discriminate].
Qed.

Lemma trimEnd_idem s : trimEnd (trimEnd s) = trimEnd s.
Proof.
  induction s as [|a s IH]; [reflexivity|].
  destruct (string_dec (trimEnd (String a s)) EmptyString) as [E|N].
  - now rewrite E.
  - rewrite (trimEnd_cons _ _ N). simpl. rewrite IH.
    destruct (trimEnd s) as [|b t] eqn:E; [|reflexivity].
    simpl in N. rewrite E in N. destruct (isWhiteSpace a); [now elim N | reflexivity].
Qed.

Lemma trimStart_idem s : trimStart (trimStart s) = trimStart s.
Proof.
  induction s as [|a s IH]; [reflexivity|]. simpl.
  destruct (isWhiteSpace a) eqn:E; [exact IH | simpl; now rewrite E].
Qed.

(** Trimming the end keeps a first code unit that is not blank. *)
Lemma trimStart_trimEnd s : trimStart s = s -> trimStart (trimEnd s) = trimEnd s.
Proof.
  destruct s as [|a s]; [reflexivity|]. intros H.
  assert (Ha : isWhiteSpace a = false).
  { simpl in H. destruct (isWhiteSpace a) eqn:E; [|reflexivity].
    exfalso. assert (L : String.length (trimStart s) <= String.length s).
    { clear. induction s as [|b s IH]; simpl; [lia|].
      destruct (isWhiteSpace b); simpl; lia. }
    rewrite H in L. simpl in L. lia. }
  simpl. destruct (trimEnd s) as [|b t]; rewrite ?Ha; simpl; rewrite ?Ha; reflexivity.
Qed.

Lemma trim_idem s : trim (trim s) = trim s.
Proof.
  unfold trim. rewrite (trimStart_trimEnd (trimStart s) (trimStart_idem s)).
  apply trimEnd_idem.
Qed.

Lemma startsWith_fence_ext s x :
  startsWith fence (s ++ fence ++ x) = startsWith fence (s ++ fence).
Proof. destruct s as [|a [|b [|c s]]]; reflexivity. Qed.

Lemma fenceFree_cons a s :
  fenceFree (String a s) ->
  startsWith fence (String a s ++ fence) = false /\ fenceFree s.
Proof.
  unfold fenceFree. cbn [append String.length findFence].
  destruct (startsWith fence (String a (s ++ fence))); [discriminate|].
  destruct (findFence (s ++ fence)) as [n|]; simpl; [|discriminate].
  intros H. injection H as ->. auto.
Qed.

Lemma fenceFree_trimStart s : fenceFree s -> fenceFree (trimStart s).
Proof.
  induction s as [|a s IH]; intros H; [exact H|]. simpl.
  destruct (isWhiteSpace a); [apply IH; now apply fenceFree_cons in H | exact H].
Qed.

Lemma trimStart_append s x : trimStart (s ++ fence ++ x) = trimStart s ++ fence ++ x.
Proof.
  induction s as [|a s IH]; [reflexivity|]. simpl.
  destruct (isWhiteSpace a); [exact IH | reflexivity].
Qed.

(** A word of the pattern does not start where a blank or a backtick is. *)
Lemma startsWith_past_body t s x :
  t <> EmptyString -> isWord t = true ->
  startsWith t s = false -> startsWith t (s ++ fence ++ x) = false.
Proof.
  revert s. induction t as [|a t IH]; intros s Ht W H; [now elim Ht|].
  cbn [isWord] in W. apply andb_true_iff in W as [W1 W2].
  apply andb_true_iff in W1 as [_ Wb]. apply negb_true_iff in Wb.
  unfold backtick in Wb.
  destruct s as [|c s].
  - cbn. now rewrite Wb.
  - cbn in *. destruct (Ascii.eqb a c); [|reflexivity]. simpl in *.
    destruct t as [|a' t]; [discriminate|]. apply IH; [discriminate | exact W2 | exact H].
Qed.

Lemma startsWith_word_blank t w b :
  isWord t = true -> startsBlank b = true ->
  startsWith t w = false -> startsWith t (w ++ b) = false.
Proof.
  revert w. induction t as [|a t IH]; intros w W B H; [discriminate|].
  cbn [isWord] in W. apply andb_true_iff in W as [W1 W2].
  apply andb_true_iff in W1 as [Wa _]. apply negb_true_iff in Wa.
  destruct w as [|c w].
  - cbn. destruct b as [|c b]; [reflexivity|]. cbn in B.
    destruct (Ascii.eqb_spec a c) as [->|]; [congruence | reflexivity].
  - cbn in *. destruct (Ascii.eqb a c); [|reflexivity]. simpl in *. now apply IH.
Qed.

Lemma fenceFree_word w s : isWord w = true -> fenceFree s -> fenceFree (w ++ s).
Proof.
  unfold fenceFree. induction w as [|a w IH]; intros W H; [exact H|].
  cbn [isWord] in W. apply andb_true_iff in W as [W1 W2].
  apply andb_true_iff in W1 as [_ Wb]. apply negb_true_iff in Wb.
  unfold backtick in Wb.
  cbn [append String.length findFence]. rewrite (IH W2 H).
  cbn. rewrite Ascii.eqb_sym, Wb. reflexivity.
Qed.

Lemma trimStart_word w s : w <> EmptyString -> isWord w = true -> trimStart (w ++ s) = w ++ s.
Proof.
  destruct w as [|a w]; [now intros H; elim H|]. intros _ W. cbn in *.
  apply andb_true_iff in W as [W1 _]. apply andb_true_iff in W1 as [Wa _].
  apply negb_true_iff in Wa. now rewrite Wa.
Qed.

Lemma trimEnd_word w s : w <> EmptyString -> isWord w = true -> trimEnd (w ++ s) = w ++ trimEnd s.
Proof.
  induction w as [|a w IH]; [now intros H; elim H|]. intros _ W.
  cbn [isWord] in W. apply andb_true_iff in W as [W1 W2].
  apply andb_true_iff in W1 as [Wa _]. apply negb_true_iff in Wa.
  destruct w as [|b w].
  - cbn. rewrite Wa. now destruct (trimEnd s).
  - change (trimEnd (String a (String b w ++ s)) = String a (String b w ++ trimEnd s)).
    rewrite trimEnd_unfold, (IH ltac:(discriminate) W2). reflexivity.
Qed.

Lemma startsWith_iff p s : startsWith p s = true <-> exists rest, s = p ++ rest.
Proof.
  revert s. induction p as [|a p IH]; intros s; cbn.
  - split; [now exists s | reflexivity].
  - destruct s as [|b s].
    + split; [discriminate | now intros [rest H]].
    + rewrite andb_true_iff, IH. split.
      * intros [E [rest ->]]. apply Ascii.eqb_eq in E as ->. now exists rest.
      * intros [rest H]. injection H as -> ->. split; [apply Ascii.eqb_refl | now exists rest].
Qed.

(** ** The command regex *)

Section CommandRegex.
Context {R : Type}.
Implicit Types (k : @Cont R) (p s : string).

Lemma lit_append p k s : lit p k (p ++ s) = k s.
Proof.
  unfold lit. induction p as [|a p IH]; simpl; [reflexivity|].
  now rewrite Ascii.eqb_refl.
Qed.

Lemma lit_startsWith p k s : startsWith p s = false -> lit p k s = None.
Proof.
  unfold lit. revert s. induction p as [|a p IH]; intros s H; simpl in *.
  - discriminate.
  - destruct s as [|b s]; [reflexivity|].
    destruct (Ascii.eqb a b); simpl in H; [now apply IH | reflexivity].
Qed.

(** A greedy [\s*] whose rest succeeds after all the blanks stops there. *)
Lemma star_greedy k s r :
  k (trimStart s) = Some r -> star isWhiteSpace k s = Some r.
Proof.
  induction s as [|a s IH]; simpl; intros H; [exact H|].
  destruct (isWhiteSpace a); [now rewrite (IH H) | exact H].
Qed.

(** Before the closing fence, [\s*```] only matches where blanks alone
    are left. *)
Lemma star_fence_fails k s x :
  fenceFree s -> trimEnd s <> EmptyString ->
  star isWhiteSpace (lit fence k) (s ++ fence ++ x) = None.
Proof.
  induction s as [|a s IH]; intros F N; [now elim N|].
  destruct (fenceFree_cons _ _ F) as [F1 F2].
  assert (L : lit fence k (String a s ++ fence ++ x) = None).
  { apply lit_startsWith. now rewrite startsWith_fence_ext. }
  cbn [append star]. cbn [append] in L. rewrite L.
  destruct (isWhiteSpace a) eqn:E; [|reflexivity].
  rewrite IH; [reflexivity | exact F2 |].
  intros T. apply N. simpl. now rewrite T, E.
Qed.

Lemma lazyGroup_unfold (c : ascii -> bool) (k : string -> @Cont R) s :
  lazyGroup c k s =
  match k EmptyString s with
  | Some r => Some r
  | None =>
      match s with
      | String a s' => if c a then lazyGroup c (fun cap => k (String a cap)) s' else None
      | EmptyString => None
      end
  end.
Proof. destruct s; reflexivity. Qed.

Lemma trimEnd_blank_trimStart s : trimEnd s = EmptyString -> trimStart s = EmptyString.
Proof.
  induction s as [|a s IH]; intros T; [reflexivity|].
  apply trimEnd_blank in T as [E T]. simpl. rewrite E. now apply IH.
Qed.

End CommandRegex.

(** The lazy group stops at the first place from which blanks alone lead
    to the closing fence: it captures the text before the trailing
    blanks. *)
Lemma lazyGroup_body (f : string -> string) s x :
  fenceFree s ->
  lazyGroup dotAll
    (fun cap => star isWhiteSpace
                  (lit fence (fun rest => Some (f cap, rest)))) (s ++ fence ++ x)
  = Some (f (trimEnd s), x).
Proof.
  revert f. induction s as [|a s IH]; intros f F.
  - rewrite lazyGroup_unfold, (star_greedy _ _ (f EmptyString, x)); [reflexivity|].
    rewrite (trimStart_append EmptyString x).
    apply (lit_append fence (fun rest => Some (f EmptyString, rest))).
  - destruct (string_dec (trimEnd (String a s)) EmptyString) as [T|N].
    + rewrite T, lazyGroup_unfold.
      rewrite (star_greedy _ _ (f EmptyString, x)); [reflexivity|].
      rewrite trimStart_append, (trimEnd_blank_trimStart _ T).
      apply (lit_append fence (fun rest => Some (f EmptyString, rest))).
    + rewrite (trimEnd_cons _ _ N), lazyGroup_unfold.
      rewrite (star_fence_fails _ _ _ F N). cbn [append dotAll].
      apply (IH (fun cap => f (String a cap))). now apply fenceFree_cons in F.
Qed.

(** The part of the regex after the tag, on a body and its closing fence:
    the capture is the trimmed body. *)
Lemma body_captured s x :
  fenceFree s ->
  star isWhiteSpace
    (lazyGroup dotAll (fun cap =>
       star isWhiteSpace (lit fence (fun rest => Some (cap, rest)))))
    (s ++ fence ++ x)
  = Some (trim s, x).
Proof.
  intros F. apply star_greedy. rewrite trimStart_append.
  apply (lazyGroup_body (fun cap => cap)). now apply fenceFree_trimStart.
Qed.

Lemma commandRegex_untagged s x :
  fenceFree s -> startsWith "bash" s = false -> startsWith "shell" s = false ->
  commandRegex (fence ++ s ++ fence ++ x) = Some (trim s, x).
Proof.
  intros F B S. unfold commandRegex. rewrite (lit_append "```").
  unfold opt, alt.
  rewrite (lit_startsWith "bash"), (lit_startsWith "shell").
  - now apply body_captured.
  - now apply startsWith_past_body.
  - now apply startsWith_past_body.
Qed.

Lemma commandRegex_bash s x :
  fenceFree s -> commandRegex (fence ++ "bash" ++ s ++ fence ++ x) = Some (trim s, x).
Proof.
  intros F. unfold commandRegex. rewrite (lit_append "```").
  unfold opt, alt. rewrite (lit_append "bash"). now rewrite body_captured.
Qed.

Lemma commandRegex_shell s x :
  fenceFree s -> commandRegex (fence ++ "shell" ++ s ++ fence ++ x) = Some (trim s, x).
Proof.
  intros F. unfold commandRegex. rewrite (lit_append "```").
  unfold opt, alt. rewrite (lit_startsWith "bash"); [|reflexivity].
  rewrite (lit_append "shell"). now rewrite body_captured.
Qed.

Lemma commandRegex_needs_fence s : startsWith fence s = false -> commandRegex s = None.
Proof. intros H. unfold commandRegex. now apply lit_startsWith. Qed.

Lemma exec_skips s x :
  fenceFree s -> commandRegex_exec (s ++ fence ++ x) = commandRegex_exec (fence ++ x).
Proof.
  unfold commandRegex_exec. induction s as [|a s IH]; intros F; [reflexivity|].
  destruct (fenceFree_cons _ _ F) as [F1 F2].
  cbn [append search]. rewrite commandRegex_needs_fence.
  - now apply IH.
  - rewrite <- F1. apply (startsWith_fence_ext (String a s)).
Qed.

Lemma exec_none s : findFence s = None -> commandRegex_exec s = None.
Proof.
  unfold commandRegex_exec. induction s as [|a s IH]; intros H.
  - reflexivity.
  - cbn [findFence] in H. destruct (startsWith fence (String a s)) eqn:E; [discriminate|].
    cbn [search]. rewrite (commandRegex_needs_fence _ E). apply IH.
    now destruct (findFence s).
Qed.

Lemma commandRegex_block b x :
  readable b -> commandRegex (renderBlock b ++ x) = Some (trim (candidate b), x).
Proof.
  unfold renderBlock, candidate. rewrite !append_assoc.
  intros [[F T]|[w [[Tw [Nw [Ww [Bw F]]]] [Hb Hs]]]].
  - destruct (tag b); cbn [tagText].
    + destruct T. now apply commandRegex_untagged.
    + now apply commandRegex_bash.
    + now apply commandRegex_shell.
    + contradiction.
  - rewrite Tw. cbn [tagText]. rewrite <- (append_assoc w).
    apply commandRegex_untagged.
    + now apply fenceFree_word.
    + now apply startsWith_word_blank.
    + now apply startsWith_word_blank.
Qed.

Lemma search_hit {R} (m : @Cont R) s r : m s = Some r -> search m s = Some r.
Proof. intros H. destruct s; simpl; now rewrite H. Qed.

Lemma exec_block before b x :
  fenceFree before -> readable b ->
  commandRegex_exec (before ++ renderBlock b ++ x) = Some (trim (candidate b), x).
Proof.
  intros F Rb. unfold renderBlock at 1. rewrite (append_assoc fence), (exec_skips _ _ F).
  rewrite <- (append_assoc fence).
  apply search_hit, (commandRegex_block b x Rb).
Qed.

Lemma extractLoop_render fuel segments tail :
  wellFenced segments tail ->
  List.length segments < fuel ->
  extractLoop fuel (render segments tail)
  = map (fun sb => trim (candidate (snd sb))) segments.
Proof.
  intros [W T]. revert fuel. induction W as [|[before b] rest [F Rb] W IH]; intros fuel L.
  - destruct fuel; [reflexivity|]. cbn [render extractLoop]. now rewrite exec_none.
  - destruct fuel; [simpl in L; lia|]. cbn [render extractLoop map fst snd] in *.
    rewrite (exec_block _ _ _ F Rb), trim_idem, IH; [reflexivity | simpl in L; lia].
Qed.

Lemma render_length segments tail :
  List.length segments <= String.length (render segments tail).
Proof.
  induction segments as [|[before b] rest IH]; simpl; [lia|].
  unfold renderBlock, fence. rewrite !length_append. cbn [String.length append].
  rewrite !length_append. lia.
Qed.

Lemma extractCommands_render segments tail :
  wellFenced segments tail ->
  extractCommands (render segments tail)
  = map (fun sb => trim (candidate (snd sb))) segments.
Proof.
  intros W. apply extractLoop_render; [exact W|].
  pose proof (render_length segments tail). lia.
Qed.

(** ** The extraction loop never runs out of fuel *)

Lemma consumes_lit p n k : consumes n k -> consumes (n + String.length p) (lit p k).
Proof.
  unfold lit. revert n k. induction p as [|a p IH]; intros n k H s cap rest E.
  - cbn in *. rewrite Nat.add_0_r. exact (H _ _ _ E).
  - cbn [litWith] in E. destruct s as [|b s]; [discriminate|].
    destruct (Ascii.eqb a b); [|discriminate].
    apply (IH n k H) in E. cbn [String.length]. lia.
Qed.

Lemma consumes_star c n k : consumes n k -> consumes n (star c k).
Proof.
  intros H s. induction s as [|a s IH]; intros cap rest E; cbn [star] in E.
  - exact (H _ _ _ E).
  - destruct (c a).
    + destruct (star c k s) as [[cap' rest']|] eqn:S.
      * injection E as <- <-. specialize (IH _ _ eq_refl). cbn [String.length]. lia.
      * exact (H _ _ _ E).
    + exact (H _ _ _ E).
Qed.

Lemma consumes_alt (m1 m2 : @Cont (string * string) -> @Cont (string * string)) n k :
  consumes n (m1 k) -> consumes n (m2 k) -> consumes n (alt m1 m2 k).
Proof.
  intros H1 H2 s cap rest E. unfold alt in E.
  destruct (m1 k s) as [[cap' rest']|] eqn:S.
  - injection E as <- <-. exact (H1 _ _ _ S).
  - exact (H2 _ _ _ E).
Qed.

Lemma consumes_weaken n m k : m <= n -> consumes n k -> consumes m k.
Proof. intros L H s cap rest E. specialize (H _ _ _ E). lia. Qed.

Lemma consumes_lazyGroup c n (k : string -> @Cont (string * string)) :
  (forall cap, consumes n (k cap)) -> consumes n (lazyGroup c k).
Proof.
  intros H s. revert k H. induction s as [|a s IH]; intros k H cap rest E.
  - cbn [lazyGroup] in E. destruct (k EmptyString EmptyString) as [[cap' rest']|] eqn:S.
    + injection E as <- <-. exact (H EmptyString _ _ _ S).
    + discriminate.
  - cbn [lazyGroup] in E. destruct (k EmptyString (String a s)) as [[cap' rest']|] eqn:S.
    + injection E as <- <-. exact (H EmptyString _ _ _ S).
    + destruct (c a); [|discriminate].
      apply (IH (fun cap0 => k (String a cap0))) in E.
      * cbn [String.length]. lia.
      * intros cap0. apply H.
Qed.

Lemma consumes_search n m : consumes n m -> consumes n (search m).
Proof.
  intros H s. induction s as [|a s IH]; intros cap rest E; cbn [search] in E.
  - destruct (m EmptyString) as [[cap' rest']|] eqn:S; [|discriminate].
    injection E as <- <-. exact (H _ _ _ S).
  - destruct (m (String a s)) as [[cap' rest']|] eqn:S.
    + injection E as <- <-. exact (H _ _ _ S).
    + specialize (IH _ _ E). cbn [String.length]. lia.
Qed.

(** A match of the command regex spans at least the two fences. *)
Lemma commandRegex_exec_consumes : consumes 6 commandRegex_exec.
Proof.
  apply consumes_search. unfold commandRegex.
  apply (consumes_lit "```" 3).
  assert (B : consumes 3
                (star isWhiteSpace
                   (lazyGroup dotAll (fun cap =>
                      star isWhiteSpace (lit "```" (fun rest => Some (cap, rest))))))).
  { apply consumes_star, consumes_lazyGroup. intros cap. apply consumes_star.
    apply (consumes_lit "```" 0). intros s cap' rest E. injection E as <- <-. lia. }
  apply consumes_alt; [apply consumes_alt | exact B].
  - apply (consumes_weaken (3 + 4)); [lia|]. now apply (consumes_lit "bash" 3).
  - apply (consumes_weaken (3 + 5)); [lia|]. now apply (consumes_lit "shell" 3).
Qed.

(** The loop of [extractCommands] ends by itself: more fuel than the
    length of the subject changes nothing. *)
Lemma extractLoop_enough fuel1 fuel2 s :
  String.length s < fuel1 -> String.length s < fuel2 ->
  extractLoop fuel1 s = extractLoop fuel2 s.
Proof.
  revert fuel2 s. induction fuel1 as [|fuel1 IH]; intros fuel2 s L1 L2; [lia|].
  destruct fuel2 as [|fuel2]; [lia|]. cbn [extractLoop].
  destruct (commandRegex_exec s) as [[cap rest]|] eqn:E; [|reflexivity].
  apply commandRegex_exec_consumes in E. f_equal. apply IH; lia.
Qed.

Lemma extractCommands_unfold s :
  extractCommands s
  = match commandRegex_exec s with
    | Some (cap, rest) => trim cap :: extractCommands rest
    | None => []
    end.
Proof.
  unfold extractCommands at 1. cbn [extractLoop].
  destruct (commandRegex_exec s) as [[cap rest]|] eqn:E; [|reflexivity].
  apply commandRegex_exec_consumes in E. f_equal. apply extractLoop_enough; lia.
Qed.

(** ** Emission *)

Lemma logAll_nil w : logAll [] w = w.
Proof. destruct w. unfold logAll. cbn. now rewrite app_nil_r. Qed.

Lemma log_logAll e w : log e w = logAll [e] w.
Proof. reflexivity. Qed.

Lemma logAll_logAll es1 es2 w : logAll es2 (logAll es1 w) = logAll (es1 ++ es2)%list w.
Proof. unfold logAll. cbn. now rewrite app_assoc. Qed.

Section ForEach.
Context {T : Type} (wrap : T -> Payload) (x : T).

Lemma forEach_returns listeners w :
  (forall s, In s listeners -> sub_call s x = None) ->
  forEach wrap listeners x w = (Ok tt, logAll (deliveredTo wrap listeners x) w).
Proof.
  revert w. induction listeners as [|s rest IH]; intros w H.
  - cbn. now rewrite logAll_nil.
  - cbn [forEach]. rewrite (H s (or_introl eq_refl)), IH.
    + now rewrite log_logAll, logAll_logAll.
    + intros s' Hs'. apply H. now right.
Qed.

Lemma forEach_throws called s later e w :
  (forall s', In s' called -> sub_call s' x = None) ->
  sub_call s x = Some e ->
  forEach wrap (called ++ s :: later)%list x w
  = (Throw e, logAll (deliveredTo wrap (called ++ [s])%list x) w).
Proof.
  revert w. induction called as [|c called IH]; intros w H E.
  - cbn. now rewrite E.
  - cbn [forEach app]. rewrite (H c (or_introl eq_refl)), IH.
    + now rewrite log_logAll, logAll_logAll.
    + intros s' Hs'. apply H. now right.
    + exact E.
Qed.

(** Whatever the callbacks do, [forEach] only appends calls to the trace. *)
Lemma forEach_trace listeners w :
  exists called,
    snd (forEach wrap listeners x w) = logAll (deliveredTo wrap called x) w.
Proof.
  revert w. induction listeners as [|s rest IH]; intros w.
  - exists []. cbn. now rewrite logAll_nil.
  - cbn [forEach]. destruct (sub_call s x).
    + exists [s]. reflexivity.
    + destruct (IH (log (Delivered (sub_name s) (wrap x)) w)) as [called ->].
      exists (s :: called). now rewrite log_logAll, logAll_logAll.
Qed.

Lemma forEach_deliversInOrder listeners w0 w :
  trace w = (trace w0 ++ [Emitted (wrap x)])%list ->
  deliversInOrder wrap listeners x w0 (forEach wrap listeners x w).
Proof.
  intros Tr. split.
  - intros H. rewrite (forEach_returns _ _ H). cbn. rewrite Tr, <- app_assoc.
    now split.
  - intros called s later e -> H E. rewrite (forEach_throws _ _ _ _ _ H E). cbn.
    rewrite Tr, <- app_assoc. now split.
Qed.
End ForEach.

(** ** Reading the trace *)

Lemma emittedMessages_app a b :
  emittedMessages (a ++ b)%list = (emittedMessages a ++ emittedMessages b)%list.
Proof. apply flat_map_app. Qed.

Lemma emittedVulnerabilities_app a b :
  emittedVulnerabilities (a ++ b)%list
  = (emittedVulnerabilities a ++ emittedVulnerabilities b)%list.
Proof. apply flat_map_app. Qed.

Lemma emittedStatuses_app a b :
  emittedStatuses (a ++ b)%list = (emittedStatuses a ++ emittedStatuses b)%list.
Proof. apply flat_map_app. Qed.

Lemma executedCommands_app a b :
  executedCommands (a ++ b)%list = (executedCommands a ++ executedCommands b)%list.
Proof. unfold executedCommands. now rewrite emittedMessages_app, flat_map_app. Qed.

Lemma deliveries_app a b : deliveries (a ++ b)%list = (deliveries a ++ deliveries b)%list.
Proof. apply flat_map_app. Qed.

Section Delivered.
Context {T : Type} (wrap : T -> Payload) (listeners : list (Subscriber T)) (x : T).

Lemma emittedMessages_deliveredTo : emittedMessages (deliveredTo wrap listeners x) = [].
Proof. induction listeners; [reflexivity | exact IHl]. Qed.

Lemma emittedVulnerabilities_deliveredTo :
  emittedVulnerabilities (deliveredTo wrap listeners x) = [].
Proof. induction listeners; [reflexivity | exact IHl]. Qed.

Lemma emittedStatuses_deliveredTo : emittedStatuses (deliveredTo wrap listeners x) = [].
Proof. induction listeners; [reflexivity | exact IHl]. Qed.

Lemma executedCommands_deliveredTo : executedCommands (deliveredTo wrap listeners x) = [].
Proof. unfold executedCommands. now rewrite emittedMessages_deliveredTo. Qed.

Lemma deliveries_deliveredTo :
  deliveries (deliveredTo wrap listeners x) = map (fun s => (sub_name s, wrap x)) listeners.
Proof. induction listeners; [reflexivity | cbn; now f_equal]. Qed.
End Delivered.

Lemma silent_nil : silent [].
Proof. now repeat split. Qed.

Lemma silent_app a b : silent a -> silent b -> silent (a ++ b)%list.
Proof.
  intros (A1 & A2 & A3) (B1 & B2 & B3). repeat split.
  - now rewrite executedCommands_app, A1, B1.
  - now rewrite emittedStatuses_app, A2, B2.
  - now rewrite emittedMessages_app, filter_app, A3, B3.
Qed.

Lemma silent_deliveredTo {T} (wrap : T -> Payload) listeners x :
  silent (deliveredTo wrap listeners x).
Proof.
  repeat split.
  - apply executedCommands_deliveredTo.
  - apply emittedStatuses_deliveredTo.
  - now rewrite emittedMessages_deliveredTo.
Qed.

Lemma emittedMessages_cons e es :
  emittedMessages (e :: es) = (emittedMessages [e] ++ emittedMessages es)%list.
Proof. apply (emittedMessages_app [e] es). Qed.

Lemma emittedVulnerabilities_cons e es :
  emittedVulnerabilities (e :: es)
  = (emittedVulnerabilities [e] ++ emittedVulnerabilities es)%list.
Proof. apply (emittedVulnerabilities_app [e] es). Qed.

Lemma emittedStatuses_cons e es :
  emittedStatuses (e :: es) = (emittedStatuses [e] ++ emittedStatuses es)%list.
Proof. apply (emittedStatuses_app [e] es). Qed.

Lemma executedCommands_cons e es :
  executedCommands (e :: es) = (executedCommands [e] ++ executedCommands es)%list.
Proof. apply (executedCommands_app [e] es). Qed.

(** Splits what is read from a trace along its appends, and drops the
    calls of callbacks. *)
Ltac read_trace :=
  repeat first
    [ rewrite executedCommands_app
    | rewrite emittedStatuses_app
    | rewrite emittedMessages_app
    | rewrite emittedVulnerabilities_app
    | rewrite filter_app
    | rewrite executedCommands_deliveredTo
    | rewrite emittedStatuses_deliveredTo
    | rewrite emittedMessages_deliveredTo
    | rewrite emittedVulnerabilities_deliveredTo
    | match goal with
      | |- context [executedCommands (?e :: ?l)] =>
          lazymatch l with [] => fail | _ => rewrite (executedCommands_cons e l) end
      | |- context [emittedStatuses (?e :: ?l)] =>
          lazymatch l with [] => fail | _ => rewrite (emittedStatuses_cons e l) end
      | |- context [emittedMessages (?e :: ?l)] =>
          lazymatch l with [] => fail | _ => rewrite (emittedMessages_cons e l) end
      | |- context [emittedVulnerabilities (?e :: ?l)] =>
          lazymatch l with [] => fail | _ => rewrite (emittedVulnerabilities_cons e l) end
      end ].

(** ** Methods whose callbacks return *)

Lemma sameService_refl w : sameService w w.
Proof. now repeat split. Qed.

Lemma sameService_trans w1 w2 w3 :
  sameService w1 w2 -> sameService w2 w3 -> sameService w1 w3.
Proof.
  unfold sameService. intros H1 H2.
  destruct H1 as (?&?&?&?&?&?&?&?), H2 as (?&?&?&?&?&?&?&?).
  repeat split; congruence.
Qed.

Lemma quiet_same w w' : sameService w w' -> quiet w -> quiet w'.
Proof.
  intros (_ & M & V & S & _) (Qm & Qv & Qs). unfold quiet. rewrite M, V, S. now repeat split.
Qed.

Lemma targetOf_same w w' : sameService w w' -> targetOf w' = targetOf w.
Proof. intros (C & _). unfold targetOf. now rewrite C. Qed.

Lemma bind_ok {A B} (m : M A) (f : A -> M B) w a w1 :
  m w = (Ok a, w1) -> bind m f w = f a w1.
Proof. intros E. unfold bind. now rewrite E. Qed.

Lemma yields_ret {A} (a : A) w : yields (ret a) w a [] w.
Proof. repeat split. now rewrite app_nil_r. Qed.

Lemma yields_get w : yields get w w [] w.
Proof. repeat split. now rewrite app_nil_r. Qed.

Lemma yields_bind {A B} (m : M A) (f : A -> M B) w a es1 w1 b es2 w2 :
  yields m w a es1 w1 -> yields (f a) w1 b es2 w2 ->
  yields (bind m f) w b (es1 ++ es2)%list w2.
Proof.
  intros (E1 & S1 & T1) (E2 & S2 & T2). split; [|split].
  - unfold bind. now rewrite E1.
  - eapply sameService_trans; eassumption.
  - now rewrite T2, T1, app_assoc.
Qed.

Lemma emitMessage_yields message w :
  quiet w ->
  exists w',
    yields (emitMessage message) w tt
      (Emitted (PMessage (fullMessage w message))
         :: deliveredTo PMessage (onMessage_listeners w) (fullMessage w message)) w'
    /\ messageId w' = S (messageId w).
Proof.
  intros (Qm & _). eexists. split; [split; [|split]|].
  - unfold emitMessage. apply forEach_returns. intros s Hs. now apply Qm.
  - now repeat split.
  - cbn. now rewrite <- app_assoc.
  - reflexivity.
Qed.

Lemma emitVulnerability_yields v w :
  quiet w ->
  exists w',
    yields (emitVulnerability v) w tt
      (Emitted (PVulnerability (fullVulnerability w v))
         :: deliveredTo PVulnerability (onVulnerabilityFound_listeners w)
              (fullVulnerability w v)) w'
    /\ messageId w' = messageId w.
Proof.
  intros (_ & Qv & _). eexists. split; [split; [|split]|].
  - unfold emitVulnerability. apply forEach_returns. intros s Hs. now apply Qv.
  - now repeat split.
  - cbn. now rewrite <- app_assoc.
  - reflexivity.
Qed.

Lemma emitStatusChange_returns status w :
  statusQuiet w ->
  exists w',
    yields (emitStatusChange status) w tt
      (Emitted (PStatus status)
         :: deliveredTo PStatus (onStatusChange_listeners w) status) w'
    /\ messageId w' = messageId w.
Proof.
  intros Qs. eexists. split; [split; [|split]|].
  - unfold emitStatusChange. apply forEach_returns. intros s Hs. now apply Qs.
  - now repeat split.
  - cbn. now rewrite <- app_assoc.
  - reflexivity.
Qed.

Lemma emitStatusChange_yields status w :
  quiet w ->
  exists w',
    yields (emitStatusChange status) w tt
      (Emitted (PStatus status)
         :: deliveredTo PStatus (onStatusChange_listeners w) status) w'
    /\ messageId w' = messageId w.
Proof. intros (_ & _ & Qs). now apply emitStatusChange_returns. Qed.

(** ** Claims on extraction *)

Lemma analyzeAIResponse_string response w :
  analyzeAIResponse (JString response) w
  = (forOf (extractCommands response) executeCommand ;;
     detectVulnerabilitiesFromResponse (JString response)) w.
Proof. reflexivity. Qed.

Lemma analyzeAIResponse_no_command response :
  extractCommands response = [] ->
  forall w,
    analyzeAIResponse (JString response) w
    = detectVulnerabilitiesFromResponse (JString response) w.
Proof.
  intros E w. rewrite analyzeAIResponse_string, E. reflexivity.
Qed.

Lemma emitVulnerability_world v w :
  exists called,
    snd (emitVulnerability v w)
    = logAll (Emitted (PVulnerability (fullVulnerability w v))
                :: deliveredTo PVulnerability called (fullVulnerability w v)) w.
Proof.
  change (emitVulnerability v w)
    with (forEach PVulnerability (onVulnerabilityFound_listeners w) (fullVulnerability w v)
            (log (Emitted (PVulnerability (fullVulnerability w v))) w)).
  destruct (forEach_trace PVulnerability (fullVulnerability w v)
              (onVulnerabilityFound_listeners w)
              (log (Emitted (PVulnerability (fullVulnerability w v))) w)) as [called ->].
  exists called. now rewrite log_logAll, logAll_logAll.
Qed.

Lemma detect_executes_nothing response w :
  executedCommands (trace (snd (detectVulnerabilitiesFromResponse (JString response) w)))
  = executedCommands (trace w).
Proof.
  cbn [detectVulnerabilitiesFromResponse].
  destruct (0 <? List.length (foundKeywords response)); [|reflexivity].
  unfold bind, get.
  match goal with
  | |- context [emitVulnerability ?v w] =>
      destruct (emitVulnerability_world v w) as [called ->]
  end.
  cbn [trace logAll]. rewrite executedCommands_app.
  change (Emitted ?p :: ?l) with ([Emitted p] ++ l)%list.
  rewrite executedCommands_app, executedCommands_deliveredTo. cbn. now rewrite app_nil_r.
Qed.

(** What the regex does on small replies: a tagged block, an untagged
    one on a single line, an empty block (one empty command), a fence
    that is never closed (no command), and a fence of four backticks. *)
Example extract_tagged :
  extractCommands ("Run:" ++ nl ++ "```bash" ++ nl ++ "sudo -l" ++ nl ++ "```" ++ nl)
  = ["sudo -l"].
Proof. reflexivity. Qed.

Example extract_inline : extractCommands "try ```id``` now" = ["id"].
Proof. reflexivity. Qed.

Example extract_empty_block : extractCommands "``````" = [EmptyString].
Proof. reflexivity. Qed.

Example extract_unclosed : extractCommands "```ls -la" = [].
Proof. reflexivity. Qed.

Example extract_four_backticks : extractCommands "````ls````" = ["`ls"].
Proof. reflexivity. Qed.

(** C5. Extraction is a function of the reply text alone and keeps the
    order of the source: on a reply made of N fenced code blocks, each
    untagged or tagged [bash] or [shell], with text before, between and
    after them, it yields exactly N commands, the i-th being the body of
    the i-th block trimmed of surrounding whitespace.  On a reply without
    a fence it yields no command, and [analyzeAIResponse] then executes
    none: it goes straight to the keyword scan. *)
Theorem C5_extraction_in_source_order :
  (forall segments tail,
     Forall (fun sb => fenceFree (fst sb) /\ shellBlock (snd sb)) segments ->
     findFence tail = None ->
     extractCommands (render segments tail)
     = map (fun sb => trim (body (snd sb))) segments
     /\ List.length (extractCommands (render segments tail)) = List.length segments)
  /\
  (forall response,
     findFence response = None ->
     extractCommands response = []
     /\ forall w,
          analyzeAIResponse (JString response) w
          = detectVulnerabilitiesFromResponse (JString response) w
          /\ executedCommands (trace (snd (analyzeAIResponse (JString response) w)))
             = executedCommands (trace w)).
Proof.
  split.
  - intros segments tail W T.
    assert (WF : wellFenced segments tail).
    { split; [|exact T]. eapply Forall_impl; [|exact W].
      intros sb [F S]. split; [exact F | now left]. }
    assert (E : extractCommands (render segments tail)
                = map (fun sb => trim (body (snd sb))) segments).
    { rewrite (extractCommands_render _ _ WF). apply map_ext_in.
      intros sb Hin. rewrite Forall_forall in W. destruct (W sb Hin) as [_ [_ S]].
      unfold candidate. destruct (tag (snd sb)); [reflexivity .. | contradiction]. }
    split; [exact E | now rewrite E, length_map].
  - intros response T.
    assert (E : extractCommands response = []).
    { apply (extractCommands_render [] response). now split. }
    split; [exact E|]. intros w.
    rewrite (analyzeAIResponse_no_command _ E w).
    split; [reflexivity | apply detect_executes_nothing].
Qed.

(** A reply with two tagged blocks and an untagged one, in the terms of C5. *)
Lemma C5_witness :
  extractCommands
    (render [ ("First:" ++ nl, {| tag := Bash; body := nl ++ "sudo -l" ++ nl |});
              (nl ++ "then ", {| tag := Untagged; body := "id" |});
              (" and ", {| tag := Shell; body := nl ++ "  whoami  " ++ nl |}) ]
       ".")
  = ["sudo -l"; "id"; "whoami"].
Proof.
  apply (proj1 C5_extraction_in_source_order
           [ ("First:" ++ nl, {| tag := Bash; body := nl ++ "sudo -l" ++ nl |});
             (nl ++ "then ", {| tag := Untagged; body := "id" |});
             (" and ", {| tag := Shell; body := nl ++ "  whoami  " ++ nl |}) ]
           ".").
  - repeat constructor.
  - reflexivity.
Defined.

(** The claim of C10 as it stands fails on a language word that begins with
    [shell]: the reply is one block tagged [shellscript], and the command
    extracted from it does not begin with that word. *)
Lemma C10_counterexample :
  let b := {| tag := Lang "shellscript"; body := nl ++ "ls" ++ nl |} in
  langBlock "shellscript" b /\
  "shellscript" <> "bash" /\ "shellscript" <> "shell" /\
  extractCommands (render [(EmptyString, b)] EmptyString) = ["script" ++ nl ++ "ls"] /\
  ~ (exists command,
       extractCommands (render [(EmptyString, b)] EmptyString) = [command] /\
       startsWith "shellscript" command = true).
Proof.
  cbn zeta. split; [|split; [|split; [|split]]].
  - repeat split; try reflexivity. discriminate.
  - discriminate.
  - discriminate.
  - reflexivity.
  - intros (command & E & S). injection E as <-. discriminate S.
Qed.

(** C10, amended. In a reply of fenced blocks, a block tagged with a
    language word that does not begin with [bash] or [shell] is neither
    skipped nor stripped of its tag: the reply still yields one command
    per block, and the command of that block is the language word followed
    by the block body, trailing whitespace removed. *)
Theorem C10_language_word_kept :
  forall segments tail i before b word,
    wellFenced segments tail ->
    nth_error segments i = Some (before, b) ->
    langBlock word b ->
    startsWith "bash" word = false ->
    startsWith "shell" word = false ->
    List.length (extractCommands (render segments tail)) = List.length segments /\
    nth_error (extractCommands (render segments tail)) i
    = Some (word ++ trimEnd (body b)) /\
    startsWith word (word ++ trimEnd (body b)) = true.
Proof.
  intros segments tail i before b word WF N L Hb Hs.
  rewrite (extractCommands_render _ _ WF). split; [apply length_map|]. split.
  - rewrite nth_error_map, N. cbn [option_map snd].
    destruct L as (T & Nw & Ww & _). unfold candidate, trim. rewrite T.
    now rewrite (trimStart_word _ _ Nw Ww), (trimEnd_word _ _ Nw Ww).
  - apply startsWith_iff. now exists (trimEnd (body b)).
Qed.

Lemma C10_witness :
  let b := {| tag := Lang "python"; body := nl ++ "print(1)" ++ nl |} in
  List.length (extractCommands (render [("Try ", b)] " now")) = 1 /\
  nth_error (extractCommands (render [("Try ", b)] " now")) 0
  = Some ("python" ++ nl ++ "print(1)") /\
  startsWith "python" ("python" ++ nl ++ "print(1)") = true.
Proof.
  cbn zeta.
  apply (C10_language_word_kept
           [("Try ", {| tag := Lang "python"; body := nl ++ "print(1)" ++ nl |})]
           " now" 0 "Try " {| tag := Lang "python"; body := nl ++ "print(1)" ++ nl |}
           "python").
  - split; [|reflexivity]. constructor; [|constructor]. split; [reflexivity|].
    right. exists "python". repeat split; try reflexivity. discriminate.
  - reflexivity.
  - repeat split; try reflexivity. discriminate.
  - reflexivity.
  - reflexivity.
Defined.

(** ** Claims on emission *)

(** The claim of C2 as it stands fails when a callback throws: of two
    message callbacks, the first registered throws, and the second is not
    called. *)
Lemma C2_counterexample :
  let message :=
    {| content := JString "hello"; sender := system; type := text; metadata := None |} in
  let out := emitMessage message faultyWorld in
  map sub_name (onMessage_listeners faultyWorld) = [1; 2] /\
  fst out = Throw (Error "render failed") /\
  map fst (deliveries (trace (snd out))) = [1] /\
  ~ In 2 (map fst (deliveries (trace (snd out)))).
Proof.
  cbn zeta. repeat split. cbn. intros [H|[]]. discriminate H.
Qed.

(** C2, amended. An emission of a message, of a vulnerability or of a
    status change builds the full record (the next message id and the
    clock for a message, the clock for a vulnerability) and calls the
    registered callbacks with it one after the other, in registration
    order, up to the first callback that throws: its exception leaves the
    emitter, and the callbacks registered after it are not called.  When
    none throws, every callback is called. *)
Theorem C2_delivery_in_registration_order :
  forall w,
    (forall message,
       deliversInOrder PMessage (onMessage_listeners w) (fullMessage w message) w
         (emitMessage message w)
       /\ messageId (snd (emitMessage message w)) = S (messageId w)) /\
    (forall v,
       deliversInOrder PVulnerability (onVulnerabilityFound_listeners w)
         (fullVulnerability w v) w (emitVulnerability v w)) /\
    (forall status,
       deliversInOrder PStatus (onStatusChange_listeners w) status w
         (emitStatusChange status w)) /\
    (forall callback,
       onMessage_listeners (snd (onMessage callback w))
       = (onMessage_listeners w ++ [callback])%list) /\
    (forall callback,
       onVulnerabilityFound_listeners (snd (onVulnerabilityFound callback w))
       = (onVulnerabilityFound_listeners w ++ [callback])%list) /\
    (forall callback,
       onStatusChange_listeners (snd (onStatusChange callback w))
       = (onStatusChange_listeners w ++ [callback])%list).
Proof.
  intros w. split; [|split; [|split; [|repeat split]]].
  - intros message. split.
    + apply forEach_deliversInOrder. reflexivity.
    + unfold emitMessage.
      destruct (forEach_trace PMessage (fullMessage w message) (onMessage_listeners w)
                  (log (Emitted (PMessage (fullMessage w message)))
                     (set_messageId (S (messageId w)) w))) as [called E].
      unfold fullMessage in E. rewrite E. reflexivity.
  - intros v. apply forEach_deliversInOrder. reflexivity.
  - intros status. apply forEach_deliversInOrder. reflexivity.
Qed.

(** ** Command-result classification *)

Lemma silent_cons e es : silent [e] -> silent es -> silent (e :: es).
Proof. intros. now apply (silent_app [e] es). Qed.

Lemma background_nil : background [].
Proof. split; [apply silent_nil | reflexivity]. Qed.

Lemma background_app a b : background a -> background b -> background (a ++ b)%list.
Proof.
  intros [Sa Fa] [Sb Fb]. split; [now apply silent_app|].
  unfold fromSystem in *. now rewrite emittedMessages_app, filter_app, Fa, Fb.
Qed.

Lemma background_deliveredTo {T} (wrap : T -> Payload) listeners x :
  background (deliveredTo wrap listeners x).
Proof.
  split; [apply silent_deliveredTo|]. unfold fromSystem.
  now rewrite emittedMessages_deliveredTo.
Qed.

Lemma background_cons e es : background [e] -> background es -> background (e :: es).
Proof. intros. now apply (background_app [e] es). Qed.

Lemma fullVulnerability_same w w' v :
  sameService w w' -> fullVulnerability w' v = fullVulnerability w v.
Proof. intros (_&_&_&_&_&_&_&N). unfold fullVulnerability. now rewrite N. Qed.

Lemma alert_background w r :
  background [Emitted (PMessage (fullMessage w (alertOf r)))].
Proof. repeat split. Qed.

Lemma finding_background w v :
  background [Emitted (PVulnerability (fullVulnerability w v))].
Proof. repeat split. Qed.

Lemma ruleLoop_yields text rules w :
  quiet w ->
  exists es w',
    yields
      (forOf rules (fun r =>
         if pattern r text then
           w <- get ;;
           emitVulnerability (findingOf (targetOf w) r) ;;
           emitMessage (alertOf r)
         else ret tt)) w tt es w'
    /\ emittedVulnerabilities es
       = map (fun r => fullVulnerability w (findingOf (targetOf w) r))
           (filter (fun r => pattern r text) rules)
    /\ background es.
Proof.
  revert w. induction rules as [|r rules IH]; intros w Q.
  - exists [], w. split; [apply yields_ret | split; [reflexivity | apply background_nil]].
  - cbn [forOf filter]. destruct (pattern r text).
    + destruct (emitVulnerability_yields (findingOf (targetOf w) r) w Q) as (w1 & Y1 & _).
      assert (Q1 : quiet w1) by (eapply quiet_same; [apply Y1 | exact Q]).
      destruct (emitMessage_yields (alertOf r) w1 Q1) as (w2 & Y2 & _).
      assert (S2 : sameService w w2).
      { eapply sameService_trans; [apply Y1 | apply Y2]. }
      destruct (IH w2 (quiet_same _ _ S2 Q)) as (es & w3 & Y3 & V3 & Si3).
      eexists. exists w3. split; [|split].
      * eapply yields_bind; [|exact Y3].
        eapply yields_bind; [apply yields_get|].
        eapply yields_bind; [exact Y1 | exact Y2].
      * rewrite !emittedVulnerabilities_app, V3.
        change (Emitted ?p :: ?l) with ([Emitted p] ++ l)%list.
        rewrite !emittedVulnerabilities_app, !emittedVulnerabilities_deliveredTo. cbn.
        f_equal. apply map_ext. intros r'.
        now rewrite (fullVulnerability_same _ _ _ S2), (targetOf_same _ _ S2).
      * apply background_app; [|exact Si3].
        apply (background_app []); [apply background_nil|].
        apply background_app; apply background_cons;
          [apply finding_background | apply background_deliveredTo
          | apply alert_background | apply background_deliveredTo].
    + destruct (IH w Q) as (es & w3 & Y3 & V3 & Si3).
      exists es, w3. split; [|split; assumption].
      change es with ([] ++ es)%list. eapply yields_bind; [apply yields_ret | exact Y3].
Qed.

Lemma analyzeCommandResult_yields cmd output w :
  quiet w ->
  exists es w',
    yields (analyzeCommandResult cmd output) w tt es w'
    /\ emittedVulnerabilities es
       = map (fun r => fullVulnerability w (findingOf (targetOf w) r))
           (filter (fun r => pattern r (JS.toString output))
              (vulnerabilityPatterns cmd output))
    /\ background es.
Proof. apply ruleLoop_yields. Qed.

(** ** The keyword scan *)

Lemma toLowerCase_append a b : toLowerCase (a ++ b) = toLowerCase a ++ toLowerCase b.
Proof. induction a as [|x a IH]; cbn; [reflexivity | now rewrite IH]. Qed.

Lemma toLowerCase_split s x y :
  toLowerCase s = x ++ y ->
  exists s1 s2, s = s1 ++ s2 /\ toLowerCase s1 = x /\ toLowerCase s2 = y.
Proof.
  revert s. induction x as [|c x IH]; intros s H.
  - exists EmptyString, s. now repeat split.
  - destruct s as [|d s]; [discriminate|]. cbn in H. injection H as Hc H.
    destruct (IH s H) as (s1 & s2 & -> & H1 & H2).
    exists (String d s1), s2. repeat split; [|exact H2]. cbn. now rewrite Hc, H1.
Qed.

Lemma includes_iff s k :
  includes s k = true <-> exists before rest, s = before ++ k ++ rest.
Proof.
  induction s as [|a s IH].
  - cbn [includes]. rewrite orb_false_r, startsWith_iff. split.
    + intros [rest H]. now exists EmptyString, rest.
    + intros (before & rest & H). destruct before; [now exists rest | discriminate].
  - cbn [includes]. rewrite orb_true_iff, startsWith_iff, IH. split.
    + intros [[rest H]|(before & rest & ->)].
      * now exists EmptyString, rest.
      * now exists (String a before), rest.
    + intros (before & rest & H). destruct before as [|b before].
      * left. now exists rest.
      * right. injection H as -> ->. now exists before, rest.
Qed.

Lemma includes_mentions response keyword :
  includes (toLowerCase response) keyword = true <-> mentions response keyword.
Proof.
  rewrite includes_iff. unfold mentions. split.
  - intros (x & y & H). apply toLowerCase_split in H as (s1 & s2 & -> & H1 & H2).
    apply toLowerCase_split in H2 as (s3 & s4 & -> & H3 & H4).
    now exists s1, s3, s4.
  - intros (b & m & r & -> & <-). rewrite !toLowerCase_append.
    now exists (toLowerCase b), (toLowerCase r).
Qed.

Lemma filter_InOrder {A} (f : A -> bool) l : InOrder (filter f l) l.
Proof.
  induction l as [|x l IH]; cbn; [constructor|].
  destruct (f x); now constructor.
Qed.

Lemma vulnKeywords_NoDup : NoDup vulnKeywords.
Proof.
  unfold vulnKeywords.
  repeat (constructor; [cbn; intuition discriminate|]). constructor.
Qed.

Lemma emitVulnerability_trace v w :
  emittedVulnerabilities (trace (snd (emitVulnerability v w)))
  = (emittedVulnerabilities (trace w) ++ [fullVulnerability w v])%list.
Proof.
  change (emitVulnerability v w)
    with (forEach PVulnerability (onVulnerabilityFound_listeners w) (fullVulnerability w v)
            (log (Emitted (PVulnerability (fullVulnerability w v))) w)).
  destruct (forEach_trace PVulnerability (fullVulnerability w v)
              (onVulnerabilityFound_listeners w)
              (log (Emitted (PVulnerability (fullVulnerability w v))) w)) as [called ->].
  cbn. rewrite !emittedVulnerabilities_app, emittedVulnerabilities_deliveredTo.
  now rewrite app_nil_r.
Qed.

(** ** Claims on classification *)

(** The claim of C6 as it stands fails when a callback throws: the output
    matches the first and the third rule, the second vulnerability
    callback throws on the first finding, and the third rule produces
    none. *)
Lemma C6_counterexample :
  let output := "(ALL) NOPASSWD: /usr/bin/find, uid=0(root)" in
  let out := analyzeCommandResult "sudo -l; id" (JString output) brokenDashboardWorld in
  map rule_title
    (filter (fun r => pattern r output)
       (vulnerabilityPatterns "sudo -l; id" (JString output)))
  = ["Sudo Privilege Escalation via find"; "Root Access Achieved"] /\
  fst out = Throw (Error "dashboard failed") /\
  map (fun v => title (vuln_init v)) (emittedVulnerabilities (trace (snd out)))
  = ["Sudo Privilege Escalation via find"].
Proof. cbn zeta. repeat split. Qed.

(** C6. With callbacks that return, analysing a pair of a command and its
    output leaves one Vulnerability per rule of the catalog whose pattern
    matches the output, in catalog order, each with evidence
    [[command, output]]: every rule is tried whatever the earlier ones
    did, several may fire, and when none matches no Vulnerability is
    emitted. *)
Theorem C6_one_finding_per_matching_rule :
  forall w cmd output,
    quiet w ->
    let catalog := vulnerabilityPatterns cmd (JString output) in
    let matching := filter (fun r => pattern r output) catalog in
    exists w',
      analyzeCommandResult cmd (JString output) w = (Ok tt, w') /\
      emittedVulnerabilities (trace w')
      = (emittedVulnerabilities (trace w)
           ++ map (fun r => fullVulnerability w (findingOf (targetOf w) r)) matching)%list /\
      Forall (fun r => evidence (findingOf (targetOf w) r) = [JString cmd; JString output])
        catalog /\
      match matching with
      | [] => emittedVulnerabilities (trace w') = emittedVulnerabilities (trace w)
      | _ => True
      end.
Proof.
  intros w cmd output Q catalog matching.
  destruct (analyzeCommandResult_yields cmd (JString output) w Q)
    as (es & w' & (E & _ & T) & V & _).
  exists w'. split; [exact E|].
  assert (EV : emittedVulnerabilities (trace w')
               = (emittedVulnerabilities (trace w)
                    ++ map (fun r => fullVulnerability w (findingOf (targetOf w) r))
                         matching)%list).
  { rewrite T, emittedVulnerabilities_app, V. reflexivity. }
  split; [exact EV|]. split.
  - repeat constructor.
  - rewrite EV. destruct matching; [apply app_nil_r | exact I].
Qed.

Lemma C6_witness :
  exists w',
    analyzeCommandResult "sudo -l" (JString "(ALL) NOPASSWD: /usr/bin/find") demoWorld
    = (Ok tt, w') /\
    map (fun v => title (vuln_init v)) (emittedVulnerabilities (trace w'))
    = ["Sudo Privilege Escalation via find"].
Proof.
  destruct (C6_one_finding_per_matching_rule demoWorld "sudo -l"
              "(ALL) NOPASSWD: /usr/bin/find")
    as (w' & E & V & _).
  - repeat split; intros s x [<-|[]]; reflexivity.
  - exists w'. split; [exact E|]. rewrite V. reflexivity.
Defined.

(** The two examples of the specification: the canned output of [id]
    matches no rule; an output that holds [uid=0(root)] matches the third
    rule alone. *)
Example id_output_matches_no_rule :
  filter (fun r => pattern r "uid=1001(user) gid=1001(user) groups=1001(user)")
    (vulnerabilityPatterns "id" JNull) = [].
Proof. reflexivity. Qed.

Example root_uid_matches_one_rule :
  map rule_title
    (filter (fun r => pattern r "uid=0(root) gid=0(root) groups=0(root)")
       (vulnerabilityPatterns "id" JNull))
  = ["Root Access Achieved"].
Proof. reflexivity. Qed.

(** C7. The keyword scan of a reply text finds the keywords of the
    vocabulary the text mentions in any letter case, each once and in
    vocabulary order.  When it finds some, it emits exactly one
    Vulnerability, of medium severity and category "Analysis", whose
    description lists them and whose evidence is the whole text; when it
    finds none, it emits nothing and changes nothing. *)
Theorem C7_keyword_scan :
  forall w response,
    let found := foundKeywords response in
    let out := detectVulnerabilitiesFromResponse (JString response) w in
    (forall keyword,
       In keyword found <-> In keyword vulnKeywords /\ mentions response keyword) /\
    NoDup found /\
    InOrder found vulnKeywords /\
    match found with
    | [] => out = (Ok tt, w)
    | _ =>
        emittedVulnerabilities (trace (snd out))
        = (emittedVulnerabilities (trace w)
             ++ [ fullVulnerability w
                    {| title := "Potential Security Issue Identified";
                       description :=
                         "AI analysis suggests potential security concerns: "
                           ++ String.concat ", " found;
                       severity := medium;
                       category := "Analysis";
                       affectedComponent := targetOf w;
                       recommendation :=
                         "Further investigation required based on AI analysis";
                       evidence := [JString response] |} ])%list
    end.
Proof.
  intros w response found out. split; [|split; [|split]].
  - intros keyword. unfold found, foundKeywords.
    now rewrite filter_In, includes_mentions.
  - apply NoDup_filter, vulnKeywords_NoDup.
  - apply filter_InOrder.
  - unfold out. cbn [detectVulnerabilitiesFromResponse]. fold found.
    destruct found as [|k found']; [reflexivity|].
    cbn [List.length Nat.ltb Nat.leb]. unfold bind, get.
    apply emitVulnerability_trace.
Qed.

(** The example of the specification. *)
Example keywords_of_the_example :
  foundKeywords "This looks like a classic SQL injection and privilege escalation issue."
  = ["privilege escalation"; "sql injection"].
Proof. reflexivity. Qed.

(** ** Claims on the connection test *)

(** The claim of C1 as it stands fails in the second revision: with a
    configuration set and the endpoint refusing the connection, the call
    throws instead of returning [false], and emits no status. *)
Lemma C1_counterexample :
  let out := testConnection Rev2 (Rejected refused) demoWorld in
  config demoWorld <> None /\
  failed (Rejected refused) /\
  fst out
  = Throw (Error "Cannot connect to LLM API - check URL and ensure Ollama is running") /\
  emittedStatuses (trace (snd out)) = [] /\
  ~ (exists v, fst out = Ok v).
Proof.
  cbn zeta. repeat split; try discriminate.
  intros [v H]. discriminate H.
Qed.

Lemma simulateSSHConnection_pure rev w :
  exists v, simulateSSHConnection rev w = (Ok v, w)
            /\ (rev = Rev2 -> exists b, v = JBool b).
Proof.
  unfold simulateSSHConnection. destruct (config w) as [cfg|].
  - destruct rev; eexists; (split; [reflexivity|]); intros H; try discriminate H.
    eexists. reflexivity.
  - exists (JBool false). split; [reflexivity|]. intros _. now exists false.
Qed.

(** C1, amended. With status callbacks that return, whatever the message
    and vulnerability callbacks do, and a configuration set: in the first
    revision the call does not throw, a non-200 response
    or a transport error resolves it to [false] with a [connected: false]
    status emission, and a 200 response resolves it to the result of the
    simulated SSH check, emitted as [connected]; in the second revision a
    200 response resolves it to the boolean result of that check, emitted
    as [connected], and a non-200 response or a transport error makes it
    throw an error that describes the failure.  Without a configuration
    the call throws the missing-configuration error. *)
Theorem C1_testConnection_outcomes :
  forall rev w reply,
    match config w with
    | None => testConnection rev reply w = (Throw (Error "Configuration not set"), w)
    | Some _ =>
        statusQuiet w ->
        match rev with
        | Rev1 =>
            exists v w',
              testConnection Rev1 reply w = (Ok v, w') /\
              emittedStatuses (trace w')
              = (emittedStatuses (trace w) ++ [Connected v])%list /\
              (failed reply -> v = JBool false) /\
              (~ failed reply -> fst (simulateSSHConnection Rev1 w) = Ok v)
        | Rev2 =>
            (~ failed reply ->
             exists b w',
               testConnection Rev2 reply w = (Ok (JBool b), w') /\
               fst (simulateSSHConnection Rev2 w) = Ok (JBool b) /\
               emittedStatuses (trace w')
               = (emittedStatuses (trace w) ++ [Connected (JBool b)])%list) /\
            (failed reply ->
             exists w',
               testConnection Rev2 reply w
               = (Throw (Error (connectionErrorMessage (caughtOf reply))), w'))
        end
    end.
Proof.
  intros rev w reply. unfold testConnection.
  destruct (config w) as [cfg|] eqn:C; [|reflexivity]. intros Q.
  assert (Statuses : forall es v w0 w1,
             trace w0 = (trace w ++ es)%list -> emittedStatuses es = [] ->
             yields (emitStatusChange (Connected v)) w0 tt
               (Emitted (PStatus (Connected v))
                  :: deliveredTo PStatus (onStatusChange_listeners w0) (Connected v)) w1 ->
             emittedStatuses (trace w1) = (emittedStatuses (trace w) ++ [Connected v])%list).
  { intros es v w0 w1 T0 E0 (_ & _ & T1). rewrite T1, T0, !emittedStatuses_app, E0.
    change (Emitted ?p :: ?l) with ([Emitted p] ++ l)%list.
    rewrite emittedStatuses_app, emittedStatuses_deliveredTo. cbn.
    now rewrite !app_nil_r. }
  destruct (simulateSSHConnection_pure rev w) as (ssh & Essh & Bssh).
  assert (Good : forall data,
             exists w',
               tryCatch
                 (llmResponse <- awaitPost (Resolved 200 data) ;;
                  (if negb (Z.eqb (fst llmResponse) 200)
                   then throw (Error "LLM connection failed") else ret tt) ;;
                  sshTest <- simulateSSHConnection rev ;;
                  emitStatusChange (Connected sshTest) ;;
                  ret sshTest)
                 (fun err =>
                    consoleError "Connection test failed:" err ;;
                    match rev with
                    | Rev1 =>
                        emitStatusChange (Connected (JBool false)) ;; ret (JBool false)
                    | Rev2 =>
                        throw (A := unit) (Error (connectionErrorMessage err)) ;;
                        emitStatusChange (Connected (JBool false)) ;; ret (JBool false)
                    end) w = (Ok ssh, w')
               /\ emittedStatuses (trace w')
                  = (emittedStatuses (trace w) ++ [Connected ssh])%list).
  { intros data. destruct (emitStatusChange_returns (Connected ssh) w Q) as (w1 & Y & _).
    exists w1. split.
    - unfold tryCatch, bind. cbn [awaitPost ret fst Z.eqb Pos.eqb negb]. rewrite Essh.
      destruct Y as (-> & _). reflexivity.
    - apply (Statuses [] ssh w w1); [now rewrite app_nil_r | reflexivity | exact Y]. }
  assert (Bad1 : failed reply -> rev = Rev1 ->
             exists w',
               tryCatch
                 (llmResponse <- awaitPost reply ;;
                  (if negb (Z.eqb (fst llmResponse) 200)
                   then throw (Error "LLM connection failed") else ret tt) ;;
                  sshTest <- simulateSSHConnection Rev1 ;;
                  emitStatusChange (Connected sshTest) ;;
                  ret sshTest)
                 (fun err =>
                    consoleError "Connection test failed:" err ;;
                    emitStatusChange (Connected (JBool false)) ;; ret (JBool false)) w
               = (Ok (JBool false), w')
               /\ emittedStatuses (trace w')
                  = (emittedStatuses (trace w) ++ [Connected (JBool false)])%list).
  { intros F _.
    set (w0 := log (ConsoleError "Connection test failed:" (caughtOf reply)) w).
    destruct (emitStatusChange_returns (Connected (JBool false)) w0 Q) as (w1 & Y & _).
    exists w1. split.
    - unfold tryCatch, bind. destruct reply as [st data|e].
      + cbn [awaitPost ret fst]. cbn in F. apply Z.eqb_neq in F. rewrite F.
        cbn [negb throw consoleError modify]. unfold w0 in Y. cbn [caughtOf] in Y.
        destruct Y as (-> & _). reflexivity.
      + cbn [awaitPost throw consoleError modify]. unfold w0 in Y. cbn [caughtOf] in Y.
        destruct Y as (-> & _). reflexivity.
    - apply (Statuses [ConsoleError "Connection test failed:" (caughtOf reply)]
               (JBool false) w0 w1); [reflexivity | reflexivity | exact Y]. }
  assert (Ok200 : ~ failed reply -> exists data, reply = Resolved 200 data).
  { destruct reply as [st data|e]; cbn; intros H; [|now elim H].
    exists data. f_equal. destruct (Z.eq_dec st 200); [assumption | now elim H]. }
  destruct rev.
  - destruct reply as [st data|e].
    + destruct (Z.eq_dec st 200) as [->|N].
      * destruct (Good data) as (w' & E & S). exists ssh, w'.
        split; [exact E|]. split; [exact S|]. split.
        -- intros F. now elim F.
        -- intros _. now rewrite Essh.
      * destruct (Bad1 N eq_refl) as (w' & E & S). exists (JBool false), w'.
        split; [exact E|]. split; [exact S|]. split; [reflexivity|].
        intros H. now elim H.
    + destruct (Bad1 I eq_refl) as (w' & E & S). exists (JBool false), w'.
      split; [exact E|]. split; [exact S|]. split; [reflexivity|].
      intros H. now elim H.
  - split.
    + intros NF. destruct (Ok200 NF) as [data ->].
      destruct (Bssh eq_refl) as [b ->].
      destruct (Good data) as (w' & E & S). exists b, w'.
      split; [exact E|]. split; [now rewrite Essh | exact S].
    + intros F. unfold tryCatch, bind. destruct reply as [st data|e]; eexists.
      * cbn [awaitPost ret fst]. cbn in F. apply Z.eqb_neq in F. rewrite F. reflexivity.
      * reflexivity.
Qed.

Lemma C1_witness :
  ~ quiet statusOnlyWorld /\
  exists v w',
    testConnection Rev1 (Rejected refused) statusOnlyWorld = (Ok v, w') /\
    emittedStatuses (trace w') = [Connected v] /\ v = JBool false.
Proof.
  split.
  - intros (Qm & _).
    specialize (Qm (thrower 1 (Error "render failed"))
                  {| msg_id := EmptyString; msg_timestamp := 0%Z;
                     msg_init := {| content := JNull; sender := system; type := text;
                                    metadata := None |} |}
                  (or_introl eq_refl)).
    discriminate Qm.
  - destruct (C1_testConnection_outcomes Rev1 statusOnlyWorld (Rejected refused))
      as (v & w' & E & S & F & _).
    + intros s x [<-|[]]. reflexivity.
    + exists v, w'. split; [exact E|]. split; [exact S | exact (F I)].
Defined.

(** In the first revision the simulated SSH check resolves with the
    credential it found, which the call then returns and emits in place
    of a boolean. *)
Example testConnection_Rev1_returns_password :
  fst (testConnection Rev1 (Resolved 200 JNull) demoWorld) = Ok (JString "hunter2").
Proof. reflexivity. Qed.

(** ** The pieces of a tick, with callbacks that return *)

Lemma yields_silent_message message w :
  quiet w ->
  silent [Emitted (PMessage (fullMessage w message))] ->
  exists es w', yields (emitMessage message) w tt es w' /\ silent es.
Proof.
  intros Q S. destruct (emitMessage_yields message w Q) as (w' & Y & _).
  eexists. exists w'. split; [exact Y|].
  apply silent_cons; [exact S | apply silent_deliveredTo].
Qed.

Lemma adviceFailed_yields rev cmd err w :
  quiet w -> exists es w', yields (adviceFailed rev cmd err) w tt es w' /\ silent es.
Proof.
  intros Q. unfold adviceFailed, consoleError.
  set (w0 := log (ConsoleError "Failed to get AI analysis:" err) w).
  assert (Y0 : yields (modify (log (ConsoleError "Failed to get AI analysis:" err))) w tt
                 [ConsoleError "Failed to get AI analysis:" err] w0).
  { now repeat split. }
  assert (S0 : silent [ConsoleError "Failed to get AI analysis:" err]) by now repeat split.
  destruct rev.
  - eexists. exists w0. split.
    + eapply yields_bind; [exact Y0 | apply yields_ret].
    + apply silent_app; [exact S0 | apply silent_nil].
  - destruct (yields_silent_message
                {| content :=
                     JString (warningSign ++ " Failed to get AI analysis for command: " ++ cmd);
                   sender := system; type := error; metadata := None |} w0 Q)
      as (es & w1 & Y1 & S1); [now repeat split|].
    eexists. exists w1. split.
    + eapply yields_bind; [exact Y0 | exact Y1].
    + apply silent_app; assumption.
Qed.

Lemma advice_yields rev cmd reply w :
  quiet w ->
  exists es w',
    yields
      (tryCatch
         (aiResponse <- awaitPost reply ;;
          explanation <- lift (replyContent (snd aiResponse)) ;;
          shown <- lift (JS.ToString explanation) ;;
          emitMessage
            {| content := JString (magnifier ++ " " ++ shown);
               sender := assistant; type := text; metadata := None |})
         (adviceFailed rev cmd)) w tt es w'
    /\ silent es.
Proof.
  intros Q. unfold yields, tryCatch, bind, lift.
  destruct reply as [status data|e]; cbn [awaitPost ret throw snd].
  - destruct (replyContent data) as [explanation|e].
    + destruct (JS.ToString explanation) as [shown|e].
      * destruct (yields_silent_message
                    {| content := JString (magnifier ++ " " ++ shown);
                       sender := assistant; type := text; metadata := None |} w Q)
          as (es & w1 & Y1 & S1); [now repeat split|].
        exists es, w1. split; [|exact S1]. destruct Y1 as (E & R). now rewrite E.
      * apply adviceFailed_yields, Q.
    + apply adviceFailed_yields, Q.
  - apply adviceFailed_yields, Q.
Qed.

Lemma executeCommand_begin_yields cmd w :
  quiet w -> config w <> None ->
  exists es w',
    yields (executeCommand_begin cmd) w true es w' /\
    executedCommands es = [cmd] /\
    emittedStatuses es = [] /\
    filter isCompletion (emittedMessages es) = [] /\
    fromSystem es.
Proof.
  intros Q C. unfold executeCommand_begin.
  destruct (emitMessage_yields
              {| content := JString ("Executing command: " ++ cmd);
                 sender := system; type := command;
                 metadata := Some {| meta_command := Some cmd;
                                     meta_exitCode := JUndefined |} |} w Q)
    as (w1 & Y1 & _).
  eexists. exists w1. split; [|split; [|split; [|split]]].
  - eapply yields_bind; [apply yields_get|]. cbv beta.
    destruct (config w); [|now elim C].
    eapply yields_bind; [exact Y1 | apply yields_ret].
  - read_trace. reflexivity.
  - read_trace. reflexivity.
  - read_trace. reflexivity.
  - unfold fromSystem. read_trace. reflexivity.
Qed.

(** No canned output, and no output of the fallback, is the text of the
    completion message. *)
Lemma output_not_completion cmd w :
  background
    [Emitted
       (PMessage
          (fullMessage w
             {| content := fst (simulateCommandExecution cmd);
                sender := system; type := result;
                metadata := Some {| meta_command := Some cmd;
                                    meta_exitCode := snd (simulateCommandExecution cmd) |}
             |}))].
Proof.
  unfold simulateCommandExecution, simulations. cbn [assoc].
  repeat match goal with
         | |- context [if String.eqb ?k cmd then _ else _] => destruct (String.eqb k cmd)
         end;
    try (now repeat split).
  destruct (existsb (String.eqb cmd) objectPrototypeKeys); now repeat split.
Qed.

Lemma executeCommand_resume_yields cmd w :
  quiet w ->
  exists es w', yields (executeCommand_resume cmd) w tt es w' /\ background es.
Proof.
  intros Q. unfold executeCommand_resume.
  destruct (emitMessage_yields
              {| content := fst (simulateCommandExecution cmd);
                 sender := system; type := result;
                 metadata := Some {| meta_command := Some cmd;
                                     meta_exitCode := snd (simulateCommandExecution cmd) |}
              |} w Q) as (w1 & Y1 & _).
  destruct (analyzeCommandResult_yields cmd (fst (simulateCommandExecution cmd)) w1)
    as (es2 & w2 & Y2 & _ & S2).
  { eapply quiet_same; [apply Y1 | exact Q]. }
  eexists. exists w2. split.
  - eapply yields_bind; [exact Y1 | exact Y2].
  - apply background_app; [|exact S2].
    apply background_cons; [apply output_not_completion | apply background_deliveredTo].
Qed.

(** ** sendMessage on a well-formed reply *)

Lemma executeCommand_yields cmd w :
  quiet w -> config w <> None ->
  exists es w',
    yields (executeCommand cmd) w tt es w' /\
    executedCommands es = [cmd] /\ fromSystem es.
Proof.
  intros Q C.
  destruct (executeCommand_begin_yields cmd w Q C)
    as (es1 & w1 & Y1 & X1 & _ & _ & F1).
  assert (Q1 : quiet w1) by (eapply quiet_same; [apply Y1 | exact Q]).
  destruct (executeCommand_resume_yields cmd w1 Q1) as (es2 & w2 & Y2 & (X2 & _) & F2).
  exists (es1 ++ es2)%list, w2. split; [|split].
  - unfold executeCommand. eapply yields_bind; [exact Y1 | exact Y2].
  - now rewrite executedCommands_app, X1, X2.
  - unfold fromSystem in *. now rewrite emittedMessages_app, filter_app, F1, F2.
Qed.

Lemma commands_yield commands w :
  quiet w -> config w <> None ->
  exists es w',
    yields (forOf commands executeCommand) w tt es w' /\
    executedCommands es = commands /\ fromSystem es.
Proof.
  revert w. induction commands as [|cmd rest IH]; intros w Q C.
  - exists [], w. split; [apply yields_ret | now split].
  - destruct (executeCommand_yields cmd w Q C) as (es1 & w1 & Y1 & X1 & F1).
    assert (S1 : sameService w w1) by apply Y1.
    destruct (IH w1 (quiet_same _ _ S1 Q)) as (es2 & w2 & Y2 & X2 & F2).
    { destruct S1 as (-> & _). exact C. }
    exists (es1 ++ es2)%list, w2. split; [|split].
    + cbn [forOf]. eapply yields_bind; [exact Y1 | exact Y2].
    + now rewrite executedCommands_app, X1, X2.
    + unfold fromSystem in *. now rewrite emittedMessages_app, filter_app, F1, F2.
Qed.

Lemma detect_yields response w :
  quiet w ->
  exists es w',
    yields (detectVulnerabilitiesFromResponse (JString response)) w tt es w' /\
    emittedMessages es = [].
Proof.
  intros Q. cbn [detectVulnerabilitiesFromResponse].
  destruct (0 <? List.length (foundKeywords response)).
  - destruct (emitVulnerability_yields
                {| title := "Potential Security Issue Identified";
                   description :=
                     "AI analysis suggests potential security concerns: "
                       ++ String.concat ", " (foundKeywords response);
                   severity := medium;
                   category := "Analysis";
                   affectedComponent := targetOf w;
                   recommendation :=
                     "Further investigation required based on AI analysis";
                   evidence := [JString response] |} w Q) as (w1 & Y1 & _).
    eexists. exists w1. split.
    + eapply yields_bind; [apply yields_get | exact Y1].
    + read_trace. reflexivity.
  - exists [], w. split; [apply yields_ret | reflexivity].
Qed.

(** With callbacks that return, a reply whose content is a string makes
    [sendMessage] emit the assistant message first and exactly once, then
    execute the extracted commands in order, and succeed. *)
Lemma sendMessage_succeeds prompt status data reply w :
  quiet w -> config w <> None ->
  replyContent data = Ok (JString reply) ->
  exists es w',
    sendMessage prompt (Resolved status data) w = (Ok tt, w') /\
    trace w'
    = (trace w
         ++ Emitted (PMessage (fullMessage w {| content := JString reply;
                                                sender := assistant; type := text;
                                                metadata := None |})) :: es)%list /\
    fromSystem es /\
    executedCommands es = extractCommands reply.
Proof.
  intros Q C R.
  destruct (emitMessage_yields
              {| content := JString reply; sender := assistant; type := text;
                 metadata := None |} w Q) as (w1 & Y1 & _).
  assert (S1 : sameService w w1) by apply Y1.
  assert (Q1 : quiet w1) by exact (quiet_same _ _ S1 Q).
  assert (C1 : config w1 <> None) by (destruct S1 as (-> & _); exact C).
  destruct (commands_yield (extractCommands reply) w1 Q1 C1) as (es2 & w2 & Y2 & X2 & F2).
  assert (S2 : sameService w1 w2) by apply Y2.
  destruct (detect_yields reply w2 (quiet_same _ _ S2 Q1)) as (es3 & w3 & Y3 & M3).
  assert (Y : yields
                (emitMessage {| content := JString reply; sender := assistant;
                                type := text; metadata := None |} ;;
                 analyzeAIResponse (JString reply)) w tt
                ((Emitted (PMessage (fullMessage w {| content := JString reply;
                                                      sender := assistant; type := text;
                                                      metadata := None |}))
                    :: deliveredTo PMessage (onMessage_listeners w)
                         (fullMessage w {| content := JString reply; sender := assistant;
                                           type := text; metadata := None |}))
                   ++ es2 ++ es3)%list w3).
  { eapply yields_bind; [exact Y1|].
    change (analyzeAIResponse (JString reply))
      with (forOf (extractCommands reply) executeCommand ;;
            detectVulnerabilitiesFromResponse (JString reply)).
    eapply yields_bind; [exact Y2 | exact Y3]. }
  destruct Y as (E & _ & T).
  eexists. exists w3. split; [|split; [|split]].
  - unfold sendMessage. destruct (config w); [|now elim C].
    unfold tryCatch. rewrite (bind_ok _ _ w (status, data) w eq_refl). cbn [snd].
    unfold lift at 1. rewrite (bind_ok _ _ w (JString reply) w); [|now rewrite R].
    now rewrite E.
  - rewrite T. cbn [app]. reflexivity.
  - unfold fromSystem in *. read_trace. rewrite F2, M3. reflexivity.
  - read_trace. rewrite X2. unfold executedCommands. rewrite M3. cbn.
    now rewrite app_nil_r.
Qed.

(** A content that cannot be converted to a string: [sendMessage] emits
    it as the assistant message, fails at the first [exec] and executes
    no command; a tick shows no explanation, reports the failure (in the
    second revision) and goes on to its command. *)
Example unconvertible_content :
  let sent := sendMessage "What next?" (Resolved 200 unconvertible) demoWorld in
  let tick := tick_posted Rev2 0 "whoami" (Resolved 200 unconvertible) demoWorld in
  fst sent = Throw (Error "Failed to communicate with AI model") /\
  List.length (emittedMessages (trace (snd sent))) = 1 /\
  executedCommands (trace (snd sent)) = [] /\
  fst tick = Ok (Pending (AwaitLatency 0 "whoami")) /\
  map (fun m => (sender (msg_init m), type (msg_init m))) (emittedMessages (trace (snd tick)))
  = [(system, error); (system, command)].
Proof. vm_compute. repeat split. Qed.

(** ** Claims on sendMessage *)

Lemma sendMessage_not_configured prompt reply w :
  config w = None ->
  sendMessage prompt reply w = (Throw (Error "Configuration not set"), w).
Proof. intros C. unfold sendMessage. now rewrite C. Qed.


(** C4, on the code. A 200 reply whose message lacks [content] is a
    malformed body, yet reading the path does not throw: [sendMessage]
    emits an assistant message whose content is [undefined], and only then
    fails with the wrapped error, when the keyword scan calls
    [toLowerCase] on [undefined].  And a reply resolved with a status other
    than 200 is not checked: with status 201 and a well-formed body the
    assistant message is emitted and the call succeeds. *)
Theorem C4_assistant_message_before_failure :
  let out := sendMessage "Scan the target" (Resolved 200 contentMissing) demoWorld in
  let out201 := sendMessage "Scan the target" (Resolved 201 wellFormed) demoWorld in
  replyContent contentMissing = Ok JUndefined /\
  fst out = Throw (Error "Failed to communicate with AI model") /\
  map (fun m => (sender (msg_init m), content (msg_init m)))
    (emittedMessages (trace (snd out))) = [(assistant, JUndefined)] /\
  fst out201 = Ok tt /\
  map (fun m => (sender (msg_init m), content (msg_init m)))
    (emittedMessages (trace (snd out201))) = [(assistant, JString "Nothing to report.")].
Proof. cbn zeta. repeat split. Qed.

(** ** Lists updated in place *)

Lemma length_updateAt {A} i (f : A -> A) l : List.length (updateAt i f l) = List.length l.
Proof.
  revert i. induction l as [|x l IH]; intros [|i]; cbn; [reflexivity ..|]. now rewrite IH.
Qed.

Lemma nth_error_updateAt_same {A} i (f : A -> A) l x :
  nth_error l i = Some x -> nth_error (updateAt i f l) i = Some (f x).
Proof.
  revert i. induction l as [|y l IH]; intros [|i] H; cbn in *; try discriminate.
  - now injection H as ->.
  - now apply IH.
Qed.

Lemma nth_error_updateAt_other {A} i j (f : A -> A) l :
  i <> j -> nth_error (updateAt i f l) j = nth_error l j.
Proof.
  revert i j. induction l as [|y l IH]; intros [|i] [|j] H; cbn; try reflexivity.
  - now elim H.
  - apply IH. congruence.
Qed.

Lemma nth_error_last {A} (l : list A) x : nth_error (l ++ [x])%list (List.length l) = Some x.
Proof. rewrite nth_error_app2, Nat.sub_diag; [reflexivity | lia]. Qed.

Lemma updateAt_last {A} (f : A -> A) l x :
  updateAt (List.length l) f (l ++ [x])%list = (l ++ [f x])%list.
Proof. induction l as [|y l IH]; cbn; [reflexivity | now rewrite IH]. Qed.

(** ** The scan, with callbacks that return *)

Lemma stopScan_quiet w :
  quiet w ->
  exists es w',
    stopScan w = (Ok tt, w') /\
    (config w' = config w /\
     onMessage_listeners w' = onMessage_listeners w /\
     onVulnerabilityFound_listeners w' = onVulnerabilityFound_listeners w /\
     onStatusChange_listeners w' = onStatusChange_listeners w /\
     now w' = now w /\ tasks w' = tasks w) /\
    scanInterval w' = None /\
    timers w'
    = match scanInterval w with
      | Some handle =>
          updateAt handle
            (fun t => {| timer_active := false; commandIndex := commandIndex t |})
            (timers w)
      | None => timers w
      end /\
    trace w' = (trace w ++ es)%list /\
    executedCommands es = [] /\
    emittedStatuses es = [Scanning false None] /\
    List.length (filter isCompletion (emittedMessages es)) = 1.
Proof.
  intros Q.
  set (w0 := match scanInterval w with
             | Some handle =>
                 set_scanInterval None
                   (set_timers
                      (updateAt handle
                         (fun t => {| timer_active := false; commandIndex := commandIndex t |})
                         (timers w)) w)
             | None => w
             end).
  assert (E0 : (match scanInterval w with
                | Some handle => clearInterval handle ;; modify (set_scanInterval None)
                | None => ret tt
                end) w = (Ok tt, w0)).
  { unfold w0. destruct (scanInterval w); reflexivity. }
  assert (F0 : config w0 = config w /\
               onMessage_listeners w0 = onMessage_listeners w /\
               onVulnerabilityFound_listeners w0 = onVulnerabilityFound_listeners w /\
               onStatusChange_listeners w0 = onStatusChange_listeners w /\
               now w0 = now w /\ tasks w0 = tasks w /\ trace w0 = trace w /\
               scanInterval w0 = None /\
               timers w0
               = match scanInterval w with
                 | Some handle =>
                     updateAt handle
                       (fun t => {| timer_active := false; commandIndex := commandIndex t |})
                       (timers w)
                 | None => timers w
                 end).
  { unfold w0. destruct (scanInterval w) eqn:S; cbn; now repeat split. }
  destruct F0 as (C0 & M0 & V0 & S0 & N0 & K0 & T0 & I0 & Ti0).
  assert (Q0 : quiet w0).
  { destruct Q as (Qm & Qv & Qs). unfold quiet. rewrite M0, V0, S0. now repeat split. }
  destruct (emitStatusChange_yields (Scanning false None) w0 Q0)
    as (w1 & (E1 & S1 & T1) & _).
  assert (Q1 : quiet w1) by (eapply quiet_same; eassumption).
  destruct (emitMessage_yields
              {| content := JString "Automatic scan completed.";
                 sender := system; type := text; metadata := None |} w1 Q1)
    as (w2 & (E2 & S2 & T2) & _).
  destruct (sameService_trans _ _ _ S1 S2) as (C & M & V & S & I & Ti & K & N).
  eexists. exists w2. split; [|split; [|split; [|split; [|split; [|split; [|split]]]]]].
  - unfold stopScan, bind, get. unfold bind in E0. rewrite E0, E1. exact E2.
  - repeat split; congruence.
  - congruence.
  - congruence.
  - rewrite T2, T1, T0, <- app_assoc. reflexivity.
  - read_trace. reflexivity.
  - read_trace. reflexivity.
  - read_trace. reflexivity.
Qed.

Lemma startAutomaticScan_quiet w :
  quiet w -> config w <> None ->
  exists es w',
    startAutomaticScan w = (Ok tt, w') /\
    midScan w (List.length (timers w)) 0 (List.length (tasks w)) w' /\
    timers w' = (timers w ++ [{| timer_active := true; commandIndex := 0 |}])%list /\
    trace w' = (trace w ++ es)%list /\
    executedCommands es = [] /\
    emittedStatuses es = [Scanning true (Some (now w))] /\
    filter isCompletion (emittedMessages es) = [].
Proof.
  intros Q C.
  destruct (emitStatusChange_yields (Scanning true (Some (now w))) w Q)
    as (w1 & (E1 & S1 & T1) & _).
  assert (Q1 : quiet w1) by (eapply quiet_same; eassumption).
  destruct (emitMessage_yields
              {| content := JString "Starting automatic security scan...";
                 sender := system; type := text; metadata := None |} w1 Q1)
    as (w2 & (E2 & S2 & T2) & _).
  destruct (sameService_trans _ _ _ S1 S2) as (C2 & M & V & S & I & Ti & K & N).
  eexists. eexists. split; [|split; [|split; [|split; [|split; [|split]]]]].
  - unfold startAutomaticScan. destruct (config w); [|now elim C].
    unfold bind. rewrite E1, E2. unfold setInterval, modify. reflexivity.
  - unfold midScan. cbn. rewrite Ti. repeat split; try assumption.
    + apply nth_error_last.
    + now rewrite K.
  - cbn. now rewrite Ti.
  - cbn. rewrite T2, T1, <- app_assoc. reflexivity.
  - read_trace. reflexivity.
  - read_trace. reflexivity.
  - read_trace. reflexivity.
Qed.

Lemma midScan_quiet w0 tid j k w : midScan w0 tid j k w -> quiet w0 -> quiet w.
Proof.
  intros (_ & M & V & S & _) (Qm & Qv & Qs). unfold quiet. rewrite M, V, S.
  now repeat split.
Qed.

Lemma tick_fire_midScan rev w0 tid j k w :
  config w0 <> None -> midScan w0 tid j k w -> j < List.length scanCommands ->
  step rev (TimerFires tid) w
  = set_tasks (tasks w ++ [Some (AwaitPost tid (nth j scanCommands EmptyString))])%list w.
Proof.
  intros C (Cw & _ & _ & _ & _ & _ & T & _) J.
  cbn [step]. rewrite T. cbn [timer_active].
  unfold tick_fire, bind, get. rewrite T. cbn [commandIndex].
  apply Nat.leb_gt in J. rewrite J.
  rewrite Cw. destruct (config w0); [reflexivity | now elim C].
Qed.

Lemma tick_posted_quiet rev tid cmd reply w :
  quiet w -> config w <> None ->
  exists es w',
    tick_posted rev tid cmd reply w = (Ok (Pending (AwaitLatency tid cmd)), w') /\
    sameService w w' /\
    trace w' = (trace w ++ es)%list /\
    executedCommands es = [cmd] /\
    emittedStatuses es = [] /\
    filter isCompletion (emittedMessages es) = [].
Proof.
  intros Q C.
  destruct (advice_yields rev cmd reply w Q) as (es1 & w1 & (E1 & S1 & T1) & Si1).
  assert (Q1 : quiet w1) by (eapply quiet_same; eassumption).
  assert (C1 : config w1 <> None) by (destruct S1 as (-> & _); exact C).
  destruct (executeCommand_begin_yields cmd w1 Q1 C1)
    as (es2 & w2 & (E2 & S2 & T2) & X2 & St2 & Co2 & _).
  exists (es1 ++ es2)%list, w2. destruct Si1 as (X1 & St1 & Co1).
  split; [|split; [|split; [|split; [|split]]]].
  - unfold tick_posted, tick_execute.
    rewrite (bind_ok _ _ _ _ _ E1), (bind_ok _ _ _ _ _ E2). reflexivity.
  - eapply sameService_trans; eassumption.
  - now rewrite T2, T1, app_assoc.
  - now rewrite executedCommands_app, X1, X2.
  - now rewrite emittedStatuses_app, St1, St2.
  - now rewrite emittedMessages_app, filter_app, Co1, Co2.
Qed.

Lemma tick_simulated_quiet tid cmd w :
  quiet w ->
  exists es w1,
    tick_simulated tid cmd w
    = (Ok Finished,
       set_timers
         (updateAt tid
            (fun t => {| timer_active := timer_active t;
                         commandIndex := S (commandIndex t) |})
            (timers w1)) w1) /\
    sameService w w1 /\
    trace w1 = (trace w ++ es)%list /\
    silent es.
Proof.
  intros Q.
  destruct (executeCommand_resume_yields cmd w Q) as (es & w1 & (E & S & T) & Si & _).
  exists es, w1. split; [|split; [exact S | split; [exact T | exact Si]]].
  unfold tick_simulated. rewrite (bind_ok _ _ _ _ _ E). reflexivity.
Qed.

Lemma sequential_tick rev w0 tid j k w reply :
  quiet w0 -> config w0 <> None ->
  midScan w0 tid j k w -> j < List.length scanCommands ->
  exists es,
    midScan w0 tid (S j) (S k)
      (run rev [TimerFires tid; PostSettles k reply; LatencyElapses k] w) /\
    trace (run rev [TimerFires tid; PostSettles k reply; LatencyElapses k] w)
    = (trace w ++ es)%list /\
    executedCommands es = [nth j scanCommands EmptyString] /\
    emittedStatuses es = [] /\
    filter isCompletion (emittedMessages es) = [].
Proof.
  intros Q C Mid J. pose proof Mid as (Cw & Mw & Vw & Sw & Nw & Iw & Tw & Kw).
  cbn [run]. rewrite (tick_fire_midScan rev w0 tid j k w C Mid J).
  set (cmd := nth j scanCommands EmptyString).
  set (wa := set_tasks (tasks w ++ [Some (AwaitPost tid cmd)])%list w).
  assert (Qa : quiet wa) by exact (midScan_quiet _ _ _ _ _ Mid Q).
  assert (Ca : config wa <> None) by (cbn; now rewrite Cw).
  destruct (tick_posted_quiet rev tid cmd reply wa Qa Ca)
    as (es1 & w1 & E1 & S1 & T1 & X1 & St1 & Co1).
  assert (P : step rev (PostSettles k reply) wa
              = set_tasks (tasks w ++ [Some (AwaitLatency tid cmd)])%list w1).
  { cbn [step]. subst k. cbn [tasks wa set_tasks]. rewrite nth_error_last, E1.
    cbn [suspensionOf]. destruct S1 as (_&_&_&_&_&_&K1&_). rewrite K1.
    cbn [tasks wa set_tasks]. now rewrite updateAt_last. }
  rewrite P. clear P.
  set (wb := set_tasks (tasks w ++ [Some (AwaitLatency tid cmd)])%list w1).
  assert (Qb : quiet wb) by exact (quiet_same _ _ S1 Qa).
  destruct (tick_simulated_quiet tid cmd wb Qb) as (es2 & w2 & E2 & S2 & T2 & Si2).
  assert (L : step rev (LatencyElapses k) wb
              = set_tasks (tasks w ++ [None])%list
                  (set_timers
                     (updateAt tid
                        (fun t => {| timer_active := timer_active t;
                                     commandIndex := S (commandIndex t) |})
                        (timers w2)) w2)).
  { cbn [step]. subst k. cbn [tasks wb set_tasks]. rewrite nth_error_last, E2.
    cbn [suspensionOf tasks set_tasks set_timers].
    destruct S2 as (_&_&_&_&_&_&K2&_). rewrite K2.
    cbn [tasks wb set_tasks]. now rewrite updateAt_last. }
  rewrite L. clear L.
  destruct S1 as (C1 & M1 & V1 & Sx1 & I1 & Ti1 & K1 & N1).
  destruct S2 as (C2 & M2 & V2 & Sx2 & I2 & Ti2 & K2 & N2).
  cbn in C1, M1, V1, Sx1, I1, Ti1, K1, N1, C2, M2, V2, Sx2, I2, Ti2, K2, N2, T1, T2.
  exists (es1 ++ es2)%list. destruct Si2 as (X2 & St2 & Co2).
  split; [|split; [|split; [|split]]].
  - unfold midScan. cbn. repeat split; try congruence.
    + rewrite Ti2, Ti1. now rewrite (nth_error_updateAt_same _ _ _ _ Tw).
    + rewrite length_app. cbn. lia.
  - cbn. now rewrite T2, T1, app_assoc.
  - now rewrite executedCommands_app, X1, X2.
  - now rewrite emittedStatuses_app, St1, St2.
  - now rewrite emittedMessages_app, filter_app, Co1, Co2.
Qed.

Lemma sequential_ticks rev w0 tid replies :
  quiet w0 -> config w0 <> None ->
  forall j k w,
    midScan w0 tid j k w ->
    j + List.length replies <= List.length scanCommands ->
    exists es,
      midScan w0 tid (j + List.length replies) (k + List.length replies)
        (run rev (sequentialTicks tid k replies) w) /\
      trace (run rev (sequentialTicks tid k replies) w) = (trace w ++ es)%list /\
      executedCommands es = firstn (List.length replies) (skipn j scanCommands) /\
      emittedStatuses es = [] /\
      filter isCompletion (emittedMessages es) = [].
Proof.
  intros Q C. induction replies as [|reply rest IH]; intros j k w Mid J.
  - exists []. cbn [sequentialTicks run List.length]. rewrite !Nat.add_0_r, app_nil_r.
    split; [exact Mid | now repeat split].
  - cbn [List.length] in *.
    destruct (sequential_tick rev w0 tid j k w reply Q C Mid ltac:(lia))
      as (es1 & Mid1 & T1 & X1 & St1 & Co1).
    change (sequentialTicks tid k (reply :: rest))
      with ([TimerFires tid; PostSettles k reply; LatencyElapses k]
              ++ sequentialTicks tid (S k) rest)%list.
    assert (R : forall a b w, run rev (a ++ b)%list w = run rev b (run rev a w)).
    { clear. induction a as [|i a IHa]; intros b w; cbn; [reflexivity | apply IHa]. }
    rewrite R.
    destruct (IH (S j) (S k) _ Mid1 ltac:(lia)) as (es2 & Mid2 & T2 & X2 & St2 & Co2).
    exists (es1 ++ es2)%list. split; [|split; [|split; [|split]]].
    + now rewrite <- !Nat.add_succ_comm.
    + now rewrite T2, T1, app_assoc.
    + rewrite executedCommands_app, X1, X2.
      assert (N : forall (l : list string) n d, n < List.length l ->
                    (nth n l d :: firstn (List.length rest) (skipn (S n) l))%list
                    = firstn (S (List.length rest)) (skipn n l)).
      { clear. induction l as [|x l IHl]; intros n d H; [cbn in H; lia|].
        destruct n; [reflexivity|]. cbn [nth skipn]. apply IHl. cbn in H. lia. }
      apply N. lia.
    + now rewrite emittedStatuses_app, St1, St2.
    + now rewrite emittedMessages_app, filter_app, Co1, Co2.
Qed.

Lemma final_fire rev w0 tid k w :
  quiet w0 -> midScan w0 tid (List.length scanCommands) k w ->
  exists es,
    let w' := step rev (TimerFires tid) w in
    trace w' = (trace w ++ es)%list /\
    executedCommands es = [] /\
    emittedStatuses es = [Scanning false None] /\
    List.length (filter isCompletion (emittedMessages es)) = 1 /\
    scanInterval w' = None /\
    nth_error (timers w') tid
    = Some {| timer_active := false; commandIndex := List.length scanCommands |}.
Proof.
  intros Q Mid. pose proof Mid as (Cw & Mw & Vw & Sw & Nw & Iw & Tw & Kw).
  destruct (stopScan_quiet w (midScan_quiet _ _ _ _ _ Mid Q))
    as (es & w1 & E & _ & I1 & Ti1 & T1 & X1 & St1 & Co1).
  exists es. cbn zeta. cbn [step]. rewrite Tw. cbn [timer_active].
  unfold tick_fire, bind, get. rewrite Tw. cbn [commandIndex].
  rewrite Nat.leb_refl. unfold bind in E. rewrite E. cbn [suspensionOf ret].
  repeat split; try assumption.
  rewrite Ti1, Iw. now rewrite (nth_error_updateAt_same _ _ _ _ Tw).
Qed.

Lemma run_app rev a b w : run rev (a ++ b)%list w = run rev b (run rev a w).
Proof. revert w. induction a as [|i a IH]; intros w; cbn; [reflexivity | apply IH]. Qed.

Lemma filter_none {A} (f : A -> bool) l :
  (forall i x, nth_error l i = Some x -> f x = false) -> filter f l = [].
Proof.
  induction l as [|y l IH]; intros H; [reflexivity|]. cbn.
  rewrite (H 0 y eq_refl). apply IH. intros i x Hx. exact (H (S i) x Hx).
Qed.

Lemma stopScan_clears_all w w' :
  noStrayTimer w ->
  timers w'
  = match scanInterval w with
    | Some handle =>
        updateAt handle
          (fun t => {| timer_active := false; commandIndex := commandIndex t |})
          (timers w)
    | None => timers w
    end ->
  scheduledTimers w' = 0.
Proof.
  intros N T. unfold scheduledTimers. rewrite T, filter_none; [reflexivity|].
  intros i x Hx. destruct (timer_active x) eqn:A; [exfalso | reflexivity].
  destruct (scanInterval w) as [h|] eqn:S.
  - destruct (Nat.eq_dec h i) as [->|Ne].
    + destruct (nth_error (timers w) i) as [t|] eqn:Ht.
      * rewrite (nth_error_updateAt_same _ _ _ _ Ht) in Hx. injection Hx as <-.
        discriminate A.
      * assert (Hl : nth_error
                       (updateAt i
                          (fun t => {| timer_active := false;
                                       commandIndex := commandIndex t |}) (timers w)) i
                     = None).
        { apply nth_error_None. rewrite length_updateAt. now apply nth_error_None. }
        congruence.
    + rewrite (nth_error_updateAt_other _ _ _ _ Ne) in Hx.
      pose proof (N i x Hx A) as E. congruence.
  - pose proof (N i x Hx A) as E. congruence.
Qed.

(** ** One timer, unless the scan is restarted *)

Lemma sameTimers_refl w : sameTimers w w.
Proof. now split. Qed.

Lemma sameTimers_trans w1 w2 w3 : sameTimers w1 w2 -> sameTimers w2 w3 -> sameTimers w1 w3.
Proof. intros [A1 B1] [A2 B2]. split; congruence. Qed.

Lemma keepsTimers_ret {A} (a : A) : keepsTimers (ret a).
Proof. intros w. apply sameTimers_refl. Qed.

Lemma keepsTimers_throw {A} e : keepsTimers (throw (A := A) e).
Proof. intros w. apply sameTimers_refl. Qed.

Lemma keepsTimers_lift {A} (r : Result A) : keepsTimers (lift r).
Proof. intros w. apply sameTimers_refl. Qed.

Lemma keepsTimers_get : keepsTimers get.
Proof. intros w. apply sameTimers_refl. Qed.

Lemma keepsTimers_bind {A B} (m : M A) (f : A -> M B) :
  keepsTimers m -> (forall a, keepsTimers (f a)) -> keepsTimers (bind m f).
Proof.
  intros Hm Hf w. unfold bind. specialize (Hm w). destruct (m w) as [[a|e] w1]; cbn in *.
  - eapply sameTimers_trans; [exact Hm | apply Hf].
  - exact Hm.
Qed.

Lemma keepsTimers_tryCatch {A} (m : M A) (h : JSError -> M A) :
  keepsTimers m -> (forall e, keepsTimers (h e)) -> keepsTimers (tryCatch m h).
Proof.
  intros Hm Hh w. unfold tryCatch. specialize (Hm w). destruct (m w) as [[a|e] w1]; cbn in *.
  - exact Hm.
  - eapply sameTimers_trans; [exact Hm | apply Hh].
Qed.

Lemma keepsTimers_forOf {A} (xs : list A) (body : A -> M unit) :
  (forall x, keepsTimers (body x)) -> keepsTimers (forOf xs body).
Proof.
  intros H. induction xs as [|x xs IH]; cbn [forOf].
  - apply keepsTimers_ret.
  - apply keepsTimers_bind; [apply H | intros _; exact IH].
Qed.

Lemma keepsTimers_emitMessage message : keepsTimers (emitMessage message).
Proof.
  intros w. unfold emitMessage.
  destruct (forEach_trace PMessage (fullMessage w message) (onMessage_listeners w)
              (log (Emitted (PMessage (fullMessage w message)))
                 (set_messageId (S (messageId w)) w))) as [called E].
  unfold fullMessage in E. rewrite E. now split.
Qed.

Lemma keepsTimers_emitVulnerability v : keepsTimers (emitVulnerability v).
Proof.
  intros w. destruct (emitVulnerability_world v w) as [called ->]. now split.
Qed.

Lemma keepsTimers_emitStatusChange status : keepsTimers (emitStatusChange status).
Proof.
  intros w. unfold emitStatusChange.
  destruct (forEach_trace PStatus status (onStatusChange_listeners w)
              (log (Emitted (PStatus status)) w)) as [called ->].
  now split.
Qed.

Lemma keepsTimers_consoleError label e : keepsTimers (consoleError label e).
Proof. intros w. now split. Qed.

Lemma map_updateAt {A B} (g : A -> B) (f : A -> A) i l :
  (forall x, g (f x) = g x) -> map g (updateAt i f l) = map g l.
Proof.
  intros H. revert i. induction l as [|x l IH]; intros [|i]; cbn; try reflexivity.
  - now rewrite H.
  - now rewrite IH.
Qed.

Lemma keepsTimers_incrementCommandIndex tid : keepsTimers (incrementCommandIndex tid).
Proof.
  intros w. split; [|reflexivity]. cbn. now apply map_updateAt.
Qed.

Lemma keepsTimers_analyzeCommandResult cmd output :
  keepsTimers (analyzeCommandResult cmd output).
Proof.
  apply keepsTimers_forOf. intros r. destruct (pattern r (JS.toString output)).
  - apply keepsTimers_bind; [apply keepsTimers_get | intros w].
    apply keepsTimers_bind; [apply keepsTimers_emitVulnerability | intros _].
    apply keepsTimers_emitMessage.
  - apply keepsTimers_ret.
Qed.

Lemma keepsTimers_executeCommand_begin cmd : keepsTimers (executeCommand_begin cmd).
Proof.
  apply keepsTimers_bind; [apply keepsTimers_get | intros w].
  destruct (config w); [|apply keepsTimers_ret].
  apply keepsTimers_bind; [apply keepsTimers_emitMessage | intros _; apply keepsTimers_ret].
Qed.

Lemma keepsTimers_executeCommand_resume cmd : keepsTimers (executeCommand_resume cmd).
Proof.
  apply keepsTimers_bind; [apply keepsTimers_emitMessage | intros _].
  apply keepsTimers_analyzeCommandResult.
Qed.

Lemma keepsTimers_adviceFailed rev cmd err : keepsTimers (adviceFailed rev cmd err).
Proof.
  apply keepsTimers_bind; [apply keepsTimers_consoleError | intros _].
  destruct rev; [apply keepsTimers_ret | apply keepsTimers_emitMessage].
Qed.

Lemma keepsTimers_tick_execute tid cmd : keepsTimers (tick_execute tid cmd).
Proof.
  apply keepsTimers_bind; [apply keepsTimers_executeCommand_begin | intros started].
  destruct started; [apply keepsTimers_ret|].
  apply keepsTimers_bind;
    [apply keepsTimers_incrementCommandIndex | intros _; apply keepsTimers_ret].
Qed.

Lemma keepsTimers_tick_posted rev tid cmd reply :
  keepsTimers (tick_posted rev tid cmd reply).
Proof.
  apply keepsTimers_bind; [|intros _; apply keepsTimers_tick_execute].
  apply keepsTimers_tryCatch; [|intros e; apply keepsTimers_adviceFailed].
  apply keepsTimers_bind.
  - destruct reply; [apply keepsTimers_ret | apply keepsTimers_throw].
  - intros aiResponse. apply keepsTimers_bind; [apply keepsTimers_lift | intros c].
    apply keepsTimers_bind; [apply keepsTimers_lift | intros shown].
    apply keepsTimers_emitMessage.
Qed.

Lemma keepsTimers_tick_simulated tid cmd : keepsTimers (tick_simulated tid cmd).
Proof.
  apply keepsTimers_bind; [apply keepsTimers_executeCommand_resume | intros _].
  apply keepsTimers_bind;
    [apply keepsTimers_incrementCommandIndex | intros _; apply keepsTimers_ret].
Qed.

Lemma noStrayTimer_same w w' : sameTimers w w' -> noStrayTimer w -> noStrayTimer w'.
Proof.
  intros [F I] N i t H A. rewrite I.
  assert (Hm : nth_error (map timer_active (timers w')) i = Some true).
  { rewrite nth_error_map, H. cbn. now rewrite A. }
  rewrite F, nth_error_map in Hm.
  destruct (nth_error (timers w) i) as [t0|] eqn:H0; [|discriminate].
  cbn in Hm. injection Hm as A0. exact (N i t0 H0 A0).
Qed.

(** Whatever the callbacks do, [stopScan] leaves no stray timer. *)
Lemma noStrayTimer_stopScan w : noStrayTimer w -> noStrayTimer (snd (stopScan w)).
Proof.
  intros N.
  set (w0 := match scanInterval w with
             | Some handle =>
                 set_scanInterval None
                   (set_timers
                      (updateAt handle
                         (fun t => {| timer_active := false; commandIndex := commandIndex t |})
                         (timers w)) w)
             | None => w
             end).
  assert (E0 : (match scanInterval w with
                | Some handle => clearInterval handle ;; modify (set_scanInterval None)
                | None => ret tt
                end) w = (Ok tt, w0)).
  { unfold w0. destruct (scanInterval w); reflexivity. }
  assert (N0 : noStrayTimer w0).
  { intros i t H A. exfalso.
    assert (S0 : scheduledTimers w0 = 0).
    { apply (stopScan_clears_all w w0 N). unfold w0. now destruct (scanInterval w). }
    unfold scheduledTimers in S0. apply length_zero_iff_nil in S0.
    assert (In t (filter timer_active (timers w0))).
    { apply filter_In. split; [eapply nth_error_In; exact H | exact A]. }
    rewrite S0 in H0. contradiction. }
  assert (K : keepsTimers
                (emitStatusChange (Scanning false None) ;;
                 emitMessage
                   {| content := JString "Automatic scan completed.";
                      sender := system; type := text; metadata := None |})).
  { apply keepsTimers_bind; [apply keepsTimers_emitStatusChange | intros _].
    apply keepsTimers_emitMessage. }
  unfold stopScan. unfold bind at 1. unfold get. rewrite (bind_ok _ _ _ _ _ E0).
  exact (noStrayTimer_same _ _ (K w0) N0).
Qed.

Lemma noStrayTimer_startAutomaticScan w :
  noStrayTimer w -> scanInterval w = None ->
  noStrayTimer (snd (startAutomaticScan w)).
Proof.
  intros N I. unfold startAutomaticScan. destruct (config w); [|exact N].
  unfold bind.
  pose proof (keepsTimers_emitStatusChange (Scanning true (Some (now w))) w) as K1.
  destruct (emitStatusChange (Scanning true (Some (now w))) w) as [[[]|e1] w1];
    cbn [snd] in *; [|exact (noStrayTimer_same _ _ K1 N)].
  pose proof (keepsTimers_emitMessage
                {| content := JString "Starting automatic security scan...";
                   sender := system; type := text; metadata := None |} w1) as K2.
  destruct (emitMessage
              {| content := JString "Starting automatic security scan...";
                 sender := system; type := text; metadata := None |} w1)
    as [[[]|e2] w2]; cbn [snd] in *;
    [|exact (noStrayTimer_same _ _ (sameTimers_trans _ _ _ K1 K2) N)].
  pose proof (noStrayTimer_same _ _ (sameTimers_trans _ _ _ K1 K2) N) as N2.
  assert (I2 : scanInterval w2 = None).
  { destruct K1 as [_ J1], K2 as [_ J2]. congruence. }
  cbn. intros i t H A. cbn in H.
  destruct (Nat.lt_ge_cases i (List.length (timers w2))) as [L|G].
  - rewrite nth_error_app1 in H by exact L.
    pose proof (N2 i t H A) as J. congruence.
  - rewrite nth_error_app2 in H by exact G.
    destruct (i - List.length (timers w2)) as [|d] eqn:D.
    + cbn. f_equal. lia.
    + destruct d; discriminate H.
Qed.

(** Each step of the event loop keeps the invariant, but a start while
    the service holds a handle. *)
Lemma noStrayTimer_step rev i w :
  noStrayTimer w -> (i = StartScan -> scanInterval w = None) ->
  noStrayTimer (step rev i w).
Proof.
  intros N G. destruct i as [cfg| | |tid|k reply|k|t]; cbn [step].
  - exact N.
  - now apply noStrayTimer_startAutomaticScan, G.
  - now apply noStrayTimer_stopScan.
  - destruct (nth_error (timers w) tid) as [t|] eqn:H; [|exact N].
    destruct (timer_active t); [|exact N].
    assert (Nf : noStrayTimer (snd (tick_fire rev tid w))).
    { unfold tick_fire. unfold bind at 1. unfold get. rewrite H.
      destruct (List.length scanCommands <=? commandIndex t).
      - pose proof (noStrayTimer_stopScan w N) as Ns.
        unfold bind. destruct (stopScan w) as [[[]|e] w1]; exact Ns.
      - destruct (config w).
        + exact N.
        + refine (noStrayTimer_same _ _ _ N).
          apply (keepsTimers_bind (adviceFailed rev _ TypeError)
                   (fun _ => tick_execute tid _));
            [apply keepsTimers_adviceFailed | intros _; apply keepsTimers_tick_execute]. }
    destruct (tick_fire rev tid w) as [r w1]. cbn [snd] in Nf.
    destruct (suspensionOf r); exact Nf.
  - destruct (nth_error (tasks w) k) as [[[tid cmd|tid cmd]|]|]; try exact N.
    pose proof (keepsTimers_tick_posted rev tid cmd reply w) as K.
    destruct (tick_posted rev tid cmd reply w) as [r w1]. cbn [snd] in K.
    exact (noStrayTimer_same _ _ K N).
  - destruct (nth_error (tasks w) k) as [[[tid cmd|tid cmd]|]|]; try exact N.
    pose proof (keepsTimers_tick_simulated tid cmd w) as K.
    destruct (tick_simulated tid cmd w) as [r w1]. cbn [snd] in K.
    exact (noStrayTimer_same _ _ K N).
  - exact N.
Qed.

Lemma noStrayTimer_one w : noStrayTimer w -> scheduledTimers w <= 1.
Proof.
  unfold noStrayTimer, scheduledTimers. intros N.
  assert (G : forall (l : list Timer) h,
             (forall i t, nth_error l i = Some t -> timer_active t = true -> h = Some i) ->
             List.length (filter timer_active l) <= 1).
  { clear. induction l as [|x l IH]; intros h H; [cbn; lia|].
    cbn [filter]. destruct (timer_active x) eqn:A.
    - pose proof (H 0 x eq_refl A) as H0. cbn [List.length].
      rewrite filter_none; [cbn; lia|]. intros i t Ht.
      destruct (timer_active t) eqn:At; [|reflexivity].
      pose proof (H (S i) t Ht At). congruence.
    - apply (IH (option_map pred h)). intros i t Ht At.
      now rewrite (H (S i) t Ht At). }
  exact (G _ _ N).
Qed.

(** As long as the scan is not started while the service holds a timer
    handle, every run of the event loop, with any callbacks and any
    interleaving of ticks, keeps at most one timer scheduled: the one
    whose handle the service holds. *)
Theorem one_timer_unless_restarted rev inputs w :
  noStrayTimer w -> neverRestarted rev inputs w ->
  noStrayTimer (run rev inputs w) /\ scheduledTimers (run rev inputs w) <= 1.
Proof.
  revert w. induction inputs as [|i rest IH]; intros w N G; cbn [run].
  - split; [exact N | now apply noStrayTimer_one].
  - destruct G as [G1 G2]. apply IH; [|exact G2]. now apply noStrayTimer_step.
Qed.

Example initial_has_no_stray_timer t : noStrayTimer (initial t).
Proof. intros [|i] x H; discriminate H. Qed.

(** ** Claims on the scan timer *)

(** C3, on the code. [startAutomaticScan] called while a scan is active
    overwrites the handle without clearing the timer it held: two timers
    are then scheduled, and [stopScan] retires only the second. *)
Theorem C3_second_start_leaves_two_timers :
  let w := run Rev2 [StartScan; StartScan] demoWorld in
  scheduledTimers demoWorld = 0 /\
  scheduledTimers w = 2 /\
  scanInterval w = Some 1 /\
  scheduledTimers (run Rev2 [StopScan] w) = 1 /\
  scanInterval (run Rev2 [StopScan] w) = None.
Proof. cbn zeta. repeat split. Qed.

(** In either revision, from any configured state and with callbacks that
    return: the second start adds a timer and clears none. *)
Lemma second_start_adds_a_timer rev w :
  quiet w -> config w <> None ->
  scheduledTimers (run rev [StartScan; StartScan] w) = scheduledTimers w + 2 /\
  scanInterval (run rev [StartScan; StartScan] w) = Some (S (List.length (timers w))).
Proof.
  intros Q C. cbn [run step].
  destruct (startAutomaticScan_quiet w Q C) as (es1 & w1 & E1 & Mid1 & Ti1 & _).
  rewrite E1. cbn [snd].
  assert (Q1 : quiet w1) by exact (midScan_quiet _ _ _ _ _ Mid1 Q).
  assert (C1 : config w1 <> None) by (destruct Mid1 as (-> & _); exact C).
  destruct (startAutomaticScan_quiet w1 Q1 C1) as (es2 & w2 & E2 & Mid2 & Ti2 & _).
  rewrite E2. cbn [snd]. split.
  - unfold scheduledTimers. rewrite Ti2, Ti1, !filter_app, !length_app. cbn. lia.
  - destruct Mid2 as (_&_&_&_&_& I2 &_). rewrite I2, Ti1, length_app. cbn.
    f_equal. lia.
Qed.

(** The same in the first revision. *)
Example second_start_leaves_two_timers_Rev1 :
  scheduledTimers (run Rev1 [StartScan; StartScan] demoWorld) = 2.
Proof. reflexivity. Qed.

(** What the lost timer then does: [stopScan] cannot reach it, its ticks
    run the whole sequence, and once the sequence is exhausted each of
    its fires announces the end of the scan again. *)
Example lost_timer_keeps_firing :
  let w :=
    run Rev2
      ([StartScan; StartScan; StopScan]
         ++ sequentialTicks 0 0 (repeat (Rejected refused) 10)
         ++ [TimerFires 0; TimerFires 0; TimerFires 0])%list demoWorld in
  executedCommands (trace w) = scanCommands /\
  List.length (filter isCompletion (emittedMessages (trace w))) = 4 /\
  scheduledTimers w = 1.
Proof. vm_compute. repeat split. Qed.

(** ** Claims on the scan *)

(** C8, a defect of the code.  The interval callback reads the cursor
    [commandIndex] when it starts and increments it only after it has
    awaited the reply of the model and the simulated execution; nothing
    keeps the timer from firing in between.  In the run below the
    callbacks return, the scan is started once and never stopped, and the
    timer fires a second time before the first tick has its reply: both
    ticks read the same cursor, and the scan, run to its end, has
    executed [whoami] twice and [id] never, in both revisions.  The end
    of the scan is as claimed: the timer is cleared and one
    [scanning: false] status and one completion message are emitted. *)
Theorem C8_overlapping_ticks_repeat_a_command :
  forall rev,
    let w := run rev overlappingScan demoWorld in
    quiet demoWorld /\
    hd_error overlappingScan = Some StartScan /\
    ~ In StartScan (tl overlappingScan) /\
    ~ In StopScan overlappingScan /\
    executedCommands (trace w)
    = ("whoami" :: "whoami" :: skipn 2 scanCommands)%list /\
    executedCommands (trace w) <> scanCommands /\
    ~ In "id" (executedCommands (trace w)) /\
    scheduledTimers w = 0 /\
    scanInterval w = None /\
    filter isScanningFalse (emittedStatuses (trace w)) = [Scanning false None] /\
    List.length (filter isCompletion (emittedMessages (trace w))) = 1.
Proof.
  intros rev. cbn zeta.
  assert (X : executedCommands (trace (run rev overlappingScan demoWorld))
              = ("whoami" :: "whoami" :: skipn 2 scanCommands)%list)
    by (destruct rev; vm_compute; reflexivity).
  split; [|split; [|split; [|split; [|split; [|split; [|split]]]]]].
  - repeat split; intros s x [<-|[]]; reflexivity.
  - reflexivity.
  - unfold overlappingScan. cbn [app sequentialTicks repeat In tl].
    intuition discriminate.
  - unfold overlappingScan. cbn [app sequentialTicks repeat In].
    intuition discriminate.
  - exact X.
  - rewrite X. discriminate.
  - rewrite X. cbn [skipn scanCommands In]. intuition discriminate.
  - destruct rev; vm_compute; repeat split.
Qed.

(** ** A scan whose ticks do not overlap *)

(** With callbacks that return, a scan started by [startAutomaticScan]
    whose ticks do not overlap (each tick has its reply and the result of
    its command before the timer fires again), with no second start and
    no [stopScan] in between, executes one command of the fixed sequence
    per tick, in the order of the sequence and each exactly once,
    whatever the replies of the model are; at the fire that finds the
    sequence exhausted, the timer is cleared and exactly one
    [scanning: false] status and one completion message are emitted. *)
Theorem sequential_scan_completes :
  forall rev w replies,
    quiet w -> config w <> None ->
    List.length replies = List.length scanCommands ->
    let tid := List.length (timers w) in
    let k := List.length (tasks w) in
    let started := step rev StartScan w in
    let finished :=
      run rev (sequentialTicks tid k replies ++ [TimerFires tid])%list started in
    (forall n,
       n <= List.length scanCommands ->
       let w' := run rev (sequentialTicks tid k (firstn n replies)) started in
       executedCommands (trace w')
       = (executedCommands (trace w) ++ firstn n scanCommands)%list /\
       emittedStatuses (trace w')
       = (emittedStatuses (trace w) ++ [Scanning true (Some (now w))])%list /\
       nth_error (timers w') tid = Some {| timer_active := true; commandIndex := n |}) /\
    executedCommands (trace finished)
    = (executedCommands (trace w) ++ scanCommands)%list /\
    emittedStatuses (trace finished)
    = (emittedStatuses (trace w)
         ++ [Scanning true (Some (now w)); Scanning false None])%list /\
    List.length (filter isCompletion (emittedMessages (trace finished)))
    = S (List.length (filter isCompletion (emittedMessages (trace w)))) /\
    scanInterval finished = None /\
    nth_error (timers finished) tid
    = Some {| timer_active := false; commandIndex := List.length scanCommands |}.
Proof.
  intros rev w replies Q C L tid k started finished.
  destruct (startAutomaticScan_quiet w Q C) as (es0 & w1 & E0 & Mid0 & _ & T0 & X0 & St0 & Co0).
  assert (Es : started = w1) by (unfold started; cbn [step]; now rewrite E0).
  assert (Prefix : forall m,
             List.length m <= List.length scanCommands ->
             exists es,
               midScan w tid (List.length m) (k + List.length m)
                 (run rev (sequentialTicks tid k m) started) /\
               trace (run rev (sequentialTicks tid k m) started)
               = (trace w ++ es0 ++ es)%list /\
               executedCommands es = firstn (List.length m) scanCommands /\
               emittedStatuses es = [] /\
               filter isCompletion (emittedMessages es) = []).
  { intros m Lm. rewrite Es.
    destruct (sequential_ticks rev w tid m Q C 0 k w1 Mid0 Lm)
      as (es & Mid & T & X & St & Co).
    exists es. split; [exact Mid|]. split; [|now repeat split].
    now rewrite T, T0, app_assoc. }
  split.
  - intros n Hn w'.
    assert (Ln : List.length (firstn n replies) = n) by (rewrite length_firstn; lia).
    destruct (Prefix (firstn n replies) ltac:(lia)) as (es & Mid & T & X & St & _).
    rewrite Ln in *. unfold w'. rewrite T. split; [|split].
    + read_trace. now rewrite X0, X.
    + read_trace. now rewrite St0, St, app_nil_r.
    + apply Mid.
  - destruct (Prefix replies ltac:(lia)) as (es & Mid & T & X & St & Co).
    rewrite L in Mid.
    destruct (final_fire rev w tid _ _ Q Mid) as (es' & F).
    cbn zeta in F. destruct F as (T' & X' & St' & Co' & I' & Ti').
    assert (Ef : finished
                 = step rev (TimerFires tid)
                     (run rev (sequentialTicks tid k replies) started)).
    { unfold finished. now rewrite run_app. }
    rewrite Ef, T', T. repeat split.
    + read_trace. rewrite X0, X, X', L. cbn [app].
      now rewrite firstn_all, app_nil_r.
    + read_trace. rewrite St0, St, St'. now rewrite <- app_assoc.
    + read_trace. rewrite Co0, Co. rewrite !length_app, Co'. cbn. lia.
    + exact I'.
    + exact Ti'.
Qed.

Lemma sequential_scan_completes_witness :
  let finished :=
    run Rev2 (sequentialTicks 0 0 (repeat (Rejected refused) 10) ++ [TimerFires 0])%list
      (step Rev2 StartScan demoWorld) in
  executedCommands (trace finished) = scanCommands /\
  emittedStatuses (trace finished)
  = [Scanning true (Some (now demoWorld)); Scanning false None].
Proof.
  destruct (sequential_scan_completes Rev2 demoWorld (repeat (Rejected refused) 10))
    as (_ & X & S & _).
  - repeat split; intros s x [<-|[]]; reflexivity.
  - discriminate.
  - reflexivity.
  - split; [exact X | exact S].
Defined.

(** ** Claims on stopScan *)

(** The claim of C9 as it stands fails in two ways.  A message callback
    that throws makes [stopScan] fail; and after a second start, two calls
    of [stopScan] emit their two statuses and their two completion
    messages and still leave a timer scheduled. *)
Lemma C9_counterexample :
  let w := run Rev2 [StartScan; StartScan] demoWorld in
  let once := stopScan w in
  let twice := stopScan (snd once) in
  fst (stopScan faultyWorld) = Throw (Error "render failed") /\
  fst once = Ok tt /\ fst twice = Ok tt /\
  List.length (filter isScanningFalse (emittedStatuses (trace (snd twice)))) = 2 /\
  List.length (filter isCompletion (emittedMessages (trace (snd twice)))) = 2 /\
  scheduledTimers (snd twice) = 1.
Proof. cbn zeta. repeat split. Qed.

(** C9, amended. With callbacks that return, [stopScan] returns without
    error in any state: it clears the timer whose handle the service
    holds, if it holds one, forgets the handle, and emits one
    [scanning: false] status and one completion message, also when no
    scan is active.  Two calls in a row emit exactly two such statuses and
    two completion messages; and when no timer but the held one was
    scheduled, none is scheduled after the first call nor after the
    second. *)
Theorem C9_stopScan_total_and_repeatable :
  forall w,
    quiet w ->
    exists w1 w2,
      stopScan w = (Ok tt, w1) /\
      stopScan w1 = (Ok tt, w2) /\
      scanInterval w1 = None /\
      scanInterval w2 = None /\
      (forall handle t,
         scanInterval w = Some handle -> nth_error (timers w1) handle = Some t ->
         timer_active t = false) /\
      timers w2 = timers w1 /\
      emittedStatuses (trace w1)
      = (emittedStatuses (trace w) ++ [Scanning false None])%list /\
      emittedStatuses (trace w2)
      = (emittedStatuses (trace w) ++ [Scanning false None; Scanning false None])%list /\
      List.length (filter isCompletion (emittedMessages (trace w1)))
      = 1 + List.length (filter isCompletion (emittedMessages (trace w))) /\
      List.length (filter isCompletion (emittedMessages (trace w2)))
      = 2 + List.length (filter isCompletion (emittedMessages (trace w))) /\
      (noStrayTimer w -> scheduledTimers w1 = 0 /\ scheduledTimers w2 = 0).
Proof.
  intros w Q.
  destruct (stopScan_quiet w Q)
    as (es1 & w1 & E1 & (C1 & M1 & V1 & S1 & _) & I1 & Ti1 & T1 & _ & St1 & Co1).
  assert (Q1 : quiet w1).
  { destruct Q as (Qm & Qv & Qs). unfold quiet. rewrite M1, V1, S1. now repeat split. }
  destruct (stopScan_quiet w1 Q1)
    as (es2 & w2 & E2 & _ & I2 & Ti2 & T2 & _ & St2 & Co2).
  rewrite I1 in Ti2.
  exists w1, w2. repeat split; try assumption.
  - intros handle t H Hn. rewrite Ti1, H in Hn.
    destruct (nth_error (timers w) handle) as [t0|] eqn:Ht.
    + rewrite (nth_error_updateAt_same _ _ _ _ Ht) in Hn. now injection Hn as <-.
    + assert (Hl : nth_error
                     (updateAt handle
                        (fun t => {| timer_active := false;
                                     commandIndex := commandIndex t |}) (timers w)) handle
                   = None).
      { apply nth_error_None. rewrite length_updateAt. now apply nth_error_None. }
      congruence.
  - rewrite T1. read_trace. now rewrite St1.
  - rewrite T2, T1. read_trace. now rewrite St1, St2, <- app_assoc.
  - rewrite T1. read_trace. rewrite length_app, Co1. lia.
  - rewrite T2, T1. read_trace. rewrite !length_app, Co1, Co2. lia.
  - eapply stopScan_clears_all; eassumption.
  - unfold scheduledTimers. rewrite Ti2.
    now apply (stopScan_clears_all w w1).
Qed.

Lemma C9_witness :
  exists w1 w2,
    stopScan demoWorld = (Ok tt, w1) /\
    stopScan w1 = (Ok tt, w2) /\
    emittedStatuses (trace w2) = [Scanning false None; Scanning false None] /\
    scheduledTimers w2 = 0.
Proof.
  destruct (C9_stopScan_total_and_repeatable demoWorld)
    as (w1 & w2 & E1 & E2 & _ & _ & _ & _ & _ & S & _ & _ & N).
  - repeat split; intros s x [<-|[]]; reflexivity.
  - exists w1, w2. split; [exact E1|]. split; [exact E2|]. split; [exact S|].
    apply N. intros [|i] t H; discriminate H.
Defined.

(** * Properties of the application and of every run *)

(** ** The status bar *)

(** For time values, the label of the last scan depends only on the
    milliseconds elapsed as the subtraction of doubles gives them (the
    exact difference up to 2^53, and within one of it beyond), with
    thresholds at one minute, one hour and one day: below one minute
    (and for a date the clock has not reached) it is "Just now", then
    whole minutes, whole hours and whole days, rounded down. *)
Theorem formatLastScan_thresholds clock t :
  timeValue clock -> timeValue t ->
  let elapsed := toDouble (clock - t) in
  ((Z.abs (clock - t) <= 2 ^ 53)%Z -> elapsed = (clock - t)%Z) /\
  (Z.abs (elapsed - (clock - t)) <= 1)%Z /\
  (Z.abs elapsed <= 17280000000000000)%Z /\
  formatLastScan clock (Some t)
  = if (elapsed <? 60000)%Z then "Just now"
    else if (elapsed <? 3600000)%Z then ofZ (elapsed / 60000) ++ "m ago"
    else if (elapsed <? 86400000)%Z then ofZ (elapsed / 3600000) ++ "h ago"
    else ofZ (elapsed / 86400000) ++ "d ago".
Proof.
  unfold timeValue. intros Hc Ht. cbv zeta.
  assert (R : (Z.abs (clock - t) <= 17280000000000000)%Z) by lia.
  set (x := (clock - t)%Z) in *.
  assert (D : (Z.abs x <= 2 ^ 53 -> toDouble x = x)%Z
              /\ (Z.abs (toDouble x - x) <= 1)%Z
              /\ (Z.abs (toDouble x) <= 17280000000000000)%Z).
  { unfold toDouble. change (2 ^ 53)%Z with 9007199254740992%Z.
    destruct (Z.leb_spec (Z.abs x) 9007199254740992) as [B|B].
    - split; [reflexivity|]. split; lia.
    - pose proof (Z.mod_pos_bound x 4 ltac:(lia)) as M.
      pose proof (Z.div_mod x 4 ltac:(lia)) as E.
      assert (C : (x mod 4 = 0 \/ x mod 4 = 1 \/ x mod 4 = 2 \/ x mod 4 = 3)%Z) by lia.
      destruct C as [C|[C|[C|C]]]; rewrite C in *; (split; [lia|]); split; lia. }
  destruct D as (D1 & D2 & D3).
  split; [exact D1|]. split; [exact D2|]. split; [exact D3|].
  unfold formatLastScan. cbv zeta. fold x. set (d := toDouble x).
  assert (H60 : (d / 60000 / 60 = d / 3600000)%Z) by (rewrite Z.div_div; [reflexivity | lia | lia]).
  assert (H24 : (d / 60000 / 60 / 24 = d / 86400000)%Z).
  { rewrite H60, Z.div_div; [reflexivity | lia | lia]. }
  rewrite H24, H60.
  destruct (Z.ltb_spec (d / 60000) 1) as [A|A];
    destruct (Z.ltb_spec d 60000) as [A'|A']; try reflexivity.
  - exfalso. assert (1 <= d / 60000)%Z by (apply Z.div_le_lower_bound; lia). lia.
  - exfalso. assert (d / 60000 < 1)%Z by (apply Z.div_lt_upper_bound; lia). lia.
  - destruct (Z.ltb_spec (d / 60000) 60) as [B|B];
      destruct (Z.ltb_spec d 3600000) as [B'|B']; try reflexivity.
    + exfalso. assert (60 <= d / 60000)%Z by (apply Z.div_le_lower_bound; lia). lia.
    + exfalso. assert (d / 60000 < 60)%Z by (apply Z.div_lt_upper_bound; lia). lia.
    + destruct (Z.ltb_spec (d / 3600000) 24) as [C|C];
        destruct (Z.ltb_spec d 86400000) as [C'|C']; try reflexivity.
      * exfalso. assert (24 <= d / 3600000)%Z by (apply Z.div_le_lower_bound; lia). lia.
      * exfalso. assert (d / 3600000 < 24)%Z by (apply Z.div_lt_upper_bound; lia). lia.
Qed.

(** The two farthest time values the clock can reach from a date: the
    difference is odd and above 2^53, the subtraction rounds it up, and
    the label counts one day more than the exact difference holds. *)
Lemma formatLastScan_thresholds_witness :
  formatLastScan 8639999999999999 (Some (-8640000000000000)%Z) = "200000000d ago" /\
  toDouble (8639999999999999 - -8640000000000000) = 17280000000000000%Z /\
  ((8639999999999999 - -8640000000000000) / 86400000 = 199999999)%Z.
Proof.
  destruct (formatLastScan_thresholds 8639999999999999 (-8640000000000000))
    as (_ & _ & _ & E).
  - unfold timeValue. cbn. lia.
  - unfold timeValue. cbn. lia.
  - cbv zeta in E. split; [rewrite E; vm_compute; reflexivity|].
    split; vm_compute; reflexivity.
Defined.

(** ** The report *)

(** In the report [exportReport] builds, the four severity counts of the
    summary add up to its total, whatever list is exported: every
    finding is counted once. *)
Theorem summary_partition iso vulnerabilities w :
  let s := summary (exportReport_report iso vulnerabilities w) in
  count_critical s + count_high s + count_medium s + count_low s = total s.
Proof.
  cbn. unfold countSeverity.
  induction vulnerabilities as [|v vs IH]; [reflexivity|].
  cbn [filter List.length]. destruct (severity (vuln_init v)); cbn [Severity_eqb List.length]; lia.
Qed.

Lemma blank_false s : ConfigurationPanel.blank s = false -> s <> EmptyString.
Proof. intros B ->. discriminate B. Qed.

Lemma length_assign key message errors :
  0 < List.length (ConfigurationPanel.assign key message errors).
Proof. destruct errors as [|[k m] rest]; cbn; [lia|]. destruct (String.eqb k key); cbn; lia. Qed.

(** ** The checks of the configuration panel *)

Lemma assign_guard (c : bool) key message errors :
  List.length (if c then ConfigurationPanel.assign key message errors else errors) = 0 ->
  c = false /\ List.length errors = 0.
Proof.
  destruct c; intros H; [|now split].
  pose proof (length_assign key message errors). lia.
Qed.

Lemma validateConfiguration_accepts isValidUrl cfg :
  snd (ConfigurationPanel.validateConfiguration isValidUrl cfg) = true ->
  ConfigurationPanel.blank (model (llm cfg)) = false /\
  ConfigurationPanel.blank (api_url (llm cfg)) = false /\
  isValidUrl (api_url (llm cfg)) = true /\
  (1000 <= context_size (llm cfg))%Z /\
  (10 <= api_timeout (llm cfg))%Z /\
  ConfigurationPanel.blank (host (connection cfg)) = false /\
  ConfigurationPanel.blank (hostname (connection cfg)) = false /\
  ConfigurationPanel.blank (username (connection cfg)) = false /\
  (1 <= port (connection cfg) <= 65535)%Z /\
  (ConfigurationPanel.blank (password (connection cfg)) = false \/
   ConfigurationPanel.blank (keyfilename (connection cfg)) = false) /\
  fst (ConfigurationPanel.validateConfiguration isValidUrl cfg) = [].
Proof.
  unfold ConfigurationPanel.validateConfiguration. cbn [fst snd]. cbv zeta.
  intros H. apply Nat.eqb_eq in H. pose proof H as H0.
  apply assign_guard in H as [C9 H].
  apply assign_guard in H as [C8 H].
  apply assign_guard in H as [C7 H].
  apply assign_guard in H as [C6 H].
  apply assign_guard in H as [C5 H].
  apply assign_guard in H as [C4 H].
  apply assign_guard in H as [C3 H].
  destruct (ConfigurationPanel.blank (api_url (llm cfg))) eqn:C2.
  { pose proof (length_assign "llm.api_url" "API URL is required"
                  (if ConfigurationPanel.blank (model (llm cfg))
                   then ConfigurationPanel.assign "llm.model" "Model is required" []
                   else [])). lia. }
  apply assign_guard in H as [C2' H].
  apply assign_guard in H as [C1 _].
  apply negb_false_iff in C2'.
  apply orb_false_iff in C8 as [C8a C8b].
  apply andb_false_iff in C9.
  repeat split; try assumption; try (apply Z.ltb_ge; assumption).
  now apply length_zero_iff_nil.
Qed.

Lemma orElse_nonempty a b : (a <> EmptyString \/ b <> EmptyString) -> orElse a b <> EmptyString.
Proof.
  unfold orElse. intros H. destruct (String.eqb a EmptyString) eqn:E.
  - apply String.eqb_eq in E. subst a. destruct H as [H|H]; [now elim H | exact H].
  - now apply String.eqb_neq in E.
Qed.

Lemma truthy_string s : s <> EmptyString -> JS.truthy (JString s) = true.
Proof. intros H. cbn. apply String.eqb_neq in H. now rewrite H. Qed.

(** A configuration the panel accepts passes every later check.  Once it
    is the configuration of the service, the chat is shown
    ([isConfigured]), and a connection test the endpoint answers with 200
    succeeds with status callbacks that return, whatever the other
    callbacks do: it resolves to a truthy value
    ([true] in the second revision) and announces it as [connected] in
    one status, so no check of [simulateSSHConnection] rejects what
    [validateConfiguration] let through. *)
Theorem accepted_configuration_passes_the_check isValidUrl cfg rev data w :
  snd (ConfigurationPanel.validateConfiguration isValidUrl cfg) = true ->
  config w = Some cfg ->
  statusQuiet w ->
  isConfigured cfg = true /\
  exists v es w',
    testConnection rev (Resolved 200 data) w = (Ok v, w') /\
    JS.truthy v = true /\
    (rev = Rev2 -> v = JBool true) /\
    trace w' = (trace w ++ es)%list /\
    emittedStatuses es = [Connected v].
Proof.
  intros V C Q.
  destruct (validateConfiguration_accepts _ _ V)
    as (_ & U & _ & _ & _ & H & Hn & Un & _ & Cr & _).
  apply blank_false in U, H, Hn, Un.
  assert (K : orElse (password (connection cfg)) (keyfilename (connection cfg))
              <> EmptyString).
  { apply orElse_nonempty. destruct Cr as [B|B]; apply blank_false in B; tauto. }
  split.
  { unfold isConfigured. apply String.eqb_neq in U, H. now rewrite U, H. }
  apply String.eqb_neq in H, Hn, Un.
  set (v := match rev with
            | Rev1 => JString (orElse (password (connection cfg))
                                 (keyfilename (connection cfg)))
            | Rev2 => JBool true
            end).
  assert (S : simulateSSHConnection rev w = (Ok v, w)).
  { unfold simulateSSHConnection, v. rewrite C. destruct rev.
    - now rewrite H, Un.
    - rewrite H, Un, Hn. apply String.eqb_neq in K. now rewrite K. }
  destruct (emitStatusChange_returns (Connected v) w Q) as (w' & (E & _ & T) & _).
  exists v. eexists. exists w'. split; [|split; [|split; [|split]]].
  - unfold testConnection. rewrite C. unfold tryCatch.
    rewrite (bind_ok _ _ w (200%Z, data) w eq_refl). cbn [fst Z.eqb Pos.eqb negb].
    rewrite (bind_ok _ _ w tt w eq_refl).
    rewrite (bind_ok _ _ w v w S).
    rewrite (bind_ok _ _ w tt w' E). reflexivity.
  - unfold v. destruct rev; [now apply truthy_string | reflexivity].
  - intros ->. reflexivity.
  - exact T.
  - read_trace. reflexivity.
Qed.

Lemma accepted_configuration_passes_the_check_witness :
  isConfigured demoConfiguration = true /\
  exists v es w',
    testConnection Rev2 (Resolved 200 wellFormed) statusOnlyWorld = (Ok v, w') /\
    JS.truthy v = true /\
    (Rev2 = Rev2 -> v = JBool true) /\
    trace w' = (trace statusOnlyWorld ++ es)%list /\
    emittedStatuses es = [Connected v].
Proof.
  apply (accepted_configuration_passes_the_check (fun _ => true) demoConfiguration).
  - reflexivity.
  - reflexivity.
  - intros s x [<-|[]]. reflexivity.
Defined.

(** ** What every method does to the world *)

Lemma forEach_world {T} (wrap : T -> Payload) listeners (x : T) w :
  snd (forEach wrap listeners x w) = logAll (deliveredTo wrap (calledOf listeners x) x) w.
Proof.
  revert w. induction listeners as [|s rest IH]; intros w.
  - cbn. now rewrite logAll_nil.
  - cbn [forEach calledOf]. destruct (sub_call s x).
    + reflexivity.
    + rewrite IH. cbn [deliveredTo map]. now rewrite log_logAll, logAll_logAll.
Qed.

Lemma calledOf_returns {T} (listeners : list (Subscriber T)) x :
  (forall s, In s listeners -> sub_call s x = None) -> calledOf listeners x = listeners.
Proof.
  induction listeners as [|s rest IH]; intros H; [reflexivity|].
  cbn [calledOf]. rewrite (H s (or_introl eq_refl)). f_equal. apply IH.
  intros s' Hs'. apply H. now right.
Qed.

Lemma emitMessage_world message w :
  snd (emitMessage message w)
  = logAll (Emitted (PMessage (fullMessage w message))
              :: deliveredTo PMessage
                   (calledOf (onMessage_listeners w) (fullMessage w message))
                   (fullMessage w message))
      (set_messageId (S (messageId w)) w).
Proof.
  unfold emitMessage. cbv zeta. rewrite forEach_world.
  rewrite log_logAll, logAll_logAll. reflexivity.
Qed.

Lemma emitVulnerability_calls v w :
  snd (emitVulnerability v w)
  = logAll (Emitted (PVulnerability (fullVulnerability w v))
              :: deliveredTo PVulnerability
                   (calledOf (onVulnerabilityFound_listeners w) (fullVulnerability w v))
                   (fullVulnerability w v)) w.
Proof.
  unfold emitVulnerability. cbv zeta. rewrite forEach_world.
  rewrite log_logAll, logAll_logAll. reflexivity.
Qed.

Lemma emitStatusChange_world status w :
  snd (emitStatusChange status w)
  = logAll (Emitted (PStatus status)
              :: deliveredTo PStatus (calledOf (onStatusChange_listeners w) status) status) w.
Proof.
  unfold emitStatusChange. rewrite forEach_world.
  rewrite log_logAll, logAll_logAll. reflexivity.
Qed.

Section Advances.
Context {allowed : string -> Prop} {statusAllowed : World -> StatusDelta -> Prop}
  {mayHold mayResume : Prop}.

#[local] Abbreviation advance := (advance allowed statusAllowed mayHold mayResume).
#[local] Abbreviation advances := (advances allowed statusAllowed mayHold mayResume).

Lemma advances_ret {A} (a : A) : advances (ret a).
Proof. intros w. apply advance_refl. Qed.

Lemma advances_throw {A} e : advances (throw (A := A) e).
Proof. intros w. apply advance_refl. Qed.

Lemma advances_lift {A} (r : Result A) : advances (lift r).
Proof. intros w. apply advance_refl. Qed.

Lemma advances_get : advances get.
Proof. intros w. apply advance_refl. Qed.

Lemma advances_bind {A B} (m : M A) (f : A -> M B) :
  advances m -> (forall a, advances (f a)) -> advances (bind m f).
Proof.
  intros Hm Hf w. unfold bind. specialize (Hm w).
  destruct (m w) as [[a|e] w1]; cbn [snd] in *; [|exact Hm].
  eapply advance_trans; [exact Hm | apply Hf].
Qed.

Lemma advances_tryCatch {A} (m : M A) (h : JSError -> M A) :
  advances m -> (forall e, advances (h e)) -> advances (tryCatch m h).
Proof.
  intros Hm Hh w. unfold tryCatch. specialize (Hm w).
  destruct (m w) as [[a|e] w1]; cbn [snd] in *; [exact Hm|].
  eapply advance_trans; [exact Hm | apply Hh].
Qed.

Lemma advances_forOf {A} (xs : list A) (body : A -> M unit) :
  (forall x, In x xs -> advances (body x)) -> advances (forOf xs body).
Proof.
  induction xs as [|x xs IH]; intros H; cbn [forOf]; [apply advances_ret|].
  apply advances_bind; [apply H; now left|]. intros _. apply IH.
  intros y Hy. apply H. now right.
Qed.

Lemma advances_emitMessage message :
  serviceMessage allowed message -> advances (emitMessage message).
Proof. intros H w. now apply advance_message. Qed.

Lemma advances_emitVulnerability v : serviceFinding v -> advances (emitVulnerability v).
Proof. intros H w. now apply advance_vulnerability. Qed.

Lemma advances_emitStatusChange status :
  (forall w, statusAllowed w status) -> advances (emitStatusChange status).
Proof. intros H w. apply advance_status, H. Qed.

Lemma advances_consoleError label e : advances (consoleError label e).
Proof. intros w. apply advance_console. Qed.

Lemma targetOf_nonempty w : targetOf w <> EmptyString.
Proof.
  unfold targetOf. destruct (config w) as [cfg|]; [|discriminate].
  unfold orElse. destruct (String.eqb (host (connection cfg)) EmptyString) eqn:E;
    [discriminate | now apply String.eqb_neq in E].
Qed.

(** A message that is no command announcement and not from the user. *)
Lemma serviceMessage_plain message :
  sender message <> user -> type message <> command -> serviceMessage allowed message.
Proof. intros S T. split; [exact S | intros E; now elim T]. Qed.

Lemma advances_analyzeCommandResult cmd output : advances (analyzeCommandResult cmd output).
Proof.
  unfold analyzeCommandResult. apply advances_forOf. intros r Hr.
  destruct (pattern r (JS.toString output)); [|apply advances_ret].
  apply advances_bind; [apply advances_get|]. intros w.
  apply advances_bind.
  - apply advances_emitVulnerability. split; [apply targetOf_nonempty|]. right.
    cbn in Hr. destruct Hr as [<-|[<-|[<-|[]]]]; cbn; repeat split; auto.
  - intros _. apply advances_emitMessage. apply serviceMessage_plain; discriminate.
Qed.

Lemma advances_detect response : advances (detectVulnerabilitiesFromResponse response).
Proof.
  unfold detectVulnerabilitiesFromResponse.
  destruct response; try apply advances_throw.
  destruct (0 <? List.length (foundKeywords s)); [|apply advances_ret].
  apply advances_bind; [apply advances_get|]. intros w.
  apply advances_emitVulnerability. split; [apply targetOf_nonempty|]. left.
  now repeat split.
Qed.

Lemma advances_executeCommand_begin cmd :
  allowed cmd -> advances (executeCommand_begin cmd).
Proof.
  intros H. unfold executeCommand_begin. apply advances_bind; [apply advances_get|].
  intros w. destruct (config w); [|apply advances_ret].
  apply advances_bind; [|intros _; apply advances_ret].
  apply advances_emitMessage. split; [discriminate|]. intros _. now exists cmd.
Qed.

Lemma advances_executeCommand_resume cmd : advances (executeCommand_resume cmd).
Proof.
  unfold executeCommand_resume. cbv zeta. apply advances_bind.
  - apply advances_emitMessage. apply serviceMessage_plain; discriminate.
  - intros _. apply advances_analyzeCommandResult.
Qed.

Lemma advances_executeCommand cmd : allowed cmd -> advances (executeCommand cmd).
Proof.
  intros H. unfold executeCommand. apply advances_bind.
  - now apply advances_executeCommand_begin.
  - intros [|]; [apply advances_executeCommand_resume | apply advances_ret].
Qed.

Lemma advances_analyzeAIResponse response :
  (forall cmd, In cmd (extractCommands (JS.toString response)) -> allowed cmd) ->
  advances (analyzeAIResponse response).
Proof.
  intros H w. unfold analyzeAIResponse, JS.ToString.
  destruct (JS.convertible response); [|apply advance_refl].
  change (advance w
            (snd ((forOf (extractCommands (JS.toString response)) executeCommand ;;
                   detectVulnerabilitiesFromResponse response) w))).
  revert w. apply advances_bind.
  - apply advances_forOf. intros cmd Hc. apply advances_executeCommand, H, Hc.
  - intros _. apply advances_detect.
Qed.

Lemma advances_awaitPost reply : advances (awaitPost reply).
Proof. destruct reply; [apply advances_ret | apply advances_throw]. Qed.

Lemma advances_sendMessage prompt reply :
  (forall cmd, allowed cmd) -> advances (sendMessage prompt reply).
Proof.
  intros H w. unfold sendMessage. destruct (config w); [|apply advance_refl].
  apply advances_tryCatch.
  - apply advances_bind; [apply advances_awaitPost|]. intros response.
    apply advances_bind; [apply advances_lift|]. intros aiResponse.
    apply advances_bind.
    + apply advances_emitMessage. apply serviceMessage_plain; discriminate.
    + intros _. apply advances_analyzeAIResponse. intros cmd _. apply H.
  - intros e. apply advances_bind; [apply advances_consoleError|].
    intros _. apply advances_throw.
Qed.

Lemma advances_simulateSSHConnection rev : advances (simulateSSHConnection rev).
Proof.
  intros w. unfold simulateSSHConnection. destruct (config w); [|apply advance_refl].
  destruct rev; apply advance_refl.
Qed.

Lemma advances_testConnection rev reply :
  (forall w v, statusAllowed w (Connected v)) -> advances (testConnection rev reply).
Proof.
  intros H w. unfold testConnection. destruct (config w); [|apply advance_refl].
  apply advances_tryCatch.
  - apply advances_bind; [apply advances_awaitPost|]. intros llmResponse.
    apply advances_bind.
    { destruct (negb (fst llmResponse =? 200)%Z); [apply advances_throw | apply advances_ret]. }
    intros _. apply advances_bind; [apply advances_simulateSSHConnection|].
    intros sshTest. apply advances_bind; [|intros _; apply advances_ret].
    apply advances_emitStatusChange. intros w'. apply H.
  - intros e. apply advances_bind; [apply advances_consoleError|]. intros _.
    destruct rev.
    + apply advances_bind; [|intros _; apply advances_ret].
      apply advances_emitStatusChange. intros w'. apply H.
    + apply advances_bind; [apply advances_throw|]. intros _.
      apply advances_bind; [|intros _; apply advances_ret].
      apply advances_emitStatusChange. intros w'. apply H.
Qed.

Lemma advances_clearInterval handle : advances (clearInterval handle).
Proof. intros w. apply advance_clear. Qed.

Lemma advances_incrementCommandIndex tid : advances (incrementCommandIndex tid).
Proof. intros w. apply advance_increment. Qed.

Lemma advances_stopScan :
  (forall w, scanInterval w = None -> statusAllowed w (Scanning false None)) ->
  advances stopScan.
Proof.
  intros H w. unfold stopScan, bind, get.
  assert (K : forall w0, scanInterval w0 = None -> advance w w0 ->
                advance w
                  (snd (match emitStatusChange (Scanning false None) w0 with
                        | (Ok a, w') =>
                            emitMessage
                              {| content := JString "Automatic scan completed.";
                                 sender := system; type := text; metadata := None |} w'
                        | (Throw e, w') => (Throw e, w')
                        end))).
  { intros w0 S A.
    pose proof (advance_status allowed statusAllowed mayHold mayResume w0 _ (H w0 S)) as B.
    destruct (emitStatusChange (Scanning false None) w0) as [[[]|e] w1]; cbn [snd] in *.
    - eapply advance_trans; [exact A|]. eapply advance_trans; [exact B|].
      apply advance_message. apply serviceMessage_plain; discriminate.
    - eapply advance_trans; eassumption. }
  destruct (scanInterval w) as [handle|] eqn:S.
  - cbn [clearInterval modify ret]. apply K; [reflexivity|].
    eapply advance_trans; [apply (advance_clear _ _ _ _ w handle) | apply advance_forget].
  - cbn [ret]. apply K; [exact S | apply advance_refl].
Qed.

Lemma advances_startAutomaticScan :
  mayHold ->
  (forall w t, statusAllowed w (Scanning true (Some t))) ->
  advances startAutomaticScan.
Proof.
  intros Hh H w. unfold startAutomaticScan. destruct (config w); [|apply advance_refl].
  apply advances_bind; [apply advances_emitStatusChange; intros w'; apply H|].
  intros _. apply advances_bind.
  { apply advances_emitMessage. apply serviceMessage_plain; discriminate. }
  intros _. apply advances_bind; [intros w'; apply advance_schedule|].
  intros handle w'. now apply advance_hold.
Qed.

Lemma advances_adviceFailed rev cmd err : advances (adviceFailed rev cmd err).
Proof.
  unfold adviceFailed. apply advances_bind; [apply advances_consoleError|]. intros _.
  destruct rev; [apply advances_ret|].
  apply advances_emitMessage. apply serviceMessage_plain; discriminate.
Qed.

Lemma advances_tick_execute tid cmd : allowed cmd -> advances (tick_execute tid cmd).
Proof.
  intros H. unfold tick_execute. apply advances_bind.
  - now apply advances_executeCommand_begin.
  - intros [|]; [apply advances_ret|].
    apply advances_bind; [apply advances_incrementCommandIndex | intros _; apply advances_ret].
Qed.

Lemma advances_tick_fire rev tid :
  (forall cmd, In cmd scanCommands -> allowed cmd) ->
  (forall w, scanInterval w = None -> statusAllowed w (Scanning false None)) ->
  advances (tick_fire rev tid).
Proof.
  intros Ha Hs. unfold tick_fire. apply advances_bind; [apply advances_get|].
  intros w. cbv zeta.
  set (index := match nth_error (timers w) tid with
                | Some t => commandIndex t
                | None => 0
                end).
  destruct (Nat.leb_spec (List.length scanCommands) index) as [L|L].
  - apply advances_bind; [now apply advances_stopScan | intros _; apply advances_ret].
  - destruct (config w); [apply advances_ret|].
    apply advances_bind; [apply advances_adviceFailed|]. intros _.
    apply advances_tick_execute, Ha, nth_In, L.
Qed.

Lemma advances_tick_posted rev tid cmd reply :
  allowed cmd -> advances (tick_posted rev tid cmd reply).
Proof.
  intros H. unfold tick_posted. apply advances_bind.
  - apply advances_tryCatch; [|apply advances_adviceFailed].
    apply advances_bind; [apply advances_awaitPost|]. intros aiResponse.
    apply advances_bind; [apply advances_lift|]. intros explanation.
    apply advances_bind; [apply advances_lift|]. intros shown.
    apply advances_emitMessage. apply serviceMessage_plain; discriminate.
  - intros _. now apply advances_tick_execute.
Qed.

Lemma advances_tick_simulated tid cmd : advances (tick_simulated tid cmd).
Proof.
  unfold tick_simulated. apply advances_bind; [apply advances_executeCommand_resume|].
  intros _. apply advances_bind; [apply advances_incrementCommandIndex|].
  intros _. apply advances_ret.
Qed.

(** A step of the event loop, given that the commands of the scan and of
    the suspended ticks are allowed. *)
Lemma advance_step rev i w :
  (i = StartScan -> mayHold) -> mayResume ->
  (forall cmd, In cmd scanCommands -> allowed cmd) ->
  (forall k t, nth_error (tasks w) k = Some (Some t) -> allowed (commandOf t)) ->
  (forall w t, statusAllowed w (Scanning true (Some t))) ->
  (forall w, scanInterval w = None -> statusAllowed w (Scanning false None)) ->
  advance w (step rev i w).
Proof.
  intros Hh Hr Ha Ht Hstart Hstop. destruct i as [cfg| | |tid|k reply|k|t]; cbn [step].
  - apply advance_configure.
  - apply advances_startAutomaticScan; auto.
  - now apply advances_stopScan.
  - destruct (nth_error (timers w) tid) as [tm|]; [|apply advance_refl].
    destruct (timer_active tm); [|apply advance_refl].
    pose proof (advances_tick_fire rev tid Ha Hstop w) as A.
    destruct (tick_fire rev tid w) as [r w']. cbn [snd] in A.
    destruct (suspensionOf r); [|exact A].
    eapply advance_trans; [exact A | now apply advance_tasks].
  - destruct (nth_error (tasks w) k) as [[[tid cmd|tid cmd]|]|] eqn:E;
      try apply advance_refl.
    pose proof (advances_tick_posted rev tid cmd reply (Ht _ _ E) w) as A.
    destruct (tick_posted rev tid cmd reply w) as [r w']. cbn [snd] in A.
    eapply advance_trans; [exact A | now apply advance_tasks].
  - destruct (nth_error (tasks w) k) as [[[tid cmd|tid cmd]|]|] eqn:E;
      try apply advance_refl.
    pose proof (advances_tick_simulated tid cmd w) as A.
    destruct (tick_simulated tid cmd w) as [r w']. cbn [snd] in A.
    eapply advance_trans; [exact A | now apply advance_tasks].
  - apply advance_clock.
Qed.

End Advances.

(** ** What a sequence of moves adds to the trace *)

Lemma numberedFrom_app n es1 es2 :
  numberedFrom n es1 ->
  numberedFrom (n + List.length (emittedMessages es1)) es2 ->
  numberedFrom n (es1 ++ es2)%list.
Proof.
  unfold numberedFrom. intros H1 H2.
  rewrite emittedMessages_app, map_app, length_app, seq_app, map_app.
  now rewrite H1, H2.
Qed.

Lemma numberedFrom_quiet n es : emittedMessages es = [] -> numberedFrom n es.
Proof. unfold numberedFrom. now intros ->. Qed.

(** What the calls of [deliveredTo] hand over. *)
Lemma deliveries_payload {T} (wrap : T -> Payload) listeners x (P : Payload -> Prop) :
  P (wrap x) -> Forall (fun call => P (snd call)) (deliveries (deliveredTo wrap listeners x)).
Proof.
  intros H. rewrite deliveries_deliveredTo. induction listeners; cbn; constructor; auto.
Qed.

Section AdvanceTrace.
Context {allowed : string -> Prop} {statusAllowed : World -> StatusDelta -> Prop}
  {mayHold mayResume : Prop}.

#[local] Abbreviation advance := (advance allowed statusAllowed mayHold mayResume).

Lemma advance_trace w w' :
  advance w w' ->
  exists es,
    trace w' = (trace w ++ es)%list /\
    messageId w' = messageId w + List.length (emittedMessages es) /\
    numberedFrom (S (messageId w)) es /\
    Forall (fun m => serviceMessage allowed (msg_init m)) (emittedMessages es) /\
    Forall (fun v => serviceFinding (vuln_init v)) (emittedVulnerabilities es) /\
    Forall (fun call => servicePayload allowed (snd call)) (deliveries es).
Proof.
  induction 1 as [w|w1 w2 w3 _ IH1 _ IH2|w message Hm|w v Hv|w status Hs|w label e
                 |w handle|w|w|w handle Hh|w tid|w cfg|w t|w l Hr];
    try (exists []; cbn; rewrite app_nil_r, Nat.add_0_r;
         repeat split; try reflexivity; constructor).
  - destruct IH1 as (es1 & T1 & I1 & N1 & M1 & V1 & D1).
    destruct IH2 as (es2 & T2 & I2 & N2 & M2 & V2 & D2).
    exists (es1 ++ es2)%list. split; [|split; [|split; [|split; [|split]]]].
    + now rewrite T2, T1, app_assoc.
    + rewrite emittedMessages_app, length_app. lia.
    + apply numberedFrom_app; [exact N1|]. rewrite I1 in N2. exact N2.
    + rewrite emittedMessages_app. now apply Forall_app.
    + rewrite emittedVulnerabilities_app. now apply Forall_app.
    + rewrite deliveries_app. now apply Forall_app.
  - rewrite emitMessage_world. eexists. split; [reflexivity|].
    split; [|split; [|split; [|split]]].
    + cbn [messageId logAll set_messageId]. read_trace. cbn. lia.
    + unfold numberedFrom. read_trace. reflexivity.
    + read_trace. cbn. constructor; [exact Hm | constructor].
    + read_trace. constructor.
    + change (Emitted ?p :: ?l) with ([Emitted p] ++ l)%list. rewrite deliveries_app.
      cbn [deliveries flat_map app]. now apply deliveries_payload.
  - rewrite emitVulnerability_calls. eexists. split; [reflexivity|].
    split; [|split; [|split; [|split]]].
    + cbn [messageId logAll]. read_trace. cbn. lia.
    + apply numberedFrom_quiet. read_trace. reflexivity.
    + read_trace. constructor.
    + read_trace. cbn. constructor; [exact Hv | constructor].
    + change (Emitted ?p :: ?l) with ([Emitted p] ++ l)%list. rewrite deliveries_app.
      cbn [deliveries flat_map app]. now apply deliveries_payload.
  - rewrite emitStatusChange_world. eexists. split; [reflexivity|].
    split; [|split; [|split; [|split]]].
    + cbn [messageId logAll]. read_trace. cbn. lia.
    + apply numberedFrom_quiet. read_trace. reflexivity.
    + read_trace. constructor.
    + read_trace. constructor.
    + change (Emitted ?p :: ?l) with ([Emitted p] ++ l)%list. rewrite deliveries_app.
      cbn [deliveries flat_map app]. now apply deliveries_payload.
  - exists [ConsoleError label e]. cbn. rewrite Nat.add_0_r.
    repeat split; try reflexivity; constructor.
Qed.

(** No move registers a callback or forgets the configuration; only the
    event loop touches the suspended ticks. *)
Lemma advance_keeps w w' :
  advance w w' ->
  onMessage_listeners w' = onMessage_listeners w /\
  onVulnerabilityFound_listeners w' = onVulnerabilityFound_listeners w /\
  onStatusChange_listeners w' = onStatusChange_listeners w /\
  (config w <> None -> config w' <> None) /\
  (~ mayResume -> tasks w' = tasks w).
Proof.
  induction 1 as [w|w1 w2 w3 _ IH1 _ IH2|w message Hm|w v Hv|w status Hs|w label e
                 |w handle|w|w|w handle Hh|w tid|w cfg|w t|w l Hr];
    try rewrite emitMessage_world; try rewrite emitVulnerability_calls;
    try rewrite emitStatusChange_world;
    try (now repeat split).
  destruct IH1 as (M1 & V1 & S1 & C1 & K1), IH2 as (M2 & V2 & S2 & C2 & K2).
  repeat split; try congruence; auto.
  intros N. rewrite (K2 N). now apply K1.
Qed.

End AdvanceTrace.

(** ** Message numbers *)

Lemma to_uint_nonnil n : Nat.to_uint n <> Decimal.Nil.
Proof.
  rewrite <- (DecimalNat.Unsigned.of_to n), DecimalNat.Unsigned.to_of.
  apply DecimalFacts.unorm_nonnil.
Qed.

Lemma ofNat_inj a b : ofNat a = ofNat b -> a = b.
Proof.
  unfold ofNat. intros H. apply (f_equal NilZero.uint_of_string) in H.
  rewrite !NilZero.usu in H by apply to_uint_nonnil.
  injection H as H. now apply DecimalNat.Unsigned.to_uint_inj.
Qed.

Lemma numberedFrom_NoDup n es : numberedFrom n es -> NoDup (map msg_id (emittedMessages es)).
Proof.
  unfold numberedFrom. intros ->. apply NoDup_map_NoDup_ForallPairs.
  - intros a b _ _. apply ofNat_inj.
  - apply seq_NoDup.
Qed.

Lemma run_advance rev inputs w :
  advance (fun _ => True) (fun _ _ => True) True True w (run rev inputs w).
Proof.
  revert w. induction inputs as [|i rest IH]; intros w; cbn [run]; [apply advance_refl|].
  eapply advance_trans; [|apply IH]. now apply advance_step.
Qed.

Lemma advance_countsUp allowed statusAllowed mayHold mayResume w w' :
  advance allowed statusAllowed mayHold mayResume w w' -> countsUp w w'.
Proof.
  intros A. destruct (advance_trace _ _ A) as (es & T & _ & N & _).
  exists es. split; [exact T | split; [exact N | now apply numberedFrom_NoDup with (n := S (messageId w))]].
Qed.

(** Whatever the callbacks do and however the ticks interleave, the
    messages the service emits are numbered one after the other from the
    counter on, so no two of them share an id: in a run of the event
    loop, in a call of [sendMessage] and in a call of [testConnection]. *)
Theorem message_ids_count_up rev inputs prompt reply w :
  countsUp w (run rev inputs w) /\
  countsUp w (snd (sendMessage prompt reply w)) /\
  countsUp w (snd (testConnection rev reply w)).
Proof.
  split; [|split].
  - eapply advance_countsUp, run_advance.
  - eapply advance_countsUp.
    apply (@advances_sendMessage (fun _ => True) (fun _ _ => True) True True); auto.
  - eapply advance_countsUp.
    apply (@advances_testConnection (fun _ => True) (fun _ _ => True) True True); auto.
Qed.

(** ** What a run emits *)

Lemma countSeverity_low vulnerabilities :
  Forall (fun v => serviceFinding (vuln_init v)) vulnerabilities ->
  countSeverity low vulnerabilities = 0.
Proof.
  unfold countSeverity. induction 1 as [|v vs Hv _ IH]; [reflexivity|].
  cbn [filter]. destruct Hv as (_ & [(_ & S & _)|(_ & [S|S] & _)]); rewrite S; exact IH.
Qed.

Lemma advance_findings allowed statusAllowed mayHold mayResume w w' :
  advance allowed statusAllowed mayHold mayResume w w' -> findingsSince w w'.
Proof.
  intros A. destruct (advance_trace _ _ A) as (es & T & _ & _ & _ & V & _).
  exists es. split; [exact T|]. split; [exact V|].
  intros iso w0. now apply countSeverity_low.
Qed.

(** Whatever the callbacks do, every finding the service emits, in a run
    of the event loop or in a call of [sendMessage], names a component
    and is of one of two kinds: an "Analysis" finding of medium severity
    with one piece of evidence, or a "Privilege Escalation" finding of
    high or critical severity with two.  None is of low severity, so the
    summary of a report exported from them counts no low finding. *)
Theorem findings_are_of_two_kinds rev inputs prompt reply w :
  findingsSince w (run rev inputs w) /\
  findingsSince w (snd (sendMessage prompt reply w)).
Proof.
  split.
  - eapply advance_findings, run_advance.
  - eapply advance_findings.
    apply (@advances_sendMessage (fun _ => True) (fun _ _ => True) True True); auto.
Qed.

(** ** The scan executes the commands of the scan only *)

Lemma executedCommands_allowed (allowed : string -> Prop) es :
  Forall (fun m => serviceMessage allowed (msg_init m)) (emittedMessages es) ->
  Forall allowed (executedCommands es).
Proof.
  unfold executedCommands. induction 1 as [|m ms Hm _ IH]; [constructor|].
  cbn [flat_map]. apply Forall_app. split; [|exact IH].
  destruct Hm as (_ & Hm). destruct (type (msg_init m)); try constructor.
  destruct (Hm eq_refl) as (cmd & Ha & ->). cbn. now repeat constructor.
Qed.

Lemma tick_execute_pending tid cmd w t w' :
  tick_execute tid cmd w = (Ok (Pending t), w') -> commandOf t = cmd.
Proof.
  unfold tick_execute, bind. destruct (executeCommand_begin cmd w) as [[[|]|e] w1].
  - cbn. intros E. injection E as <- _. reflexivity.
  - cbn. discriminate.
  - discriminate.
Qed.

Lemma tick_fire_pending rev tid w t w' :
  tick_fire rev tid w = (Ok (Pending t), w') -> In (commandOf t) scanCommands.
Proof.
  unfold tick_fire, bind, get. cbv zeta.
  set (index := match nth_error (timers w) tid with
                | Some t => commandIndex t
                | None => 0
                end).
  destruct (Nat.leb_spec (List.length scanCommands) index) as [L|L].
  - destruct (stopScan w) as [[[]|e] w1]; cbn; discriminate.
  - destruct (config w).
    + unfold ret. intros E.
      assert (Et : t = AwaitPost tid (nth index scanCommands EmptyString)) by congruence.
      rewrite Et. apply (nth_In scanCommands EmptyString L).
    + destruct (adviceFailed rev (nth index scanCommands EmptyString) TypeError w)
        as [[[]|e] w1]; [|discriminate].
      intros E. apply tick_execute_pending in E. rewrite E. now apply nth_In.
Qed.

Lemma tick_posted_pending rev tid cmd reply w t w' :
  tick_posted rev tid cmd reply w = (Ok (Pending t), w') -> commandOf t = cmd.
Proof.
  unfold tick_posted. unfold bind at 1.
  destruct (tryCatch _ _ w) as [[[]|e] w1]; [|discriminate].
  apply tick_execute_pending.
Qed.

Lemma tick_simulated_pending tid cmd w t w' :
  tick_simulated tid cmd w = (Ok (Pending t), w') -> False.
Proof.
  unfold tick_simulated, bind.
  destruct (executeCommand_resume cmd w) as [[[]|e] w1]; [|discriminate].
  destruct (incrementCommandIndex tid w1) as [[[]|e] w2]; cbn; discriminate.
Qed.

Lemma tasksOfTheScan_updateAt k (o : option Task) l :
  (forall k t, nth_error l k = Some (Some t) -> In (commandOf t) scanCommands) ->
  (forall t, o = Some t -> In (commandOf t) scanCommands) ->
  forall j t, nth_error (updateAt k (fun _ => o) l) j = Some (Some t) ->
    In (commandOf t) scanCommands.
Proof.
  intros Hl Ho j t E. destruct (Nat.eq_dec k j) as [->|Ne].
  - destruct (nth_error l j) as [x|] eqn:X.
    + rewrite (nth_error_updateAt_same _ _ _ _ X) in E. injection E as E. now apply Ho.
    + assert (N : nth_error (updateAt j (fun _ => o) l) j = None).
      { apply nth_error_None. rewrite length_updateAt. now apply nth_error_None. }
      congruence.
  - rewrite (nth_error_updateAt_other _ _ _ _ Ne) in E. exact (Hl _ _ E).
Qed.

Lemma tasksOfTheScan_step rev i w : tasksOfTheScan w -> tasksOfTheScan (step rev i w).
Proof.
  intros H.
  assert (K : forall A (m : M A),
            advances (fun _ => True) (fun _ _ => True) True False m ->
            tasks (snd (m w)) = tasks w).
  { intros A m Hm. apply (advance_keeps _ _ (Hm w)). tauto. }
  destruct i as [cfg| | |tid|k reply|k|t]; cbn [step].
  - exact H.
  - unfold tasksOfTheScan. rewrite (K _ startAutomaticScan); [exact H|].
    now apply advances_startAutomaticScan.
  - unfold tasksOfTheScan. rewrite (K _ stopScan); [exact H|].
    now apply advances_stopScan.
  - destruct (nth_error (timers w) tid) as [tm|]; [|exact H].
    destruct (timer_active tm); [|exact H].
    pose proof (K _ (tick_fire rev tid)) as Kt.
    pose proof (tick_fire_pending rev tid w) as P.
    destruct (tick_fire rev tid w) as [r w']. cbn [snd] in Kt.
    assert (Kt' : tasks w' = tasks w) by (apply Kt; now apply advances_tick_fire).
    destruct r as [[|t]|e]; cbn [suspensionOf]; unfold tasksOfTheScan;
      try (rewrite Kt'; exact H).
    cbn [tasks set_tasks]. rewrite Kt'. intros j t' E.
    destruct (Nat.lt_ge_cases j (List.length (tasks w))) as [L|L].
    + rewrite nth_error_app1 in E by exact L. exact (H _ _ E).
    + rewrite nth_error_app2 in E by exact L.
      destruct (j - List.length (tasks w)) as [|n]; cbn in E.
      * injection E as <-. exact (P _ _ eq_refl).
      * now destruct n.
  - destruct (nth_error (tasks w) k) as [[[tid cmd|tid cmd]|]|] eqn:E; try exact H.
    pose proof (K _ (tick_posted rev tid cmd reply)) as Kt.
    pose proof (tick_posted_pending rev tid cmd reply w) as P.
    destruct (tick_posted rev tid cmd reply w) as [r w']. cbn [snd] in Kt.
    assert (Kt' : tasks w' = tasks w) by (apply Kt; now apply advances_tick_posted).
    unfold tasksOfTheScan. cbn [tasks set_tasks]. rewrite Kt'.
    apply tasksOfTheScan_updateAt; [exact H|].
    intros t Ht. destruct r as [[|t0]|e]; cbn in Ht; try discriminate.
    injection Ht as ->. rewrite (P _ _ eq_refl). exact (H _ _ E).
  - destruct (nth_error (tasks w) k) as [[[tid cmd|tid cmd]|]|] eqn:E; try exact H.
    pose proof (K _ (tick_simulated tid cmd)) as Kt.
    pose proof (tick_simulated_pending tid cmd w) as P.
    destruct (tick_simulated tid cmd w) as [r w']. cbn [snd] in Kt.
    assert (Kt' : tasks w' = tasks w) by (apply Kt; apply advances_tick_simulated).
    unfold tasksOfTheScan. cbn [tasks set_tasks]. rewrite Kt'.
    apply tasksOfTheScan_updateAt; [exact H|].
    intros t Ht. destruct r as [[|t0]|e]; cbn in Ht; try discriminate.
    injection Ht as ->. now elim (P _ _ eq_refl).
  - exact H.
Qed.

(** However the ticks of a scan interleave and whatever the replies of
    the model hold, a run of the event loop from a state in which the
    suspended ticks hold commands of the scan announces commands of the
    scan only: the explanation a tick asks the model for is shown, never
    executed. *)
Theorem scan_executes_only_its_commands rev inputs w :
  tasksOfTheScan w ->
  exists es,
    trace (run rev inputs w) = (trace w ++ es)%list /\
    Forall (fun cmd => In cmd scanCommands) (executedCommands es).
Proof.
  revert w. induction inputs as [|i rest IH]; intros w H; cbn [run].
  - exists []. now rewrite app_nil_r.
  - destruct (IH _ (tasksOfTheScan_step rev i w H)) as (es2 & T2 & X2).
    assert (A : advance (fun cmd => In cmd scanCommands) (fun _ _ => True) True True
                  w (step rev i w)).
    { apply advance_step; auto. }
    destruct (advance_trace _ _ A) as (es1 & T1 & _ & _ & M1 & _).
    exists (es1 ++ es2)%list. split.
    + now rewrite T2, T1, app_assoc.
    + rewrite executedCommands_app. apply Forall_app. split; [|exact X2].
      now apply executedCommands_allowed.
Qed.

Lemma scan_executes_only_its_commands_witness :
  exists es,
    trace (run Rev2 overlappingScan demoWorld) = (trace demoWorld ++ es)%list /\
    Forall (fun cmd => In cmd scanCommands) (executedCommands es).
Proof.
  apply (scan_executes_only_its_commands Rev2 overlappingScan demoWorld).
  intros k t E. destruct k; discriminate E.
Defined.

(** ** The application: what the callbacks make of the calls *)

Lemma since_app w w' es : trace w' = (trace w ++ es)%list -> App.since w w' = es.
Proof.
  intros T. unfold App.since. rewrite T, skipn_app, skipn_all, Nat.sub_diag. reflexivity.
Qed.

Lemma since_same w w' : trace w' = trace w -> App.since w w' = [].
Proof. intros T. apply since_app. now rewrite app_nil_r. Qed.

Lemma replay_app a b st : App.replay (a ++ b)%list st = App.replay b (App.replay a st).
Proof. unfold App.replay. now rewrite deliveries_app, fold_left_app. Qed.

Lemma replay_nil st : App.replay [] st = st.
Proof. reflexivity. Qed.

Lemma replay_emitted p es st : App.replay (Emitted p :: es) st = App.replay es st.
Proof. reflexivity. Qed.

Lemma replay_console label e es st :
  App.replay (ConsoleError label e :: es) st = App.replay es st.
Proof. reflexivity. Qed.

(** The calls of [n] callbacks with one payload. *)
Lemma replay_deliveredTo {T} (wrap : T -> Payload) listeners x st :
  App.replay (deliveredTo wrap listeners x) st
  = Nat.iter (List.length listeners) (fun st => App.receive st (0, wrap x)) st.
Proof.
  unfold App.replay. rewrite deliveries_deliveredTo. revert st.
  induction listeners as [|s rest IH]; intros st; [reflexivity|].
  cbn [map fold_left List.length]. rewrite IH, Nat.iter_succ_r. reflexivity.
Qed.

Lemma iter_addMessage n m st :
  App.messages (Nat.iter n (fun st => App.receive st (0, PMessage m)) st)
  = (App.messages st ++ repeat m n)%list.
Proof.
  set (f := fun st => App.receive st (0, PMessage m)).
  induction n as [|n IH]; [cbn; now rewrite app_nil_r|].
  rewrite Nat.iter_succ. unfold f at 1.
  cbn [App.receive snd App.setMessages App.messages repeat]. rewrite IH, <- app_assoc. f_equal.
  change (repeat m n ++ [m])%list with (repeat m n ++ repeat m 1)%list.
  rewrite <- repeat_app. now rewrite Nat.add_1_r.
Qed.

Lemma iter_addVulnerability n v st :
  let st' := Nat.iter n (fun st => App.receive st (0, PVulnerability v)) st in
  App.vulnerabilities st' = (App.vulnerabilities st ++ repeat v n)%list /\
  App.vulnerabilitiesFound (App.systemStatus st')
  = App.vulnerabilitiesFound (App.systemStatus st) + n.
Proof.
  cbv zeta. set (f := fun st => App.receive st (0, PVulnerability v)).
  induction n as [|n [IH1 IH2]].
  - cbn. now rewrite app_nil_r, Nat.add_0_r.
  - rewrite Nat.iter_succ. unfold f at 1 3.
    cbn [App.receive snd App.setSystemStatus App.setVulnerabilities App.vulnerabilities
         App.systemStatus App.countVulnerability App.vulnerabilitiesFound repeat].
    rewrite IH1, IH2, <- app_assoc. split; [|lia]. f_equal.
    change (repeat v n ++ [v])%list with (repeat v n ++ repeat v 1)%list.
    rewrite <- repeat_app. now rewrite Nat.add_1_r.
Qed.

(** The world after the effect has run once per configuration of [cs]. *)
Lemma effects_world cs w :
  let w' := fold_left (fun w c => snd (App.effect c w)) cs w in
  onMessage_listeners w'
  = (onMessage_listeners w ++ repeat (recorder 1) (List.length cs))%list /\
  onVulnerabilityFound_listeners w'
  = (onVulnerabilityFound_listeners w ++ repeat (recorder 2) (List.length cs))%list /\
  onStatusChange_listeners w'
  = (onStatusChange_listeners w ++ repeat (recorder 3) (List.length cs))%list /\
  trace w' = trace w /\ messageId w' = messageId w /\ now w' = now w.
Proof.
  cbv zeta. revert w. induction cs as [|c cs IH]; intros w; cbn [fold_left List.length repeat].
  - now rewrite !app_nil_r.
  - destruct (IH (snd (App.effect c w))) as (M & V & S & T & I & N).
    rewrite M, V, S, T, I, N. cbn. rewrite <- !app_assoc. now repeat split.
Qed.

Lemma recorders_return {T} name n (x : T) :
  forall s, In s (repeat (recorder name) n) -> sub_call s x = None.
Proof. intros s Hs. apply repeat_spec in Hs. now subst s. Qed.

(** The effect of [App] has no cleanup and the service cannot remove a
    callback: once the effect has run [n] times (once when the
    application is mounted, once more each time a changed configuration
    is saved), each message the service emits is appended [n] times to
    the messages of the application, and each finding [n] times to its
    vulnerabilities, [vulnerabilitiesFound] advancing by [n]. *)
Theorem effect_reruns_multiply_what_is_shown cs t message v st :
  let n := List.length cs in
  let w := fold_left (fun w c => snd (App.effect c w)) cs (initial t) in
  let shown := App.replay (App.since w (snd (emitMessage message w))) st in
  let found := App.replay (App.since w (snd (emitVulnerability v w))) st in
  App.messages shown = (App.messages st ++ repeat (fullMessage w message) n)%list /\
  App.vulnerabilities found
  = (App.vulnerabilities st ++ repeat (fullVulnerability w v) n)%list /\
  App.vulnerabilitiesFound (App.systemStatus found)
  = App.vulnerabilitiesFound (App.systemStatus st) + n.
Proof.
  cbv zeta. set (w := fold_left _ cs (initial t)).
  destruct (effects_world cs (initial t)) as (M & V & _). fold w in M, V. cbn in M, V.
  split.
  - rewrite emitMessage_world, M, calledOf_returns by apply recorders_return.
    erewrite since_app by reflexivity.
    rewrite replay_emitted, replay_deliveredTo, repeat_length. apply iter_addMessage.
  - rewrite emitVulnerability_calls, V, calledOf_returns by apply recorders_return.
    erewrite since_app by reflexivity.
    rewrite replay_emitted, replay_deliveredTo, repeat_length. apply iter_addVulnerability.
Qed.

(** ** The application: its handlers *)

Lemma keepsTimers_detect response : keepsTimers (detectVulnerabilitiesFromResponse response).
Proof.
  unfold detectVulnerabilitiesFromResponse. destruct response; try apply keepsTimers_throw.
  destruct (0 <? List.length (foundKeywords s)); [|apply keepsTimers_ret].
  apply keepsTimers_bind; [apply keepsTimers_get | intros w].
  apply keepsTimers_emitVulnerability.
Qed.

Lemma keepsTimers_executeCommand cmd : keepsTimers (executeCommand cmd).
Proof.
  apply keepsTimers_bind; [apply keepsTimers_executeCommand_begin | intros started].
  destruct started; [apply keepsTimers_executeCommand_resume | apply keepsTimers_ret].
Qed.

Lemma keepsTimers_sendMessage prompt reply : keepsTimers (sendMessage prompt reply).
Proof.
  intros w. unfold sendMessage. destruct (config w); [|apply sameTimers_refl].
  apply keepsTimers_tryCatch.
  - apply keepsTimers_bind.
    { destruct reply; [apply keepsTimers_ret | apply keepsTimers_throw]. }
    intros response. apply keepsTimers_bind; [apply keepsTimers_lift | intros aiResponse].
    apply keepsTimers_bind; [apply keepsTimers_emitMessage | intros _].
    apply keepsTimers_bind; [apply keepsTimers_lift | intros subject]. cbv zeta.
    apply keepsTimers_bind; [|intros _; apply keepsTimers_detect].
    apply keepsTimers_forOf. intros cmd. apply keepsTimers_executeCommand.
  - intros e. apply keepsTimers_bind; [apply keepsTimers_consoleError | intros _].
    apply keepsTimers_throw.
Qed.

Lemma keepsTimers_testConnection rev reply : keepsTimers (testConnection rev reply).
Proof.
  intros w. unfold testConnection. destruct (config w); [|apply sameTimers_refl].
  apply keepsTimers_tryCatch.
  - apply keepsTimers_bind.
    { destruct reply; [apply keepsTimers_ret | apply keepsTimers_throw]. }
    intros llmResponse. apply keepsTimers_bind.
    { destruct (negb (fst llmResponse =? 200)%Z);
        [apply keepsTimers_throw | apply keepsTimers_ret]. }
    intros _. apply keepsTimers_bind.
    { intros w'. unfold simulateSSHConnection. destruct (config w'); [|apply sameTimers_refl].
      destruct rev; apply sameTimers_refl. }
    intros sshTest.
    apply keepsTimers_bind; [apply keepsTimers_emitStatusChange | intros _].
    apply keepsTimers_ret.
  - intros e. apply keepsTimers_bind; [apply keepsTimers_consoleError | intros _].
    destruct rev.
    + apply keepsTimers_bind; [apply keepsTimers_emitStatusChange | intros _].
      apply keepsTimers_ret.
    + apply keepsTimers_bind; [apply keepsTimers_throw | intros _].
      apply keepsTimers_bind; [apply keepsTimers_emitStatusChange | intros _].
      apply keepsTimers_ret.
Qed.

(** What the replayed calls change in the state. *)
Lemma replay_configuration es st :
  App.configuration (App.replay es st) = App.configuration st.
Proof.
  unfold App.replay. generalize (deliveries es). intros l. revert st.
  induction l as [|[n p] l IH]; intros st; [reflexivity|].
  cbn [fold_left]. rewrite IH. now destruct p.
Qed.

Lemma replay_counts es st :
  exists k,
    App.vulnerabilitiesFound (App.systemStatus (App.replay es st))
    = App.vulnerabilitiesFound (App.systemStatus st) + k /\
    List.length (App.vulnerabilities (App.replay es st))
    = List.length (App.vulnerabilities st) + k.
Proof.
  unfold App.replay. generalize (deliveries es). intros l. revert st.
  induction l as [|[n p] l IH]; intros st; [exists 0; cbn; lia|].
  cbn [fold_left]. destruct (IH (App.receive st (n, p))) as (k & F & L).
  rewrite F, L. destruct p; cbn.
  - exists k. lia.
  - exists (S k). rewrite length_app. cbn. lia.
  - exists k. lia.
Qed.

Lemma replay_messages es st :
  Forall (fun call => servicePayload (fun _ => True) (snd call)) (deliveries es) ->
  Forall fromUserOrService (App.messages st) ->
  Forall fromUserOrService (App.messages (App.replay es st)).
Proof.
  unfold App.replay. generalize (deliveries es). intros l. revert st.
  induction l as [|[n p] l IH]; intros st H U; [exact U|].
  cbn [fold_left]. inversion H as [|? ? Hp Hl]; subst. apply IH; [exact Hl|].
  destruct p; cbn; try exact U.
  apply Forall_app. split; [exact U|]. constructor; [|constructor].
  intros S. cbn in Hp. destruct Hp as (Hp & _). now elim Hp.
Qed.

(** ** The application: the counter of findings *)

Lemma act_counts rev action a :
  exists k,
    App.vulnerabilitiesFound (App.systemStatus (snd (App.act rev action a)))
    = App.vulnerabilitiesFound (App.systemStatus (snd a)) + k /\
    match action with
    | App.ClearVulnerabilities => App.vulnerabilities (snd (App.act rev action a)) = []
    | _ =>
        List.length (App.vulnerabilities (snd (App.act rev action a)))
        = List.length (App.vulnerabilities (snd a)) + k
    end.
Proof.
  assert (Z0 : forall st : App.State,
            exists k,
              App.vulnerabilitiesFound (App.systemStatus st)
              = App.vulnerabilitiesFound (App.systemStatus st) + k /\
              List.length (App.vulnerabilities st)
              = List.length (App.vulnerabilities st) + k).
  { intros st. exists 0. lia. }
  assert (S0 : forall prompt reply later w st,
            exists k,
              App.vulnerabilitiesFound
                (App.systemStatus
                   (snd (App.handleSendMessage prompt reply later (w, st))))
              = App.vulnerabilitiesFound (App.systemStatus st) + k /\
              List.length
                (App.vulnerabilities
                   (snd (App.handleSendMessage prompt reply later (w, st))))
              = List.length (App.vulnerabilities st) + k).
  { intros prompt reply later w st. unfold App.handleSendMessage.
    destruct (sendMessage prompt reply w) as [r w'].
    destruct (replay_counts (App.since w w')
                (App.setMessages (fun prev => prev ++ [App.userMessage w prompt])%list st))
      as (k & F & L).
    exists k. destruct r; cbn [snd] in *; cbn in F, L |- *; now split. }
  destruct a as [w st]. destruct action as [c| |c|reply|input reply later|i reply later| | | |i];
    cbn [App.act snd].
  - exists 0. cbn. lia.
  - exists 0. cbn. lia.
  - exists 0. cbn. lia.
  - unfold App.onTestConnection. destruct (testConnection rev reply w) as [r w'].
    destruct (replay_counts (App.since w w') st) as (k & F & L).
    exists k. destruct r; cbn [snd] in *; cbn; now split.
  - destruct (isConfigured (App.configuration st)); [|apply Z0].
    destruct (ChatInterface.handleSendMessage input _) as [[prompt|] ?]; [|apply Z0].
    apply S0.
  - destruct (isConfigured (App.configuration st)); [|apply Z0].
    destruct (App.messages st); [|apply Z0].
    destruct (nth_error ChatInterface.quickPrompts i); [|apply Z0].
    apply S0.
  - destruct (_ && _ && _); [|apply Z0].
    unfold App.handleStartScan. destruct (startAutomaticScan w) as [r w'].
    destruct (replay_counts (App.since w w')
                (App.setSystemStatus (App.withScanning true) st)) as (k & F & L).
    exists k. destruct r; cbn [snd] in *; cbn in F, L |- *; now split.
  - destruct (_ && _); [|apply Z0].
    unfold App.handleStopScan. destruct (stopScan w) as [r w'].
    destruct (replay_counts (App.since w w') st) as (k & F & L).
    exists k. destruct r; cbn [snd] in *; cbn; now split.
  - exists 0. cbn. split; [lia | reflexivity].
  - unfold App.runtime.
    destruct (replay_counts (App.since w (step rev i w)) st) as (k & F & L).
    destruct i; try apply Z0; exists k; now split.
Qed.

(** In a session of the application, whatever the user and the runtime
    do, the counter [vulnerabilitiesFound] the chat shows never falls
    behind the list of vulnerabilities the dashboard and the status bar
    count, and the two agree as long as the list has not been cleared:
    clearing empties the list and leaves the counter. *)
Theorem counter_outlives_the_list rev actions t :
  let st := snd (App.session rev actions (App.mounted t)) in
  List.length (App.vulnerabilities st) <= App.vulnerabilitiesFound (App.systemStatus st) /\
  (~ In App.ClearVulnerabilities actions ->
   List.length (App.vulnerabilities st) = App.vulnerabilitiesFound (App.systemStatus st)).
Proof.
  cbv zeta.
  assert (G : forall a,
            List.length (App.vulnerabilities (snd a))
            <= App.vulnerabilitiesFound (App.systemStatus (snd a)) ->
            List.length (App.vulnerabilities (snd (App.session rev actions a)))
            <= App.vulnerabilitiesFound (App.systemStatus (snd (App.session rev actions a)))
            /\
            (~ In App.ClearVulnerabilities actions ->
             List.length (App.vulnerabilities (snd a))
             = App.vulnerabilitiesFound (App.systemStatus (snd a)) ->
             List.length (App.vulnerabilities (snd (App.session rev actions a)))
             = App.vulnerabilitiesFound
                 (App.systemStatus (snd (App.session rev actions a))))).
  { induction actions as [|action rest IH]; intros a H; cbn [App.session].
    - now split.
    - destruct (act_counts rev action a) as (k & F & L).
      destruct (IH (App.act rev action a)) as (I1 & I2).
      + rewrite F. destruct action; try lia. rewrite L. cbn. lia.
      + split; [exact I1|]. intros N E. apply I2.
        * intros Hin. apply N. now right.
        * rewrite F. destruct action; try lia. elim N. now left. }
  destruct (G (App.mounted t)) as (G1 & G2); [cbn; lia|].
  split; [exact G1|]. intros N. now apply G2.
Qed.

(** ** The application: the messages it shows *)

Lemma method_messages {A} (m : M A) w st :
  advances (fun _ => True) (fun _ _ => True) True True m ->
  Forall fromUserOrService (App.messages st) ->
  Forall fromUserOrService (App.messages (App.replay (App.since w (snd (m w))) st)).
Proof.
  intros Hm U. destruct (advance_trace _ _ (Hm w)) as (es & T & _ & _ & _ & _ & D).
  rewrite (since_app _ _ _ T). now apply replay_messages.
Qed.

Lemma userMessage_ok w prompt :
  prompt <> EmptyString -> trim prompt = prompt ->
  fromUserOrService (App.userMessage w prompt).
Proof. intros N T _. split; [reflexivity|]. now exists prompt. Qed.

Lemma handleSendMessage_messages prompt reply later w st :
  prompt <> EmptyString -> trim prompt = prompt ->
  Forall fromUserOrService (App.messages st) ->
  Forall fromUserOrService
    (App.messages (snd (App.handleSendMessage prompt reply later (w, st)))).
Proof.
  intros N T U. unfold App.handleSendMessage.
  pose proof (method_messages (sendMessage prompt reply) w
                (App.setMessages (fun prev => prev ++ [App.userMessage w prompt])%list st))
    as H.
  destruct (sendMessage prompt reply w) as [r w']. cbn [snd] in H.
  assert (H' : Forall fromUserOrService
                 (App.messages
                    (App.replay (App.since w w')
                       (App.setMessages
                          (fun prev => prev ++ [App.userMessage w prompt])%list st)))).
  { apply H.
    - apply (@advances_sendMessage (fun _ => True) (fun _ _ => True) True True); auto.
    - cbn. apply Forall_app. split; [exact U|].
      constructor; [now apply userMessage_ok | constructor]. }
  destruct r; cbn [snd]; [exact H'|].
  cbn. apply Forall_app. split; [exact H'|]. constructor; [|constructor].
  intros S. discriminate S.
Qed.

Lemma act_messages rev action a :
  Forall fromUserOrService (App.messages (snd a)) ->
  Forall fromUserOrService (App.messages (snd (App.act rev action a))).
Proof.
  destruct a as [w st]. cbn [snd]. intros U.
  destruct action as [c| |c|reply|input reply later|i reply later| | | |i]; cbn [App.act snd].
  - exact U.
  - exact U.
  - exact U.
  - unfold App.onTestConnection.
    pose proof (method_messages (testConnection rev reply) w st) as H.
    destruct (testConnection rev reply w) as [r w']. cbn [snd] in H.
    destruct r; cbn; apply H; try exact U;
      apply (@advances_testConnection (fun _ => True) (fun _ _ => True) True True); auto.
  - destruct (isConfigured (App.configuration st)); [|exact U].
    unfold ChatInterface.handleSendMessage.
    destruct (negb (String.eqb (trim input) EmptyString)) eqn:B; cbn [andb]; [|exact U].
    destruct (negb (App.status_scanning (App.systemStatus st))); [|exact U].
    apply handleSendMessage_messages; [| apply trim_idem | exact U].
    apply negb_true_iff, String.eqb_neq in B. exact B.
  - destruct (isConfigured (App.configuration st)); [|exact U].
    destruct (App.messages st) eqn:E; [|cbn [snd]; rewrite E; exact U].
    destruct (nth_error ChatInterface.quickPrompts i) as [prompt|] eqn:Q;
      [|cbn [snd]; rewrite E; exact U].
    apply handleSendMessage_messages; [| |rewrite E; exact U].
    + apply nth_error_In in Q. cbn in Q.
      destruct Q as [<-|[<-|[<-|[]]]]; discriminate.
    + apply nth_error_In in Q. cbn in Q.
      destruct Q as [<-|[<-|[<-|[]]]]; reflexivity.
  - destruct (_ && _ && _); [|exact U].
    unfold App.handleStartScan.
    pose proof (method_messages startAutomaticScan w
                  (App.setSystemStatus (App.withScanning true) st)) as H.
    destruct (startAutomaticScan w) as [r w']. cbn [snd] in H.
    destruct r; cbn; apply H; try exact U;
      apply (@advances_startAutomaticScan (fun _ => True) (fun _ _ => True) True True); auto.
  - destruct (_ && _); [|exact U].
    unfold App.handleStopScan.
    pose proof (method_messages stopScan w st) as H.
    destruct (stopScan w) as [r w']. cbn [snd] in H.
    destruct r; cbn; apply H; try exact U;
      apply (@advances_stopScan (fun _ => True) (fun _ _ => True) True True); auto.
  - exact U.
  - unfold App.runtime.
    assert (H : Forall fromUserOrService
                  (App.messages (App.replay (App.since w (step rev i w)) st))).
    { assert (A : advance (fun _ => True) (fun _ _ => True) True True w (step rev i w))
        by now apply advance_step.
      destruct (advance_trace _ _ A) as (es & T & _ & _ & _ & _ & D).
      rewrite (since_app _ _ _ T). now apply replay_messages. }
    destruct i; cbn [snd]; try exact U; exact H.
Qed.

(** In a session of the application every message shown in the name of
    the user is a text the user sent through the chat: not blank, and
    trimmed.  The send button and the prompt buttons pass nothing else,
    and the service emits no message as the user. *)
Theorem user_messages_are_what_the_user_sent rev actions t :
  Forall fromUserOrService (App.messages (snd (App.session rev actions (App.mounted t)))).
Proof.
  assert (G : forall a,
            Forall fromUserOrService (App.messages (snd a)) ->
            Forall fromUserOrService (App.messages (snd (App.session rev actions a)))).
  { induction actions as [|action rest IH]; intros a U; cbn [App.session]; [exact U|].
    apply IH. now apply act_messages. }
  apply G. constructor.
Qed.



(** ** The application: one timer through its buttons *)

Lemma iter_receive_scanning n p st :
  let st' := Nat.iter n (fun st => App.receive st (0, p)) st in
  App.status_scanning (App.systemStatus st') = App.status_scanning (App.systemStatus st) \/
  exists s b,
    p = PStatus s /\ scanning s = Some b /\
    App.status_scanning (App.systemStatus st') = b.
Proof.
  cbv zeta. set (f := fun st => App.receive st (0, p)).
  induction n as [|n IH]; [now left|].
  rewrite Nat.iter_succ. unfold f at 1. destruct p as [m|v|s]; cbn.
  - destruct IH as [IH|(s & b & E & _)]; [now left | discriminate E].
  - destruct IH as [IH|(s & b & E & _)]; [now left | discriminate E].
  - destruct (scanning s) as [b|] eqn:S.
    + right. now exists s, b.
    + destruct IH as [IH|(s' & b & E & S' & _)]; [now left|].
      injection E as <-. congruence.
Qed.

(** What one emission, with the calls that follow it, does to the flag
    the application shows. *)
Lemma replay_emission_scanning {T} (wrap : T -> Payload) listeners x st :
  let st' := App.replay (Emitted (wrap x) :: deliveredTo wrap listeners x) st in
  App.status_scanning (App.systemStatus st') = App.status_scanning (App.systemStatus st) \/
  exists s b,
    wrap x = PStatus s /\ scanning s = Some b /\
    App.status_scanning (App.systemStatus st') = b.
Proof.
  cbv zeta. rewrite replay_emitted, replay_deliveredTo. apply iter_receive_scanning.
Qed.

Lemma since_emitMessage message w :
  App.since w (snd (emitMessage message w))
  = Emitted (PMessage (fullMessage w message))
      :: deliveredTo PMessage (calledOf (onMessage_listeners w) (fullMessage w message))
           (fullMessage w message).
Proof. rewrite emitMessage_world. now apply since_app. Qed.

Lemma since_emitVulnerability v w :
  App.since w (snd (emitVulnerability v w))
  = Emitted (PVulnerability (fullVulnerability w v))
      :: deliveredTo PVulnerability
           (calledOf (onVulnerabilityFound_listeners w) (fullVulnerability w v))
           (fullVulnerability w v).
Proof. rewrite emitVulnerability_calls. now apply since_app. Qed.

Lemma since_emitStatusChange status w :
  App.since w (snd (emitStatusChange status w))
  = Emitted (PStatus status)
      :: deliveredTo PStatus (calledOf (onStatusChange_listeners w) status) status.
Proof. rewrite emitStatusChange_world. now apply since_app. Qed.

Lemma scanInterval_emitMessage message w :
  scanInterval (snd (emitMessage message w)) = scanInterval w.
Proof. now rewrite emitMessage_world. Qed.

Lemma scanInterval_emitVulnerability v w :
  scanInterval (snd (emitVulnerability v w)) = scanInterval w.
Proof. now rewrite emitVulnerability_calls. Qed.

Lemma scanInterval_emitStatusChange status w :
  scanInterval (snd (emitStatusChange status w)) = scanInterval w.
Proof. now rewrite emitStatusChange_world. Qed.

(** A sequence of moves keeps a property of the flag that every status
    it may emit keeps. *)
Lemma advance_scanning (I : bool -> Prop) allowed statusAllowed mayHold mayResume w w' :
  (forall w s b, statusAllowed w s -> scanning s = Some b -> I b) ->
  advance allowed statusAllowed mayHold mayResume w w' ->
  forall st,
    I (App.status_scanning (App.systemStatus st)) ->
    I (App.status_scanning (App.systemStatus (App.replay (App.since w w') st))).
Proof.
  intros HI. induction 1 as [w|w1 w2 w3 A1 IH1 A2 IH2|w message Hm|w v Hv|w status Hs
                            |w label e|w handle|w|w|w handle Hh|w tid|w cfg|w t|w l Hr];
    intros st H;
    try (rewrite since_same by reflexivity; exact H).
  - destruct (advance_trace _ _ A1) as (es1 & T1 & _).
    destruct (advance_trace _ _ A2) as (es2 & T2 & _).
    rewrite (since_app w1 w3 (es1 ++ es2)%list) by now rewrite T2, T1, app_assoc.
    rewrite replay_app. rewrite <- (since_app _ _ _ T1), <- (since_app _ _ _ T2).
    apply IH2, IH1, H.
  - rewrite since_emitMessage.
    destruct (replay_emission_scanning PMessage
                (calledOf (onMessage_listeners w) (fullMessage w message))
                (fullMessage w message) st) as [E|(s & b & E & _)];
      [now rewrite E | discriminate E].
  - rewrite since_emitVulnerability.
    destruct (replay_emission_scanning PVulnerability
                (calledOf (onVulnerabilityFound_listeners w) (fullVulnerability w v))
                (fullVulnerability w v) st) as [E|(s & b & E & _)];
      [now rewrite E | discriminate E].
  - rewrite since_emitStatusChange.
    destruct (replay_emission_scanning PStatus
                (calledOf (onStatusChange_listeners w) status) status st)
      as [E|(s & b & E & S & ->)]; [now rewrite E|].
    injection E as <-. exact (HI _ _ _ Hs S).
  - rewrite (since_app _ _ [ConsoleError label e]) by reflexivity. exact H.
Qed.

(** While the service holds a timer handle the application shows a scan,
    along every sequence of moves that stores no handle and emits
    [scanning: false] only once the handle is forgotten. *)
Lemma advance_shown allowed mayResume w w' :
  advance allowed (fun w s => scanning s = Some false -> scanInterval w = None)
    False mayResume w w' ->
  forall st,
    (scanInterval w <> None -> App.status_scanning (App.systemStatus st) = true) ->
    scanInterval w' <> None ->
    App.status_scanning (App.systemStatus (App.replay (App.since w w') st)) = true.
Proof.
  induction 1 as [w|w1 w2 w3 A1 IH1 A2 IH2|w message Hm|w v Hv|w status Hs
                 |w label e|w handle|w|w|w handle Hh|w tid|w cfg|w t|w l Hr];
    intros st H N;
    try (rewrite since_same by reflexivity; exact (H N)).
  - destruct (advance_trace _ _ A1) as (es1 & T1 & _).
    destruct (advance_trace _ _ A2) as (es2 & T2 & _).
    rewrite (since_app w1 w3 (es1 ++ es2)%list) by now rewrite T2, T1, app_assoc.
    rewrite replay_app. rewrite <- (since_app _ _ _ T1), <- (since_app _ _ _ T2).
    apply IH2; [|exact N]. intros N2. now apply IH1.
  - rewrite scanInterval_emitMessage in N. rewrite since_emitMessage.
    destruct (replay_emission_scanning PMessage
                (calledOf (onMessage_listeners w) (fullMessage w message))
                (fullMessage w message) st) as [E|(s & b & E & _)];
      [rewrite E; exact (H N) | discriminate E].
  - rewrite scanInterval_emitVulnerability in N. rewrite since_emitVulnerability.
    destruct (replay_emission_scanning PVulnerability
                (calledOf (onVulnerabilityFound_listeners w) (fullVulnerability w v))
                (fullVulnerability w v) st) as [E|(s & b & E & _)];
      [rewrite E; exact (H N) | discriminate E].
  - rewrite scanInterval_emitStatusChange in N. rewrite since_emitStatusChange.
    destruct (replay_emission_scanning PStatus
                (calledOf (onStatusChange_listeners w) status) status st)
      as [E|(s & b & E & S & ->)]; [rewrite E; exact (H N)|].
    injection E as <-. destruct b; [reflexivity|]. now elim N; apply Hs.
  - rewrite (since_app _ _ [ConsoleError label e]) by reflexivity. exact (H N).
  - now elim N.
  - now elim Hh.
Qed.

Lemma quiet_keeps w w' :
  onMessage_listeners w' = onMessage_listeners w ->
  onVulnerabilityFound_listeners w' = onVulnerabilityFound_listeners w ->
  onStatusChange_listeners w' = onStatusChange_listeners w ->
  quiet w -> quiet w'.
Proof. intros M V S (Qm & Qv & Qs). unfold quiet. rewrite M, V, S. now repeat split. Qed.

Lemma advance_quiet allowed statusAllowed mayHold mayResume w w' :
  advance allowed statusAllowed mayHold mayResume w w' ->
  quiet w -> config w <> None -> quiet w' /\ config w' <> None.
Proof.
  intros A Q C. destruct (advance_keeps _ _ A) as (M & V & S & C' & _).
  split; [now apply (quiet_keeps w) | now apply C'].
Qed.

Lemma noStrayTimer_log e w : noStrayTimer w -> noStrayTimer (log e w).
Proof. intros N. exact N. Qed.

Lemma handleSendMessage_serves prompt reply later a :
  servedByTheButtons a ->
  servedByTheButtons (App.handleSendMessage prompt reply later a).
Proof.
  destruct a as [w st]. intros (Q & C & N & J). unfold App.handleSendMessage.
  pose proof (@advances_sendMessage (fun _ => True) (fun _ s => scanning s = None)
                True True prompt reply (fun _ => I) w) as A.
  pose proof (keepsTimers_sendMessage prompt reply w) as K.
  destruct (sendMessage prompt reply w) as [r w']. cbn [snd fst] in *.
  destruct (advance_quiet _ _ _ _ _ _ A Q C) as (Q' & C').
  assert (N' : noStrayTimer w') by exact (noStrayTimer_same _ _ K N).
  assert (J' : scanInterval w' <> None ->
               App.status_scanning
                 (App.systemStatus
                    (App.replay (App.since w w')
                       (App.setMessages
                          (fun prev => prev ++ [App.userMessage w prompt])%list st)))
               = true).
  { intros X. destruct K as (_ & K). rewrite K in X.
    rewrite <- (J X).
    eapply (advance_scanning (fun b => b = App.status_scanning (App.systemStatus st)));
      [|exact A|reflexivity].
    cbv beta. intros ? ? ? E1 E2. congruence. }
  destruct r; exact (conj Q' (conj C' (conj N' J'))).
Qed.

Lemma act_serves rev action a :
  servedByTheButtons a -> servedByTheButtons (App.act rev action a).
Proof.
  destruct a as [w st]. intros Inv. pose proof Inv as (Q & C & N & J).
  cbn [fst snd] in Q, C, N, J.
  destruct action as [c| |c|reply|input reply later|i reply later| | | |i]; cbn [App.act].
  - (* Save *)
    unfold App.handleConfigurationSave. destruct Q as (Qm & Qv & Qs).
    refine (conj (conj _ (conj _ _)) (conj _ (conj N J))); cbn.
    + intros s m [Hs|[<-|[]]]%in_app_or; [now apply Qm | reflexivity].
    + intros s m [Hs|[<-|[]]]%in_app_or; [now apply Qv | reflexivity].
    + intros s m [Hs|[<-|[]]]%in_app_or; [now apply Qs | reflexivity].
    + discriminate.
  - (* SaveAgain *)
    refine (conj Q (conj _ (conj N J))). cbn. discriminate.
  - (* EditField *)
    refine (conj Q (conj _ (conj N J))). cbn. discriminate.
  - (* TestConnection *)
    unfold App.onTestConnection.
    pose proof (@advances_testConnection (fun _ => True) (fun _ s => scanning s = None)
                  True True rev reply (fun _ _ => eq_refl) w) as A.
    pose proof (keepsTimers_testConnection rev reply w) as K.
    destruct (testConnection rev reply w) as [r w']. cbn [snd fst] in *.
    destruct (advance_quiet _ _ _ _ _ _ A Q C) as (Q' & C').
    assert (N' : noStrayTimer w') by exact (noStrayTimer_same _ _ K N).
    assert (J' : scanInterval w' <> None ->
                 App.status_scanning
                   (App.systemStatus (App.replay (App.since w w') st)) = true).
    { intros X. destruct K as (_ & K). rewrite K in X. rewrite <- (J X).
      eapply (advance_scanning (fun b => b = App.status_scanning (App.systemStatus st)));
        [|exact A|reflexivity].
      cbv beta. intros ? ? ? E1 E2. congruence. }
    destruct r; exact (conj Q' (conj C' (conj N' J'))).
  - (* PressSend *)
    destruct (isConfigured (App.configuration st)); [|exact Inv].
    destruct (ChatInterface.handleSendMessage input _) as [[prompt|] ?]; [|exact Inv].
    now apply handleSendMessage_serves.
  - (* QuickPrompt *)
    destruct (isConfigured (App.configuration st)); [|exact Inv].
    destruct (App.messages st); [|exact Inv].
    destruct (nth_error ChatInterface.quickPrompts i); [|exact Inv].
    now apply handleSendMessage_serves.
  - (* ClickAutoScan *)
    destruct (isConfigured (App.configuration st)); [|exact Inv].
    destruct (App.status_scanning (App.systemStatus st)) eqn:S; [exact Inv|].
    cbn [negb andb].
    destruct (JS.truthy (App.status_connected (App.systemStatus st))); [|exact Inv].
    assert (I0 : scanInterval w = None).
    { destruct (scanInterval w) eqn:X; [|reflexivity].
      assert (F : false = true) by (apply J; discriminate). discriminate F. }
    unfold App.handleStartScan.
    destruct (startAutomaticScan_quiet w Q C) as (es & w1 & E & _).
    assert (A : advance (fun _ => True) (fun _ s => scanning s <> Some false) True True
                  w (snd (startAutomaticScan w))).
    { apply advances_startAutomaticScan; [exact I|]. intros ? ?. discriminate. }
    pose proof (noStrayTimer_startAutomaticScan w N I0) as N'.
    rewrite E in *. cbn [snd fst] in *.
    destruct (advance_quiet _ _ _ _ _ _ A Q C) as (Q' & C').
    refine (conj Q' (conj C' (conj N' _))). intros _. cbn [snd].
    eapply (advance_scanning (fun b => b = true)); [|exact A|reflexivity].
    cbv beta. intros ? ? [|] E1 E2; congruence.
  - (* ClickStop *)
    destruct (isConfigured (App.configuration st) && _); [|exact Inv].
    unfold App.handleStopScan.
    destruct (stopScan_quiet w Q) as (es & w1 & E & (C1 & M1 & V1 & S1 & _) & I1 & _).
    pose proof (noStrayTimer_stopScan w N) as N'.
    rewrite E in *. cbn [snd fst] in *.
    refine (conj _ (conj _ (conj N' _))).
    + now apply (quiet_keeps w).
    + cbn [fst]. now rewrite C1.
    + intros X. now elim X.
  - (* ClearVulnerabilities *)
    exact Inv.
  - (* Runtime *)
    unfold App.runtime.
    assert (R : forall i, i <> StartScan ->
                servedByTheButtons
                  (step rev i w, App.replay (App.since w (step rev i w)) st)).
    { clear i. intros i Hi.
      assert (A : advance (fun _ => True)
                    (fun w s => scanning s = Some false -> scanInterval w = None)
                    False True w (step rev i w)).
      { apply advance_step; auto. intros ? ? F. discriminate F. }
      destruct (advance_quiet _ _ _ _ _ _ A Q C) as (Q' & C').
      refine (conj Q' (conj C' (conj _ _))).
      - apply noStrayTimer_step; [exact N | intros Ei; now elim Hi].
      - cbn [fst snd]. intros X. now apply (advance_shown _ _ _ _ A). }
    destruct i; try exact Inv; apply R; discriminate.
Qed.

(** Through the buttons of the application no second scan timer is ever
    scheduled.  The chat shows the scan button only while the status it
    holds says that no scan runs, and while the service holds a timer the
    status says that one does: so [startAutomaticScan] is never called
    while a timer is held, whatever the runtime does in between. *)
Theorem one_timer_through_the_buttons rev actions t :
  let a := App.session rev actions (App.mounted t) in
  scheduledTimers (fst a) <= 1 /\
  (scanInterval (fst a) <> None ->
   App.status_scanning (App.systemStatus (snd a)) = true).
Proof.
  cbv zeta.
  assert (G : forall a, servedByTheButtons a ->
                servedByTheButtons (App.session rev actions a)).
  { induction actions as [|action rest IH]; intros a H; cbn [App.session]; [exact H|].
    apply IH, act_serves, H. }
  destruct (G (App.mounted t)) as (_ & _ & N & J).
  - refine (conj (conj _ (conj _ _)) (conj _ (conj _ _))); cbn.
    + intros s m [<-|[]]. reflexivity.
    + intros s m [<-|[]]. reflexivity.
    + intros s m [<-|[]]. reflexivity.
    + discriminate.
    + intros i tm E. destruct i; discriminate E.
    + intros X. now elim X.
  - split; [now apply noStrayTimer_one | exact J].
Qed.

(** ** What extraction returns, on any reply *)

Lemma capturesWithin_lit p k : capturesWithin k -> capturesWithin (lit p k).
Proof.
  unfold lit. induction p as [|a p IH]; intros H s cap rest E.
  - exact (H _ _ _ E).
  - cbn [litWith] in E. destruct s as [|b s]; [discriminate|].
    destruct (Ascii.eqb a b) eqn:Eab; [|discriminate].
    destruct (IH H _ _ _ E) as (before & after & ->).
    exists (String b before), after. reflexivity.
Qed.

Lemma capturesWithin_star c k : capturesWithin k -> capturesWithin (star c k).
Proof.
  intros H s. induction s as [|a s IH]; intros cap rest E; cbn [star] in E.
  - exact (H _ _ _ E).
  - destruct (c a).
    + destruct (star c k s) as [[cap' rest']|] eqn:S.
      * injection E as <- <-. destruct (IH _ _ eq_refl) as (before & after & ->).
        exists (String a before), after. reflexivity.
      * exact (H _ _ _ E).
    + exact (H _ _ _ E).
Qed.

Lemma capturesWithin_alt (m1 m2 : @Cont (string * string) -> @Cont (string * string)) k :
  capturesWithin (m1 k) -> capturesWithin (m2 k) -> capturesWithin (alt m1 m2 k).
Proof.
  intros H1 H2 s cap rest E. unfold alt in E.
  destruct (m1 k s) as [[cap' rest']|] eqn:S.
  - injection E as <- <-. exact (H1 _ _ _ S).
  - exact (H2 _ _ _ E).
Qed.

Lemma capturesWithin_search m : capturesWithin m -> capturesWithin (search m).
Proof.
  intros H s. induction s as [|a s IH]; intros cap rest E; cbn [search] in E.
  - destruct (m EmptyString) as [[cap' rest']|] eqn:S; [|discriminate].
    injection E as <- <-. exact (H _ _ _ S).
  - destruct (m (String a s)) as [[cap' rest']|] eqn:S.
    + injection E as <- <-. exact (H _ _ _ S).
    + destruct (IH _ _ E) as (before & after & ->).
      exists (String a before), after. reflexivity.
Qed.

(** The lazy group hands over what it has consumed. *)
Lemma capturesWithin_lazyGroup c (k : string -> @Cont (string * string)) (f : string -> string) :
  (forall cap0 s cap rest, k cap0 s = Some (cap, rest) ->
     cap = f cap0 /\ exists after, s = after ++ rest) ->
  forall s cap rest, lazyGroup c k s = Some (cap, rest) ->
    exists mid after, cap = f mid /\ s = mid ++ after ++ rest.
Proof.
  intros H s. revert k f H. induction s as [|a s IH]; intros k f H cap rest E.
  - cbn [lazyGroup] in E. destruct (k EmptyString EmptyString) as [[cap' rest']|] eqn:S;
      [|discriminate].
    injection E as <- <-. destruct (H _ _ _ _ S) as (-> & after & A).
    exists EmptyString, after. now split.
  - cbn [lazyGroup] in E. destruct (k EmptyString (String a s)) as [[cap' rest']|] eqn:S.
    + injection E as <- <-. destruct (H _ _ _ _ S) as (-> & after & A).
      exists EmptyString, after. now split.
    + destruct (c a); [|discriminate].
      destruct (IH (fun cap0 => k (String a cap0)) (fun cap0 => f (String a cap0))
                  ltac:(intros cap0 s0 cap1 rest1 E1; exact (H _ _ _ _ E1)) _ _ E)
        as (mid & after & -> & ->).
      exists (String a mid), after. now split.
Qed.

Lemma handsOver_lit cap0 p k : handsOver cap0 k -> handsOver cap0 (lit p k).
Proof.
  unfold lit. induction p as [|a p IH]; intros H s cap rest E.
  - exact (H _ _ _ E).
  - cbn [litWith] in E. destruct s as [|b s]; [discriminate|].
    destruct (Ascii.eqb a b); [|discriminate].
    destruct (IH H _ _ _ E) as (-> & after & ->).
    split; [reflexivity|]. now exists (String b after).
Qed.

Lemma handsOver_star cap0 c k : handsOver cap0 k -> handsOver cap0 (star c k).
Proof.
  intros H s. induction s as [|a s IH]; intros cap rest E; cbn [star] in E.
  - exact (H _ _ _ E).
  - destruct (c a).
    + destruct (star c k s) as [[cap' rest']|] eqn:S.
      * injection E as <- <-. destruct (IH _ _ eq_refl) as (-> & after & ->).
        split; [reflexivity|]. now exists (String a after).
      * exact (H _ _ _ E).
    + exact (H _ _ _ E).
Qed.

Lemma commandRegex_exec_capturesWithin : capturesWithin commandRegex_exec.
Proof.
  apply capturesWithin_search. unfold commandRegex. apply capturesWithin_lit.
  assert (B : capturesWithin
                (star isWhiteSpace
                   (lazyGroup dotAll (fun cap =>
                      star isWhiteSpace (lit "```" (fun rest => Some (cap, rest))))))).
  { apply capturesWithin_star. intros s cap rest E.
    assert (H : forall cap0,
              handsOver cap0
                (star isWhiteSpace (lit "```" (fun rest => Some (cap0, rest))))).
    { intros cap0. apply handsOver_star, handsOver_lit.
      intros s0 cap1 rest1 X. injection X as <- <-. split; [reflexivity|].
      now exists EmptyString. }
    destruct (capturesWithin_lazyGroup dotAll _ (fun cap0 => cap0) H _ _ _ E)
      as (mid & after & -> & ->).
    exists EmptyString, after. reflexivity. }
  apply capturesWithin_alt; [apply capturesWithin_alt | exact B];
    now apply capturesWithin_lit.
Qed.

Lemma trimStart_suffix s : exists blanks, s = blanks ++ trimStart s.
Proof.
  induction s as [|a s (blanks & IH)]; [now exists EmptyString|].
  cbn [trimStart]. destruct (isWhiteSpace a).
  - exists (String a blanks). cbn. now rewrite <- IH.
  - now exists EmptyString.
Qed.

Lemma trimEnd_prefix s : exists blanks, s = trimEnd s ++ blanks.
Proof.
  induction s as [|a s (blanks & IH)]; [now exists EmptyString|].
  rewrite trimEnd_unfold. destruct (trimEnd s) as [|b t] eqn:T.
  - destruct (isWhiteSpace a).
    + exists (String a s). reflexivity.
    + exists s. reflexivity.
  - exists blanks. cbn. now rewrite IH.
Qed.

Lemma occursIn_trim s : occursIn (trim s) s.
Proof.
  unfold trim. destruct (trimStart_suffix s) as (b1 & E1).
  destruct (trimEnd_prefix (trimStart s)) as (b2 & E2).
  exists b1, b2. now rewrite <- E2.
Qed.

Lemma occursIn_within piece before cap after rest :
  occursIn piece cap -> occursIn piece (before ++ cap ++ after ++ rest).
Proof.
  intros (b & a & ->). exists (before ++ b), (a ++ after ++ rest).
  now rewrite !append_assoc.
Qed.

Lemma occursIn_rest piece before rest :
  occursIn piece rest -> occursIn piece (before ++ rest).
Proof.
  intros (b & a & ->). exists (before ++ b), a. now rewrite !append_assoc.
Qed.

(** On any reply, extraction returns at most one command for six code
    units of the reply, and each command is trimmed and stands in the
    reply as it is: nothing is made up, and the loop over the matches
    ends. *)
Theorem extracted_commands_are_pieces_of_the_reply response :
  6 * List.length (extractCommands response) <= String.length response /\
  forall cmd, In cmd (extractCommands response) ->
    trim cmd = cmd /\ occursIn cmd response.
Proof.
  assert (G : forall n response, String.length response <= n ->
            6 * List.length (extractCommands response) <= String.length response /\
            forall cmd, In cmd (extractCommands response) ->
              trim cmd = cmd /\ occursIn cmd response); [|now apply (G _ _ (le_n _))].
  clear response. induction n as [|n IH]; intros response Ln.
  - destruct response; [|cbn in Ln; lia]. split; [cbn; lia|]. now intros cmd [].
  - rewrite extractCommands_unfold.
    destruct (commandRegex_exec response) as [[cap rest]|] eqn:E;
      [|split; [cbn; lia | now intros cmd []]].
    pose proof (commandRegex_exec_consumes _ _ _ E) as C.
    destruct (commandRegex_exec_capturesWithin _ _ _ E) as (before & after & R).
    destruct (IH rest ltac:(lia)) as (I1 & I2).
    split; [cbn [List.length]; lia|].
    intros cmd [<-|Hc].
    + split; [apply trim_idem|]. rewrite R. apply occursIn_within, occursIn_trim.
    + destruct (I2 _ Hc) as (T & O). split; [exact T|].
      rewrite R, <- !append_assoc. now apply occursIn_rest.
Qed.

(** ** The rules on a simulated output *)

Section Echo.
Context (canon : ascii -> ascii).

Lemma litWith_extends p k : extends k -> extends (litWith canon p k).
Proof.
  intros H. induction p as [|a p IH]; intros s t E; [exact (H _ _ E)|].
  destruct s as [|b s]; [discriminate E|]. cbn [litWith append] in *.
  destruct (Ascii.eqb (canon a) (canon b)); [now apply IH | discriminate E].
Qed.

Lemma star_zero c (k : @Cont unit) s : k s = Some tt -> star c k s = Some tt.
Proof.
  intros E. destruct s as [|a s]; [exact E|]. cbn [star].
  destruct (c a); [|exact E]. now destruct (star c k s) as [[]|].
Qed.

Lemma star_extends c k : extends k -> extends (star c k).
Proof.
  intros H s. induction s as [|a s IH]; intros t E.
  - cbn [star] in E. apply star_zero. exact (H _ _ E).
  - cbn [star append] in *. destruct (c a); [|exact (H (String a s) t E)].
    destruct (star c k s) as [[]|] eqn:S.
    + now rewrite (IH t eq_refl).
    + destruct (star c k (s ++ t)) as [[]|]; [reflexivity | exact (H (String a s) t E)].
Qed.

Lemma search_hit_unit (m : @Cont unit) s : m s = Some tt -> search m s = Some tt.
Proof. intros E. destruct s; cbn [search]; now rewrite E. Qed.

Lemma search_extends m : extends m -> extends (search m).
Proof.
  intros H s. induction s as [|a s IH]; intros t E.
  - cbn [search] in E. destruct (m EmptyString) as [[]|] eqn:M; [|discriminate E].
    apply search_hit_unit. exact (H _ _ M).
  - cbn [search append] in *. destruct (m (String a s)) as [[]|] eqn:M.
    + pose proof (H _ t M) as M'. cbn [append] in M'. now rewrite M'.
    + destruct (m (String a (s ++ t))) as [[]|]; [reflexivity | now apply IH].
Qed.

Lemma search_none_here (m : @Cont unit) s : search m s = None -> m s = None.
Proof. destruct s; cbn [search]; destruct (m _) as [[]|]; auto; discriminate. Qed.

Lemma star_none c (k : @Cont unit) s : search k s = None -> star c k s = None.
Proof.
  induction s as [|a s IH]; intros E; [exact (search_none_here _ _ E)|].
  pose proof (search_none_here _ _ E) as K. cbn [search] in E. rewrite K in E.
  cbn [star]. rewrite K. destruct (c a); [|reflexivity]. now rewrite (IH E).
Qed.

Lemma litWith_within q tail p k :
  foreign canon q p = true -> within (String q tail) k ->
  within (String q tail) (litWith canon p k).
Proof.
  intros F H. induction p as [|a p IH]; intros s E; [exact (H _ E)|].
  cbn in F. apply andb_true_iff in F as [Fa Fp].
  destruct s as [|b s]; cbn [litWith append] in *.
  - apply negb_true_iff in Fa. rewrite Fa in E. discriminate E.
  - destruct (Ascii.eqb (canon a) (canon b)); [now apply IH | discriminate E].
Qed.

Lemma star_within tail c k :
  within tail k -> search k tail = None -> within tail (star c k).
Proof.
  intros H N s. induction s as [|a s IH]; intros E.
  - cbn [append] in E. rewrite (star_none _ _ _ N) in E. discriminate E.
  - cbn [star append] in *. destruct (c a); [|exact (H (String a s) E)].
    destruct (star c k (s ++ tail)) as [[]|] eqn:S.
    + now rewrite (IH eq_refl).
    + destruct (star c k s) as [[]|]; [reflexivity | exact (H (String a s) E)].
Qed.

Lemma search_within tail m :
  within tail m -> search m tail = None -> within tail (search m).
Proof.
  intros H N s. induction s as [|a s IH]; intros E.
  - cbn [append] in E. congruence.
  - cbn [search append] in *. destruct (m (String a (s ++ tail))) as [[]|] eqn:M.
    + now rewrite (H (String a s) M).
    + destruct (m (String a s)) as [[]|]; [reflexivity | now apply IH].
Qed.

Lemma search_step (m : @Cont unit) a s :
  m (String a s) = None -> search m (String a s) = search m s.
Proof. intros E. cbn [search]. now rewrite E. Qed.

(** A subject between a head no match starts in and a tail no match
    reaches matches when the text between them does. *)
Lemma search_between (m : @Cont unit) head tail cmd :
  (forall t, search m (head ++ t) = search m t) ->
  extends m -> within tail m -> search m tail = None ->
  search m (head ++ cmd ++ tail) = search m cmd.
Proof.
  intros Hh He Hw Hn. rewrite Hh.
  destruct (search m cmd) as [[]|] eqn:C.
  - now apply search_extends.
  - destruct (search m (cmd ++ tail)) as [[]|] eqn:T; [|reflexivity].
    apply (search_within tail m Hw Hn) in T. congruence.
Qed.

End Echo.

Lemma test_between (m : @Cont unit -> @Cont unit) head tail cmd :
  search (m (fun _ => Some tt)) (head ++ cmd ++ tail) = search (m (fun _ => Some tt)) cmd ->
  test m (head ++ cmd ++ tail) = test m cmd.
Proof. unfold test. now intros ->. Qed.

Lemma re_uid_root_echo cmd :
  re_uid_root ("Command '" ++ cmd ++ "' executed successfully") = re_uid_root cmd.
Proof.
  apply test_between. unfold lit. apply search_between.
  - intros t. cbn [append]. now rewrite !search_step by reflexivity.
  - apply litWith_extends. now intros s t _.
  - apply litWith_within; [reflexivity | now intros s _].
  - reflexivity.
Qed.

Lemma re_suid_python_echo cmd :
  re_suid_python ("Command '" ++ cmd ++ "' executed successfully") = re_suid_python cmd.
Proof.
  apply test_between. unfold lit. apply search_between.
  - intros t. cbn [append]. now rewrite !search_step by reflexivity.
  - apply litWith_extends, star_extends, litWith_extends. now intros s t _.
  - apply litWith_within; [reflexivity|]. apply star_within; [|reflexivity].
    apply litWith_within; [reflexivity | now intros s _].
  - reflexivity.
Qed.

Lemma re_nopasswd_find_echo cmd :
  re_nopasswd_find ("Command '" ++ cmd ++ "' executed successfully")
  = re_nopasswd_find cmd.
Proof.
  apply test_between. unfold litI. apply search_between.
  - intros t. cbn [append]. now rewrite !search_step by reflexivity.
  - apply litWith_extends, star_extends, litWith_extends. now intros s t _.
  - apply litWith_within; [reflexivity|]. apply star_within; [|reflexivity].
    apply litWith_within; [reflexivity | now intros s _].
  - reflexivity.
Qed.

Lemma assoc_In {V} key (table : list (string * V)) v :
  assoc key table = Some v -> In (key, v) table.
Proof.
  induction table as [|[k x] rest IH]; [discriminate|]. cbn [assoc].
  destruct (String.eqb k key) eqn:E.
  - intros H. injection H as ->. apply String.eqb_eq in E. subst k. now left.
  - intros H. right. now apply IH.
Qed.

Lemma assoc_none {V} key (table : list (string * V)) k v :
  assoc key table = None -> In (k, v) table -> String.eqb k key = false.
Proof.
  induction table as [|[k' x] rest IH]; [now intros _ []|]. cbn [assoc].
  destruct (String.eqb k' key) eqn:E; [discriminate|].
  intros H [I|I]; [injection I as <- _; exact E | now apply IH].
Qed.

(** What executing a command finds is a function of the text of the
    command.  On the simulated output the rule of the SUID binary and the
    rule of the root uid match exactly when they match the command
    itself, whose text the fallback output quotes; the sudo rule matches
    exactly when it matches the command itself or the command is
    [sudo -l], the one canned output that holds a finding. *)
Theorem findings_follow_the_command_text cmd :
  let output := JS.toString (fst (simulateCommandExecution cmd)) in
  re_nopasswd_find output = re_nopasswd_find cmd || String.eqb cmd "sudo -l" /\
  re_suid_python output = re_suid_python cmd /\
  re_uid_root output = re_uid_root cmd.
Proof.
  cbv zeta. unfold simulateCommandExecution.
  destruct (assoc cmd simulations) as [[output exitCode]|] eqn:A.
  - apply assoc_In in A. cbn [simulations In] in A.
    repeat (destruct A as [A|A]; [injection A as <- <- <-; vm_compute; repeat split|]).
    destruct A.
  - assert (S : String.eqb cmd "sudo -l" = false).
    { rewrite String.eqb_sym. eapply assoc_none; [exact A|]. cbn. right. right. now left. }
    destruct (existsb (String.eqb cmd) objectPrototypeKeys) eqn:B.
    + apply existsb_exists in B as (key & K & E). apply String.eqb_eq in E. subst key.
      cbn [objectPrototypeKeys In] in K.
      repeat (destruct K as [K|K]; [subst cmd; vm_compute; repeat split|]).
      destruct K.
    + cbn [fst JS.toString]. rewrite S, orb_false_r.
      split; [apply re_nopasswd_find_echo|].
      split; [apply re_suid_python_echo | apply re_uid_root_echo].
Qed.

(** ** What executing a command emits *)

Lemma ruleLoop_reports subject rules w :
  quiet w ->
  exists es w',
    yields
      (forOf rules (fun r =>
         if pattern r subject then
           w <- get ;;
           emitVulnerability (findingOf (targetOf w) r) ;;
           emitMessage (alertOf r)
         else ret tt)) w tt es w' /\
    map vuln_init (emittedVulnerabilities es)
    = map (findingOf (targetOf w)) (filter (fun r => pattern r subject) rules) /\
    map msg_init (emittedMessages es)
    = map alertOf (filter (fun r => pattern r subject) rules) /\
    emittedStatuses es = [].
Proof.
  revert w. induction rules as [|r rules IH]; intros w Q.
  - exists [], w. split; [apply yields_ret | now repeat split].
  - cbn [forOf filter]. destruct (pattern r subject).
    + destruct (emitVulnerability_yields (findingOf (targetOf w) r) w Q) as (w1 & Y1 & _).
      assert (Q1 : quiet w1) by (eapply quiet_same; [apply Y1 | exact Q]).
      destruct (emitMessage_yields (alertOf r) w1 Q1) as (w2 & Y2 & _).
      assert (S2 : sameService w w2).
      { eapply sameService_trans; [apply Y1 | apply Y2]. }
      destruct (IH w2 (quiet_same _ _ S2 Q)) as (es & w3 & Y3 & V3 & M3 & St3).
      eexists. exists w3. split; [|split; [|split]].
      * eapply yields_bind; [|exact Y3].
        eapply yields_bind; [apply yields_get|].
        eapply yields_bind; [exact Y1 | exact Y2].
      * read_trace. rewrite !map_app, V3. cbn. f_equal.
        now rewrite (targetOf_same _ _ S2).
      * read_trace. rewrite !map_app, M3. reflexivity.
      * read_trace. rewrite St3. reflexivity.
    + destruct (IH w Q) as (es & w3 & Y3 & V3 & M3 & St3).
      exists es, w3. split; [|now repeat split].
      change es with ([] ++ es)%list. eapply yields_bind; [apply yields_ret | exact Y3].
Qed.

(** With callbacks that return and a configuration set, executing a
    command emits, in this order: the announcement of the command, the
    simulated output with the command and the exit code, and one alert
    per rule of the catalog that matches the output, in catalog order.
    The findings emitted are those of the same rules, in the same order,
    and no status is emitted. *)
Theorem executeCommand_reports cmd w :
  quiet w -> config w <> None ->
  let execution := simulateCommandExecution cmd in
  let fired :=
    filter (fun r => pattern r (JS.toString (fst execution)))
      (vulnerabilityPatterns cmd (fst execution)) in
  exists es w',
    executeCommand cmd w = (Ok tt, w') /\
    trace w' = (trace w ++ es)%list /\
    map msg_init (emittedMessages es)
    = ({| content := JString ("Executing command: " ++ cmd);
          sender := system; type := command;
          metadata := Some {| meta_command := Some cmd; meta_exitCode := JUndefined |} |}
         :: {| content := fst execution;
               sender := system; type := result;
               metadata := Some {| meta_command := Some cmd;
                                   meta_exitCode := snd execution |} |}
         :: map alertOf fired)%list /\
    map vuln_init (emittedVulnerabilities es) = map (findingOf (targetOf w)) fired /\
    emittedStatuses es = [].
Proof.
  intros Q C. cbv zeta.
  destruct (emitMessage_yields
              {| content := JString ("Executing command: " ++ cmd);
                 sender := system; type := command;
                 metadata := Some {| meta_command := Some cmd;
                                     meta_exitCode := JUndefined |} |} w Q)
    as (w1 & Y1 & _).
  assert (S1 : sameService w w1) by apply Y1.
  assert (Q1 : quiet w1) by exact (quiet_same _ _ S1 Q).
  destruct (emitMessage_yields
              {| content := fst (simulateCommandExecution cmd);
                 sender := system; type := result;
                 metadata := Some {| meta_command := Some cmd;
                                     meta_exitCode := snd (simulateCommandExecution cmd) |}
              |} w1 Q1) as (w2 & Y2 & _).
  assert (S2 : sameService w1 w2) by apply Y2.
  assert (Q2 : quiet w2) by exact (quiet_same _ _ S2 Q1).
  destruct (ruleLoop_reports (JS.toString (fst (simulateCommandExecution cmd)))
              (vulnerabilityPatterns cmd (fst (simulateCommandExecution cmd))) w2 Q2)
    as (es3 & w3 & Y3 & V3 & M3 & St3).
  eassert (Y : yields (executeCommand cmd) w tt _ w3).
  { unfold executeCommand, executeCommand_begin.
    eapply yields_bind.
    - eapply yields_bind; [apply yields_get|]. cbv beta.
      destruct (config w); [|now elim C].
      eapply yields_bind; [exact Y1 | apply yields_ret].
    - cbv iota. unfold executeCommand_resume. cbv zeta.
      eapply yields_bind; [exact Y2 | exact Y3]. }
  destruct Y as (E & _ & T).
  eexists. exists w3. split; [exact E|]. split; [exact T|]. split; [|split].
  - read_trace. rewrite !map_app, M3. reflexivity.
  - read_trace. rewrite !map_app, V3. cbn.
    now rewrite (targetOf_same _ _ (sameService_trans _ _ _ S1 S2)).
  - read_trace. rewrite St3. reflexivity.
Qed.

Lemma executeCommand_reports_witness :
  let execution := simulateCommandExecution "sudo -l" in
  let fired :=
    filter (fun r => pattern r (JS.toString (fst execution)))
      (vulnerabilityPatterns "sudo -l" (fst execution)) in
  exists es w',
    executeCommand "sudo -l" demoWorld = (Ok tt, w') /\
    trace w' = (trace demoWorld ++ es)%list /\
    map msg_init (emittedMessages es)
    = ({| content := JString ("Executing command: " ++ "sudo -l");
          sender := system; type := command;
          metadata := Some {| meta_command := Some "sudo -l";
                              meta_exitCode := JUndefined |} |}
         :: {| content := fst execution;
               sender := system; type := result;
               metadata := Some {| meta_command := Some "sudo -l";
                                   meta_exitCode := snd execution |} |}
         :: map alertOf fired)%list /\
    map vuln_init (emittedVulnerabilities es) = map (findingOf (targetOf demoWorld)) fired /\
    emittedStatuses es = [].
Proof.
  apply (executeCommand_reports "sudo -l" demoWorld).
  - repeat split; intros s x [<-|[]]; reflexivity.
  - discriminate.
Defined.

(** ** The first revision hands the credential to the status callbacks *)

(** In the first revision, with a host and a user name configured and
    callbacks that return, a connection test the endpoint answers with
    200 resolves to the password (to the key file name, when the
    password is empty) and not to a boolean: that string is what every
    status callback is called with as [connected], and what the
    application stores as its connection status. *)
Theorem first_revision_broadcasts_the_credential cfg data w st :
  config w = Some cfg ->
  host (connection cfg) <> EmptyString ->
  username (connection cfg) <> EmptyString ->
  quiet w ->
  let credential :=
    JString (orElse (password (connection cfg)) (keyfilename (connection cfg))) in
  exists es w',
    testConnection Rev1 (Resolved 200 data) w = (Ok credential, w') /\
    trace w' = (trace w ++ es)%list /\
    deliveries es
    = map (fun s => (sub_name s, PStatus (Connected credential)))
        (onStatusChange_listeners w) /\
    App.status_connected
      (App.systemStatus (snd (snd (App.onTestConnection Rev1 (Resolved 200 data) (w, st)))))
    = credential.
Proof.
  intros C H U Q. cbv zeta.
  set (credential := JString (orElse (password (connection cfg))
                                (keyfilename (connection cfg)))).
  assert (S : simulateSSHConnection Rev1 w = (Ok credential, w)).
  { unfold simulateSSHConnection. rewrite C.
    apply String.eqb_neq in H, U. now rewrite H, U. }
  destruct (emitStatusChange_yields (Connected credential) w Q) as (w' & (E & _ & T) & _).
  assert (R : testConnection Rev1 (Resolved 200 data) w = (Ok credential, w')).
  { unfold testConnection. rewrite C. unfold tryCatch.
    rewrite (bind_ok _ _ w (200%Z, data) w eq_refl). cbn [fst Z.eqb Pos.eqb negb].
    rewrite (bind_ok _ _ w tt w eq_refl).
    rewrite (bind_ok _ _ w credential w S).
    rewrite (bind_ok _ _ w tt w' E). reflexivity. }
  eexists. exists w'. split; [exact R|]. split; [exact T|]. split.
  - change (Emitted ?p :: ?l) with ([Emitted p] ++ l)%list.
    rewrite deliveries_app. cbn [deliveries flat_map app].
    apply deliveries_deliveredTo.
  - unfold App.onTestConnection. rewrite R. reflexivity.
Qed.

Lemma first_revision_broadcasts_the_credential_witness :
  exists es w',
    testConnection Rev1 (Resolved 200 wellFormed) demoWorld = (Ok (JString "hunter2"), w') /\
    trace w' = (trace demoWorld ++ es)%list /\
    deliveries es = [(3, PStatus (Connected (JString "hunter2")))] /\
    App.status_connected
      (App.systemStatus
         (snd (snd (App.onTestConnection Rev1 (Resolved 200 wellFormed)
                      (demoWorld, App.initialState)))))
    = JString "hunter2".
Proof.
  apply (first_revision_broadcasts_the_credential demoConfiguration wellFormed demoWorld
           App.initialState).
  - reflexivity.
  - discriminate.
  - discriminate.
  - repeat split; intros s x [<-|[]]; reflexivity.
Defined.

(** ** Stopping does not cancel the ticks in flight *)

(** [stopScan] clears the timer and announces the end of the scan, but a
    tick that was waiting for the reply of the model goes on when the
    reply arrives: with callbacks that return, it announces and starts
    its command after the completion message. *)
Theorem stopScan_leaves_ticks_in_flight rev k tid cmd reply w :
  quiet w -> config w <> None ->
  nth_error (tasks w) k = Some (Some (AwaitPost tid cmd)) ->
  let stopped := step rev StopScan w in
  let resumed := step rev (PostSettles k reply) stopped in
  scanInterval stopped = None /\
  List.length (filter isCompletion (emittedMessages (App.since w stopped))) = 1 /\
  executedCommands (App.since stopped resumed) = [cmd] /\
  nth_error (tasks resumed) k = Some (Some (AwaitLatency tid cmd)).
Proof.
  intros Q C K. cbv zeta. cbn [step].
  destruct (stopScan_quiet w Q)
    as (es1 & w1 & E1 & (C1 & M1 & V1 & S1 & _ & K1) & I1 & _ & T1 & _ & _ & Co1).
  rewrite E1. cbn [snd]. rewrite K1, K.
  assert (Q1 : quiet w1) by now apply (quiet_keeps w).
  assert (C1' : config w1 <> None) by now rewrite C1.
  destruct (tick_posted_quiet rev tid cmd reply w1 Q1 C1')
    as (es2 & w2 & E2 & S2 & T2 & X2 & _).
  rewrite E2. cbn [suspensionOf tasks set_tasks].
  split; [exact I1|]. split; [|split].
  - now rewrite (since_app _ _ _ T1).
  - rewrite (since_app w1 _ es2) by exact T2. exact X2.
  - destruct S2 as (_&_&_&_&_&_&K2&_). rewrite K2, K1.
    now apply nth_error_updateAt_same with (x := Some (AwaitPost tid cmd)).
Qed.

Lemma stopScan_leaves_ticks_in_flight_witness :
  let stopped := step Rev2 StopScan firstTickWaiting in
  let resumed := step Rev2 (PostSettles 0 lateReply) stopped in
  scanInterval stopped = None /\
  List.length (filter isCompletion (emittedMessages (App.since firstTickWaiting stopped))) = 1 /\
  executedCommands (App.since stopped resumed) = ["whoami"] /\
  nth_error (tasks resumed) 0 = Some (Some (AwaitLatency 0 "whoami")).
Proof.
  apply (stopScan_leaves_ticks_in_flight Rev2 0 0 "whoami" lateReply firstTickWaiting).
  - repeat split; intros s x H; vm_compute in H; destruct H as [<-|[]]; reflexivity.
  - vm_compute. discriminate.
  - vm_compute. reflexivity.
Defined.

(** ** An edit in the panel writes through the copy *)

Lemma split_plain s : Edit.plain s = true -> Edit.split s = [s].
Proof.
  induction s as [|c s IH]; [reflexivity|]. cbn [Edit.plain Edit.split].
  intros H. apply andb_true_iff in H as [C P]. apply negb_true_iff in C.
  now rewrite C, (IH P).
Qed.

Lemma split_path section field :
  Edit.plain section = true -> Edit.plain field = true ->
  Edit.split (section ++ "." ++ field) = [section; field].
Proof.
  intros S F. induction section as [|c s IH].
  - cbn. now rewrite (split_plain _ F).
  - cbn [Edit.plain] in S. apply andb_true_iff in S as [C P]. apply negb_true_iff in C.
    specialize (IH P). change (String c s ++ "." ++ field) with (String c (s ++ "." ++ field)).
    cbn [Edit.split]. now rewrite C, IH.
Qed.

Lemma assoc_setOwn_same key v (o : Edit.Obj) : assoc key (Edit.setOwn key v o) = Some v.
Proof.
  induction o as [|[k x] rest IH]; cbn [Edit.setOwn assoc].
  - now rewrite String.eqb_refl.
  - destruct (String.eqb k key) eqn:E; cbn [assoc]; now rewrite E.
Qed.

Lemma nth_error_updateAt_fresh {A} i (f : A -> A) l j :
  i <> j -> nth_error (updateAt i f l) j = nth_error l j.
Proof. apply nth_error_updateAt_other. Qed.

(** [updateConfig] copies the configuration one level deep: the copy
    holds the same nested objects as the original, and the write goes
    into one of them.  So after an edit of [section.field], reading the
    path through the configuration object the panel started from gives
    the new value, as it does through the copy: what the application and
    the service hold has changed before anything is saved or checked. *)
Theorem edit_reaches_the_shared_object (h : Edit.Heap) config errors section field v
  (o : Edit.Obj) a (oa : Edit.Obj) :
  nth_error h config = Some o ->
  assoc section o = Some (Edit.VObject a) ->
  nth_error h a = Some oa ->
  a <> config ->
  Edit.plain section = true -> Edit.plain field = true ->
  field <> "__proto__" ->
  let path := section ++ "." ++ field in
  exists h',
    Edit.updateConfig h config errors path v
    = Edit.Done (h', List.length h, Edit.clearError path errors) /\
    nth_error h' config = Some o /\
    nth_error h' (List.length h) = Some o /\
    nth_error h' a = Some (Edit.setOwn field v oa) /\
    Edit.read h' (Edit.VObject config) (Edit.split path) = Edit.Done v /\
    Edit.read h' (Edit.VObject (List.length h)) (Edit.split path) = Edit.Done v.
Proof.
  intros C S A N Ps Pf Nf. cbv zeta.
  assert (La : a < List.length h) by (apply nth_error_Some; congruence).
  assert (Lc : config < List.length h) by (apply nth_error_Some; congruence).
  set (h1 := (h ++ [o])%list : Edit.Heap).
  assert (A1 : nth_error h1 a = Some oa) by (unfold h1; now rewrite nth_error_app1).
  assert (C1 : nth_error h1 config = Some o) by (unfold h1; now rewrite nth_error_app1).
  assert (F1 : nth_error h1 (List.length h) = Some o) by apply nth_error_last.
  set (h' := updateAt a (Edit.setOwn field v) h1).
  assert (A' : nth_error h' a = Some (Edit.setOwn field v oa))
    by exact (nth_error_updateAt_same _ _ _ _ A1).
  assert (C' : nth_error h' config = Some o).
  { unfold h'. rewrite nth_error_updateAt_other by exact N. exact C1. }
  assert (F' : nth_error h' (List.length h) = Some o).
  { unfold h'. rewrite nth_error_updateAt_other by lia. exact F1. }
  apply String.eqb_neq in Nf.
  exists h'. split; [|split; [exact C' | split; [exact F' | split; [exact A' | split]]]].
  - unfold Edit.updateConfig. rewrite C. cbv zeta. fold h1.
    rewrite (split_path _ _ Ps Pf). cbn [Edit.descend Edit.get].
    rewrite F1, S. cbn [Edit.set]. rewrite A1, Nf. reflexivity.
  - rewrite (split_path _ _ Ps Pf). cbn [Edit.read Edit.get].
    rewrite C', S. cbn [Edit.read Edit.get]. rewrite A', assoc_setOwn_same. reflexivity.
  - rewrite (split_path _ _ Ps Pf). cbn [Edit.read Edit.get].
    rewrite F', S. cbn [Edit.read Edit.get]. rewrite A', assoc_setOwn_same. reflexivity.
Qed.

Lemma edit_reaches_the_shared_object_witness :
  let h := [ [("llm", Edit.VObject 1); ("connection", Edit.VObject 2)];
             [("model", Edit.VString "gemma2:2b")];
             [("host", Edit.VString EmptyString); ("port", Edit.VNumber 22)] ] in
  exists h',
    Edit.updateConfig h 0 [("connection.host", "Host is required")] "connection.host"
      (Edit.VString "10.0.0.5")
    = Edit.Done (h', 3, []) /\
    nth_error h' 0 = Some [("llm", Edit.VObject 1); ("connection", Edit.VObject 2)] /\
    nth_error h' 3 = Some [("llm", Edit.VObject 1); ("connection", Edit.VObject 2)] /\
    nth_error h' 2
    = Some [("host", Edit.VString "10.0.0.5"); ("port", Edit.VNumber 22)] /\
    Edit.read h' (Edit.VObject 0) ["connection"; "host"]
    = Edit.Done (Edit.VString "10.0.0.5") /\
    Edit.read h' (Edit.VObject 3) ["connection"; "host"]
    = Edit.Done (Edit.VString "10.0.0.5").
Proof.
  cbv zeta.
  apply (edit_reaches_the_shared_object
           [ [("llm", Edit.VObject 1); ("connection", Edit.VObject 2)];
             [("model", Edit.VString "gemma2:2b")];
             [("host", Edit.VString EmptyString); ("port", Edit.VNumber 22)] ]
           0 [("connection.host", "Host is required")] "connection" "host"
           (Edit.VString "10.0.0.5")
           [("llm", Edit.VObject 1); ("connection", Edit.VObject 2)] 2
           [("host", Edit.VString EmptyString); ("port", Edit.VNumber 22)]);
    try reflexivity; discriminate.
Defined.

(** ** sendMessage on a reply that holds a command *)

Lemma sendMessage_succeeds_witness :
  exists es w',
    sendMessage "What next?" (Resolved 200 commandReply) demoWorld = (Ok tt, w') /\
    trace w'
    = (trace demoWorld
       ++ Emitted (PMessage (fullMessage demoWorld
                               {| content := JString "try ```id``` now";
                                  sender := assistant;
                                  type := text;
                                  metadata := None |})) :: es)%list /\
    fromSystem es /\ executedCommands es = extractCommands "try ```id``` now".
Proof.
  apply (sendMessage_succeeds "What next?" 200 commandReply "try ```id``` now" demoWorld).
  - repeat split; intros s x [<-|[]]; reflexivity.
  - discriminate.
  - reflexivity.
Defined.
